(** * Tsunami bytecode module encoder / validator

    A shallow embedding of [Tsunami/src/Bytecode.cpp] and
    [Tsunami/include/Bytecode.h], of the callers of the encoder in
    [Tsunami/include/tsunami_push.hpp] and [Tsunami/include/tsunami_vm.hpp],
    and the properties of the module format.

    Part one, the program: the checksum, the varint writer, the opcode
    transform, the packed module header, the [CreatePush*] builders,
    [ValidateBytecode], [Decompress], the [Compiler] class and [Compile].

    Part two, the format: a reader for the layout the builders write, the same
    layout written from a decoded module, and the module each builder encodes;
    then the rest of the program: [HexDump], [BytecodeCache], and the pushers
    that hand the buffers to the Luau loader.

    Part three, the properties: the builders write the layout of their modules,
    the reader inverts the layout, and what follows from both for the header,
    the checksum, the validator, the stack size, the constant pool and the
    load instructions.

    Part four, further properties: the shape of a varint, what the validator
    accepts and what it detects, the cache, the [Compiler] object, the dump,
    and what the callers load.

    Conventions.
    - A [std::vector<uint8_t>] and a [std::string] are a [list byte].
    - [uint32_t] values are [Z] with the wrap-around written out ([u32]).
    - [size_t] values are unbounded [Z]; every narrowing conversion the source
      performs ([uint32_t], [uint8_t]) is written out.
    - A [double] is carried by its 64-bit pattern, which is all the source
      ever looks at ([memcpy(&bits, &value, sizeof(double))]).
    - The host is little-endian and the header struct is packed
      ([#pragma pack(push, 1)]).
    - The C library's [strtod] is a parameter of the code that calls it; a
      reference instance for decimal literals makes that code runnable. *)

From Stdlib Require Import Strings.String Strings.Byte.
From Stdlib Require Import ZArith List Lia Bool.
From coqutil Require Import Byte Word.LittleEndianList.
Import ListNotations.
Local Open Scope Z_scope.

(** ** Machine integers *)

Definition u32 (z : Z) : Z := z mod 2 ^ 32.

(** [static_cast<uint8_t>(z)] *)
Definition u8 (z : Z) : byte := byte.of_Z z.

(** [v.size()] *)
Definition size {A} (v : list A) : Z := Z.of_nat (List.length v).

(** ** Constant tags and opcodes (Bytecode.h) *)

Definition LBC_CONSTANT_NIL : Z := 0.
Definition LBC_CONSTANT_BOOLEAN : Z := 1.
Definition LBC_CONSTANT_NUMBER : Z := 2.
Definition LBC_CONSTANT_STRING : Z := 3.

Definition LOP_LOADNIL : Z := 1.
Definition LOP_LOADB : Z := 2.
Definition LOP_LOADN : Z := 3.
Definition LOP_LOADK : Z := 4.
Definition LOP_MOVE : Z := 5.
Definition LOP_SETTABLE : Z := 13.
Definition LOP_CALL : Z := 17.
Definition LOP_RETURN : Z := 18.
Definition LOP_NEWTABLE : Z := 45.
Definition LOP_SETLIST : Z := 47.

(** ** Utility functions *)

(** One round of the loop body of [hashBytecode]:
    [hash ^= data[i]; hash *= 16777619u;] on a [uint32_t]. *)
Definition hash_step (hash : Z) (b : byte) : Z :=
  u32 (Z.lxor hash (byte.unsigned b) * 16777619).

(** [hashBytecode(data, size)] over the bytes [data[0..size)]. *)
Definition hashBytecode (data : list byte) : Z :=
  fold_left hash_step data 2166136261.

(** The [do { ... } while (value != 0)] loop of [writeVarInt].  A [uint32_t]
    is exhausted after five shifts by seven, so five rounds of fuel are
    enough (see [writeVarInt_loop_fuel]). *)
Fixpoint writeVarInt_loop (fuel : nat) (value : Z) (out : list byte) : list byte :=
  match fuel with
  | O => out
  | S fuel' =>
      let byte := Z.land value 0x7F in
      let value := Z.shiftr value 7 in
      let byte := if value =? 0 then byte else Z.lor byte 0x80 in
      let out := out ++ [u8 byte] in
      if value =? 0 then out else writeVarInt_loop fuel' value out
  end.

(** [writeVarInt(value, out)]; the parameter is a [uint32_t], so the argument
    is converted on entry. *)
Definition writeVarInt (value : Z) (out : list byte) : list byte :=
  writeVarInt_loop 5 (u32 value) out.

(** [encodeOpcode]: [(opcode * 227) & 0xFF] on a [uint8_t] argument. *)
Definition encodeOpcode (opcode : Z) : Z := Z.land (opcode * 227) 0xFF.

(** ** The packed header *)

Record LuauBytecodeHeader := {
  version : Z;      (* uint8_t  *)
  flags : Z;        (* uint8_t  *)
  typesize : Z;     (* uint8_t  *)
  numbersize : Z;   (* uint8_t  *)
  hash : Z;         (* uint32_t *)
  hsize : Z         (* uint32_t, the field [size] *)
}.

Definition sizeof_header : Z := 12.

(** The object representation of the struct: its fields in declaration
    order, no padding, multi-byte fields least significant byte first. *)
Definition header_bytes (h : LuauBytecodeHeader) : list byte :=
  [u8 (version h); u8 (flags h); u8 (typesize h); u8 (numbersize h)]
  ++ le_split 4 (hash h) ++ le_split 4 (hsize h).

(** [reinterpret_cast<const LuauBytecodeHeader*>(data)] on a buffer that holds
    at least [sizeof_header] bytes. *)
Definition header_of_bytes (data : list byte) : LuauBytecodeHeader :=
  {| version := byte.unsigned (nth 0 data x00);
     flags := byte.unsigned (nth 1 data x00);
     typesize := byte.unsigned (nth 2 data x00);
     numbersize := byte.unsigned (nth 3 data x00);
     hash := le_combine (firstn 4 (skipn 4 data));
     hsize := le_combine (firstn 4 (skipn 8 data)) |}.

(** [LuauBytecodeHeader header = {0x02, 0x00, 0x08, 0x08, 0, 0};] *)
Definition initial_header : LuauBytecodeHeader :=
  {| version := 0x02; flags := 0x00; typesize := 0x08; numbersize := 0x08;
     hash := 0; hsize := 0 |}.

(** ** Statements on the output vector *)

Definition stmt := list byte -> list byte.

Definition push_back (b : byte) : stmt := fun out => out ++ [b].

(** [v.insert(v.end(), first, last)] *)
Definition insert_end (bs : list byte) : stmt := fun out => out ++ bs.

Definition seq (s1 s2 : stmt) : stmt := fun out => s2 (s1 out).
Notation "s1 ;; s2" := (seq s1 s2) (at level 61, left associativity).

(** A range-for loop that runs one statement per element. *)
Definition for_each {A} (body : A -> stmt) (xs : list A) : stmt :=
  fun out => fold_left (fun out x => body x out) xs out.

(** [for (int i = 0; i < n; i++) { push_back(bits & 0xFF); bits >>= 8; }] *)
Fixpoint write_double_loop (n : nat) (bits : Z) : stmt :=
  match n with
  | O => fun out => out
  | S n' => fun out =>
      write_double_loop n' (Z.shiftr bits 8) (out ++ [u8 (Z.land bits 0xFF)])
  end.

(** [uint64_t bits; memcpy(&bits, &value, sizeof(double));] and the loop over
    its eight bytes; [value] is the pattern itself. *)
Definition write_double (value : Z) : stmt := write_double_loop 8 value.

(** The "Update header" block that ends every builder:
    [header.size = bytecode.size() - sizeof(header);
     header.hash = hashBytecode(bytecode.data() + sizeof(header), header.size);
     memcpy(bytecode.data(), &header, sizeof(header));] *)
Definition update_header (header : LuauBytecodeHeader) (bytecode : list byte)
  : list byte :=
  let size' := u32 (size bytecode - sizeof_header) in
  let hash' := hashBytecode (firstn (Z.to_nat size') (skipn 12 bytecode)) in
  let header' :=
    {| version := version header; flags := flags header;
       typesize := typesize header; numbersize := numbersize header;
       hash := hash'; hsize := size' |} in
  header_bytes header' ++ skipn 12 bytecode.

(** The debug-info tail shared by the builders. *)
Definition debug_tail : stmt :=
  writeVarInt 0 ;; writeVarInt 0 ;; push_back (u8 0x00) ;; push_back (u8 0x00).

(** ** Basic push operations *)

Definition CreatePushNil : list byte :=
  let header := initial_header in
  let bytecode :=
    (insert_end (header_bytes header)
     ;; writeVarInt 0                       (* constants *)
     ;; writeVarInt 1                       (* functions *)
     ;; writeVarInt 0                       (* maxstacksize *)
     ;; writeVarInt 0                       (* numparams *)
     ;; writeVarInt 1                       (* numupvalues *)
     ;; writeVarInt 0                       (* is_vararg *)
     ;; writeVarInt 1                       (* instructions *)
     ;; push_back (u8 (encodeOpcode LOP_LOADNIL))
     ;; push_back (u8 0x00)                 (* register A *)
     ;; writeVarInt 0                       (* sizeK *)
     ;; writeVarInt 0                       (* sizeP *)
     ;; debug_tail) [] in
  update_header header bytecode.

Definition CreatePushBoolean (value : bool) : list byte :=
  let header := initial_header in
  let bytecode :=
    (insert_end (header_bytes header)
     ;; writeVarInt 0
     ;; writeVarInt 1
     ;; writeVarInt 1                       (* maxstacksize *)
     ;; writeVarInt 0
     ;; writeVarInt 0
     ;; writeVarInt 0
     ;; writeVarInt 1
     ;; push_back (u8 (encodeOpcode LOP_LOADB))
     ;; push_back (u8 0x00)
     ;; push_back (u8 (if value then 0x01 else 0x00))
     ;; push_back (u8 0x00)
     ;; writeVarInt 0
     ;; writeVarInt 0
     ;; debug_tail) [] in
  update_header header bytecode.

(** [value] is the 64-bit pattern of the [double] argument. *)
Definition CreatePushNumber (value : Z) : list byte :=
  let header := initial_header in
  let bytecode :=
    (insert_end (header_bytes header)
     ;; writeVarInt 1
     ;; push_back (u8 LBC_CONSTANT_NUMBER)
     ;; write_double value
     ;; writeVarInt 1
     ;; writeVarInt 1                       (* maxstacksize *)
     ;; writeVarInt 0
     ;; writeVarInt 0
     ;; writeVarInt 0
     ;; writeVarInt 1
     ;; push_back (u8 (encodeOpcode LOP_LOADN))
     ;; push_back (u8 0x00)
     ;; push_back (u8 0x00)
     ;; writeVarInt 1
     ;; writeVarInt 0
     ;; debug_tail) [] in
  update_header header bytecode.

Definition CreatePushString (value : list byte) : list byte :=
  let header := initial_header in
  let bytecode :=
    (insert_end (header_bytes header)
     ;; writeVarInt 1
     ;; push_back (u8 LBC_CONSTANT_STRING)
     ;; writeVarInt (size value)
     ;; insert_end value
     ;; writeVarInt 1
     ;; writeVarInt 1                       (* maxstacksize *)
     ;; writeVarInt 0
     ;; writeVarInt 0
     ;; writeVarInt 0
     ;; writeVarInt 1
     ;; push_back (u8 (encodeOpcode LOP_LOADK))
     ;; push_back (u8 0x00)
     ;; push_back (u8 0x00)
     ;; writeVarInt 1
     ;; writeVarInt 0
     ;; debug_tail) [] in
  update_header header bytecode.

(** ** Table operations *)

(** The arguments are [int]s; [arraySize & 0xFF] on a two's complement [int]
    is [Z.land] on the integer it denotes. *)
Definition CreatePushTable (arraySize hashSize : Z) : list byte :=
  let header := initial_header in
  let bytecode :=
    (insert_end (header_bytes header)
     ;; writeVarInt 0
     ;; writeVarInt 1
     ;; writeVarInt 1                       (* maxstacksize *)
     ;; writeVarInt 0
     ;; writeVarInt 0
     ;; writeVarInt 0
     ;; writeVarInt 1
     ;; push_back (u8 (encodeOpcode LOP_NEWTABLE))
     ;; push_back (u8 0x00)
     ;; push_back (u8 (Z.land arraySize 0xFF))
     ;; push_back (u8 (Z.land hashSize 0xFF))
     ;; writeVarInt 0
     ;; writeVarInt 0
     ;; debug_tail) [] in
  update_header header bytecode.

(** [for (size_t i = 0; i < n; i++) body(i)] *)
Definition for_index (body : Z -> stmt) (n : nat) : stmt :=
  for_each body (map Z.of_nat (List.seq 0 n)).

Definition CreatePushArray (values : list (list byte)) : list byte :=
  match values with
  | [] => CreatePushTable 0 0
  | _ :: _ =>
    let header := initial_header in
    let bytecode :=
      (insert_end (header_bytes header)
       (* constants: all string values *)
       ;; writeVarInt (size values)
       ;; for_each (fun value =>
                      push_back (u8 LBC_CONSTANT_STRING)
                      ;; writeVarInt (size value)
                      ;; insert_end value) values
       ;; writeVarInt 1
       ;; writeVarInt (1 + size values)       (* maxstacksize *)
       ;; writeVarInt 0
       ;; writeVarInt 0
       ;; writeVarInt 0
       ;; writeVarInt (size values + 2)       (* instructions *)
       (* 1. NEWTABLE *)
       ;; push_back (u8 (encodeOpcode LOP_NEWTABLE))
       ;; push_back (u8 0x00)
       ;; push_back (u8 (size values))
       ;; push_back (u8 0x00)
       (* 2. one LOADK per value *)
       ;; for_index (fun i =>
                       push_back (u8 (encodeOpcode LOP_LOADK))
                       ;; push_back (u8 (i + 1))
                       ;; push_back (u8 i)) (List.length values)
       (* 3. SETLIST *)
       ;; push_back (u8 (encodeOpcode LOP_SETLIST))
       ;; push_back (u8 0x00)
       ;; push_back (u8 (size values))
       ;; push_back (u8 0x00)
       ;; writeVarInt (size values)           (* sizeK *)
       ;; writeVarInt 0
       ;; debug_tail) [] in
    update_header header bytecode
  end.

(** ** Roblox-specific types

    [CreatePushVector2] fills a local vector that it never returns and falls
    back to a table; [CreatePushVector3] is the fallback alone.  The [float]
    arguments do not reach the result. *)

Definition CreatePushVector2 (x y : Z) : list byte := CreatePushTable 2 0.

Definition CreatePushVector3 (x y z : Z) : list byte := CreatePushTable 3 0.

(** ** Validation and signature stripping *)

Definition ValidateBytecode (bytecode : list byte) : bool :=
  if size bytecode <? sizeof_header then false
  else
    let header := header_of_bytes bytecode in
    if negb (version header =? 0x02) then false
    else if negb (hsize header =? size bytecode - sizeof_header) then false
    else
      let calculated :=
        hashBytecode (firstn (Z.to_nat (hsize header)) (skipn 12 bytecode)) in
      hash header =? calculated.

(** The result of a call that may leave by a C++ exception. *)
Inductive outcome (A : Type) : Type :=
| Returns (a : A)
| Throws_out_of_range.
Arguments Returns {A} a.
Arguments Throws_out_of_range {A}.

(** [s.substr(pos)]: throws [std::out_of_range] when [pos > s.size()]. *)
Definition substr_from (s : list byte) (pos : nat) : outcome (list byte) :=
  if (List.length s <? pos)%nat then Throws_out_of_range
  else Returns (skipn pos s).

(** [s.substr(pos, count)] for [pos <= s.size()]: the characters
    [pos, min(pos + count, size)). *)
Definition substr (s : list byte) (pos count : nat) : list byte :=
  firstn count (skipn pos s).

Definition sizeof_RobloxSignature : nat := 20.

Definition Decompress (signedBytecode : list byte) : outcome (list byte) :=
  if (16 <=? size signedBytecode)
     && Byte.eqb (nth 0 signedBytecode x00) "R"%byte
     && Byte.eqb (nth 1 signedBytecode x00) "B"%byte
     && Byte.eqb (nth 2 signedBytecode x00) "X"%byte
     && Byte.eqb (nth 3 signedBytecode x00) "2"%byte
  then substr_from signedBytecode sizeof_RobloxSignature
  else Returns signedBytecode.

(** ** The [Compiler] class *)

Module Compiler.

(** The data members. *)
Record t := {
  bytecode : list byte;
  constants : list (list byte);
  numberConstants : list Z;
  boolConstants : list bool
}.

(** [Compiler::Compiler()] *)
Definition create : t :=
  {| bytecode := header_bytes initial_header;
     constants := []; numberConstants := []; boolConstants := [] |}.

(** Runs a statement on the member vector [bytecode]. *)
Definition on_bytecode (s : stmt) (self : t) : t :=
  {| bytecode := s (bytecode self); constants := constants self;
     numberConstants := numberConstants self;
     boolConstants := boolConstants self |}.

(** [addConstant]: the new state and the index returned. *)
Definition addConstant (value : list byte) (self : t) : t * Z :=
  ({| bytecode := bytecode self; constants := constants self ++ [value];
      numberConstants := numberConstants self;
      boolConstants := boolConstants self |},
   size (constants self ++ [value]) - 1).

Definition addNumberConstant (value : Z) (self : t) : t * Z :=
  ({| bytecode := bytecode self; constants := constants self;
      numberConstants := numberConstants self ++ [value];
      boolConstants := boolConstants self |},
   size (numberConstants self ++ [value]) - 1).

Definition pushNil : t -> t :=
  on_bytecode (push_back (u8 (encodeOpcode LOP_LOADNIL)) ;; push_back (u8 0x00)).

Definition pushBoolean (value : bool) : t -> t :=
  on_bytecode (push_back (u8 (encodeOpcode LOP_LOADB))
               ;; push_back (u8 0x00)
               ;; push_back (u8 (if value then 0x01 else 0x00))
               ;; push_back (u8 0x00)).

Definition pushNumber (value : Z) (self : t) : t :=
  let '(self, constIdx) := addNumberConstant value self in
  on_bytecode (push_back (u8 (encodeOpcode LOP_LOADN))
               ;; push_back (u8 0x00)
               ;; push_back (u8 constIdx)) self.

Definition pushString (value : list byte) (self : t) : t :=
  let '(self, constIdx) := addConstant value self in
  on_bytecode (push_back (u8 (encodeOpcode LOP_LOADK))
               ;; push_back (u8 0x00)
               ;; push_back (u8 constIdx)) self.

(** [Compiler::compile()].  The count, the doubles and the string lengths
    go through the member functions [writeVarInt] and [writeDouble], which
    append to the member [bytecode]; the tags, the boolean bytes and the
    string characters go to the local [result], which is patched and
    returned. *)
Definition compile (self : t) : list byte * t :=
  let header := initial_header in
  let self :=
    on_bytecode
      (writeVarInt (size (constants self) + size (numberConstants self)
                    + size (boolConstants self))
       ;; for_each (fun num => write_double num) (numberConstants self)
       ;; for_each (fun str : list byte => writeVarInt (size str)) (constants self))
      self in
  let result :=
    (insert_end (header_bytes header)
     ;; for_each (fun _ : Z => push_back (u8 LBC_CONSTANT_NUMBER))
          (numberConstants self)
     ;; for_each (fun b : bool =>
                    push_back (u8 LBC_CONSTANT_BOOLEAN)
                    ;; push_back (u8 (if b then 0x01 else 0x00)))
          (boolConstants self)
     ;; for_each (fun str =>
                    push_back (u8 LBC_CONSTANT_STRING) ;; insert_end str)
          (constants self)) [] in
  (update_header header result, self).

(** The private writers, on the member [bytecode]. *)
Definition writeString (str : list byte) : t -> t :=
  on_bytecode (writeVarInt (size str) ;; insert_end str).

Definition writeByte (value : Z) : t -> t := on_bytecode (push_back (u8 value)).

Definition addBoolConstant (value : bool) (self : t) : t * Z :=
  ({| bytecode := bytecode self; constants := constants self;
      numberConstants := numberConstants self;
      boolConstants := boolConstants self ++ [value] |},
   size (boolConstants self ++ [value]) - 1).

(** The instruction emitters.  Their [int] arguments reach the vector
    through [static_cast<uint8_t>]. *)
Definition addLoadNil (reg : Z) : t -> t :=
  on_bytecode (push_back (u8 (encodeOpcode LOP_LOADNIL)) ;; push_back (u8 reg)).

Definition addLoadBool (reg : Z) (value : bool) (jump : Z) : t -> t :=
  on_bytecode (push_back (u8 (encodeOpcode LOP_LOADB))
               ;; push_back (u8 reg)
               ;; push_back (u8 (if value then 0x01 else 0x00))
               ;; push_back (u8 jump)).

Definition pushTable (arraySize hashSize : Z) : t -> t :=
  on_bytecode (push_back (u8 (encodeOpcode LOP_NEWTABLE))
               ;; push_back (u8 0x00)
               ;; push_back (u8 arraySize)
               ;; push_back (u8 hashSize)).

(** One round of the loop of [pushArray].  ([values.size()] and [i + 1]
    are [size_t]; only their low eight bits reach the vector.) *)
Definition pushArray_step (values : list (list byte)) (self : t) (i : nat) : t :=
  let '(self, constIdx) := addConstant (nth i values []) self in
  on_bytecode (push_back (u8 (encodeOpcode LOP_LOADK))
               ;; push_back (u8 (Z.of_nat i + 1))
               ;; push_back (u8 constIdx)) self.

Definition pushArray (values : list (list byte)) (self : t) : t :=
  match values with
  | [] => pushTable 0 0 self
  | _ :: _ =>
      let self := pushTable (size values) 0 self in
      let self :=
        fold_left (pushArray_step values) (List.seq 0 (length values)) self in
      on_bytecode (push_back (u8 (encodeOpcode LOP_SETLIST))
                   ;; push_back (u8 0x00)
                   ;; push_back (u8 (size values))
                   ;; push_back (u8 0x00)) self
  end.

Definition addNewTable (reg arraySize hashSize : Z) : t -> t :=
  on_bytecode (push_back (u8 (encodeOpcode LOP_NEWTABLE))
               ;; push_back (u8 reg)
               ;; push_back (u8 arraySize)
               ;; push_back (u8 hashSize)).

Definition addSetTable (tableReg keyReg valueReg : Z) : t -> t :=
  on_bytecode (push_back (u8 (encodeOpcode LOP_SETTABLE))
               ;; push_back (u8 tableReg)
               ;; push_back (u8 keyReg)
               ;; push_back (u8 valueReg)).

(** [startReg] is not written. *)
Definition addSetList (tableReg startReg count tableIndex : Z) : t -> t :=
  on_bytecode (push_back (u8 (encodeOpcode LOP_SETLIST))
               ;; push_back (u8 tableReg)
               ;; push_back (u8 count)
               ;; push_back (u8 tableIndex)).

Definition addReturn (startReg count : Z) : t -> t :=
  on_bytecode (push_back (u8 (encodeOpcode LOP_RETURN))
               ;; push_back (u8 startReg)
               ;; push_back (u8 count)).

Definition addCall (funcReg argCount resultCount : Z) : t -> t :=
  on_bytecode (push_back (u8 (encodeOpcode LOP_CALL))
               ;; push_back (u8 funcReg)
               ;; push_back (u8 (argCount + 1))
               ;; push_back (u8 (resultCount + 1))).

Definition addLoadConst (reg constIdx : Z) : t -> t :=
  on_bytecode (push_back (u8 (encodeOpcode LOP_LOADK))
               ;; push_back (u8 reg)
               ;; push_back (u8 constIdx)).

Definition addMove (dest src : Z) : t -> t :=
  on_bytecode (push_back (u8 (encodeOpcode LOP_MOVE))
               ;; push_back (u8 dest)
               ;; push_back (u8 src)).

Definition getBytecode (self : t) : list byte := bytecode self.

(** [Compiler::clear()]: the four vectors are emptied and the placeholder
    header is written again. *)
Definition clear (self : t) : t :=
  {| bytecode := insert_end (header_bytes initial_header) [];
     constants := []; numberConstants := []; boolConstants := [] |}.

(** One call of a public member function that changes the object. *)
Inductive call : Type :=
| call_addLoadNil (reg : Z)
| call_addLoadBool (reg : Z) (value : bool) (jump : Z)
| call_addLoadConst (reg constIdx : Z)
| call_addMove (dest src : Z)
| call_addNewTable (reg arraySize hashSize : Z)
| call_addSetTable (tableReg keyReg valueReg : Z)
| call_addSetList (tableReg startReg count tableIndex : Z)
| call_addReturn (startReg count : Z)
| call_addCall (funcReg argCount resultCount : Z)
| call_pushNil
| call_pushBoolean (value : bool)
| call_pushNumber (value : Z)
| call_pushString (value : list byte)
| call_pushTable (arraySize hashSize : Z)
| call_pushArray (values : list (list byte))
| call_compile
| call_clear.

Definition run (c : call) (self : t) : t :=
  match c with
  | call_addLoadNil reg => addLoadNil reg self
  | call_addLoadBool reg value jump => addLoadBool reg value jump self
  | call_addLoadConst reg constIdx => addLoadConst reg constIdx self
  | call_addMove dest src => addMove dest src self
  | call_addNewTable reg arraySize hashSize => addNewTable reg arraySize hashSize self
  | call_addSetTable tableReg keyReg valueReg =>
      addSetTable tableReg keyReg valueReg self
  | call_addSetList tableReg startReg count tableIndex =>
      addSetList tableReg startReg count tableIndex self
  | call_addReturn startReg count => addReturn startReg count self
  | call_addCall funcReg argCount resultCount =>
      addCall funcReg argCount resultCount self
  | call_pushNil => pushNil self
  | call_pushBoolean value => pushBoolean value self
  | call_pushNumber value => pushNumber value self
  | call_pushString value => pushString value self
  | call_pushTable arraySize hashSize => pushTable arraySize hashSize self
  | call_pushArray values => pushArray values self
  | call_compile => snd (compile self)
  | call_clear => clear self
  end.

(** The object after a sequence of calls on a newly constructed one. *)
Definition after (calls : list call) : t :=
  fold_left (fun self c => run c self) calls create.

End Compiler.

(** ** Text helpers *)

Definition text (s : String.string) : list byte := String.list_byte_of_string s.

(** [a == b] on strings. *)
Fixpoint bytes_eqb (a b : list byte) : bool :=
  match a, b with
  | [], [] => true
  | x :: a', y :: b' => Byte.eqb x y && bytes_eqb a' b'
  | _, _ => false
  end.

(** [s.find(p) == 0]: [p] occurs at position 0. *)
Fixpoint starts_with (p s : list byte) : bool :=
  match p, s with
  | [], _ => true
  | _ :: _, [] => false
  | a :: p', b :: s' => Byte.eqb a b && starts_with p' s'
  end.

(** The characters a C function sees through [s.c_str()]: those before the
    first NUL. *)
Fixpoint c_string (s : list byte) : list byte :=
  match s with
  | [] => []
  | b :: s' => if Byte.eqb b x00 then [] else b :: c_string s'
  end.

(** The buffer behind [s.c_str()]: the characters and the terminator. *)
Definition c_str (s : list byte) : list byte := s ++ [x00].

(** [v[i] = x] on a vector. *)
Fixpoint assign {A} (i : nat) (x : A) (v : list A) : list A :=
  match v, i with
  | [], _ => []
  | _ :: v', O => x :: v'
  | y :: v', S i' => y :: assign i' x v'
  end.

(** ** Builders that parse numbers *)

Section WithStrtod.

(** The C library's [strtod], which is not part of the repository.
    [strtod s] is given the characters of the NUL-terminated argument and
    returns the bit pattern of the converted [double] together with
    [end - nptr], the number of characters consumed (0 when no conversion
    is performed).  The end pointer never passes the terminator. *)
Variable strtod : list byte -> Z * nat.

(** [char* end; double num = strtod(val.c_str(), &end);
     if (end != val.c_str() && *end == '\0') ... num ...] *)
Definition parse_number (val : list byte) : option Z :=
  let '(num, consumed) := strtod (c_string val) in
  if negb (consumed =? 0)%nat && Byte.eqb (nth consumed (c_str val) x00) x00
  then Some num else None.

(** The locals of [CreatePushMultiple] written by its first loop. *)
Record classified := {
  isNumber : list bool;
  isBool : list bool;
  numbers : list Z;
  booleans : list bool;
  strings : list (list byte)
}.

Definition classify_step (values : list (list byte)) (st : classified) (i : nat)
  : classified :=
  let val := nth i values [] in
  if bytes_eqb val (text "true"%string) then
    {| isNumber := isNumber st; isBool := assign i true (isBool st);
       numbers := numbers st; booleans := booleans st ++ [true];
       strings := strings st |}
  else if bytes_eqb val (text "false"%string) then
    {| isNumber := isNumber st; isBool := assign i true (isBool st);
       numbers := numbers st; booleans := booleans st ++ [false];
       strings := strings st |}
  else
    match parse_number val with
    | Some num =>
        {| isNumber := assign i true (isNumber st); isBool := isBool st;
           numbers := numbers st ++ [num]; booleans := booleans st;
           strings := strings st |}
    | None =>
        {| isNumber := isNumber st; isBool := isBool st;
           numbers := numbers st; booleans := booleans st;
           strings := strings st ++ [val] |}
    end.

Definition classify (values : list (list byte)) : classified :=
  fold_left (classify_step values) (List.seq 0 (List.length values))
    {| isNumber := repeat false (List.length values);
       isBool := repeat false (List.length values);
       numbers := []; booleans := []; strings := [] |}.

(** The counters of the instruction loop and the vector it appends to. *)
Record load_state := {
  numIdx : Z;
  boolIdx : Z;
  strIdx : Z;
  code_out : list byte
}.

Definition load_step (c : classified) (st : load_state) (i : nat) : load_state :=
  if nth i (isBool c) false then
    {| numIdx := numIdx st; boolIdx := boolIdx st + 1; strIdx := strIdx st;
       code_out :=
         (push_back (u8 (encodeOpcode LOP_LOADB))
          ;; push_back (u8 (Z.of_nat i))
          ;; push_back (u8 (if nth (Z.to_nat (boolIdx st)) (booleans c) false
                            then 0x01 else 0x00))
          ;; push_back (u8 0x00)) (code_out st) |}
  else if nth i (isNumber c) false then
    {| numIdx := numIdx st + 1; boolIdx := boolIdx st; strIdx := strIdx st;
       code_out :=
         (push_back (u8 (encodeOpcode LOP_LOADN))
          ;; push_back (u8 (Z.of_nat i))
          ;; push_back (u8 (numIdx st))) (code_out st) |}
  else
    {| numIdx := numIdx st; boolIdx := boolIdx st; strIdx := strIdx st + 1;
       code_out :=
         (push_back (u8 (encodeOpcode LOP_LOADK))
          ;; push_back (u8 (Z.of_nat i))
          ;; push_back (u8 (size (numbers c) + size (booleans c) + strIdx st)))
           (code_out st) |}.

(** The "Generate load instructions" loop as a statement. *)
Definition load_instructions (c : classified) (n : nat) : stmt :=
  fun out =>
    code_out (fold_left (load_step c) (List.seq 0 n)
                {| numIdx := 0; boolIdx := 0; strIdx := 0; code_out := out |}).

Definition CreatePushMultiple (values : list (list byte)) : list byte :=
  match values with
  | [] => CreatePushNil
  | _ :: _ =>
    let header := initial_header in
    let c := classify values in
    let totalConstants :=
      u32 (size (numbers c) + size (booleans c) + size (strings c)) in
    let bytecode :=
      (insert_end (header_bytes header)
       ;; writeVarInt totalConstants
       ;; for_each (fun num =>
                      push_back (u8 LBC_CONSTANT_NUMBER) ;; write_double num)
            (numbers c)
       ;; for_each (fun b : bool =>
                      push_back (u8 LBC_CONSTANT_BOOLEAN)
                      ;; push_back (u8 (if b then 0x01 else 0x00)))
            (booleans c)
       ;; for_each (fun str =>
                      push_back (u8 LBC_CONSTANT_STRING)
                      ;; writeVarInt (size str)
                      ;; insert_end str)
            (strings c)
       ;; writeVarInt 1
       ;; writeVarInt (size values)           (* maxstacksize *)
       ;; writeVarInt 0
       ;; writeVarInt 0
       ;; writeVarInt 0
       ;; writeVarInt (size values)           (* instructions *)
       ;; load_instructions c (List.length values)
       ;; writeVarInt totalConstants          (* sizeK *)
       ;; writeVarInt 0
       ;; debug_tail) [] in
    update_header header bytecode
  end.

(** ** Public API wrapper *)

Definition Compile (source : list byte) : list byte :=
  if starts_with (text "return "%string) source then
    let value := skipn 7 source in
    if bytes_eqb value (text "nil"%string) then CreatePushNil
    else if bytes_eqb value (text "true"%string) then CreatePushBoolean true
    else if bytes_eqb value (text "false"%string) then CreatePushBoolean false
    else
      match parse_number value with
      | Some num => CreatePushNumber num
      | None =>
          if (2 <=? size value)
             && Byte.eqb (nth 0 value x00) x22
             && Byte.eqb (last value x00) x22
          then CreatePushString (substr value 1 (List.length value - 2))
          else CreatePushNil
      end
  else CreatePushNil.

(** One call of the high-level builder API. *)
Inductive BuilderCall : Type :=
| PushNil
| PushBoolean (value : bool)
| PushNumber (value : Z)
| PushString (value : list byte)
| PushTable (arraySize hashSize : Z)
| PushArray (values : list (list byte))
| PushMultiple (values : list (list byte)).

Definition build (c : BuilderCall) : list byte :=
  match c with
  | PushNil => CreatePushNil
  | PushBoolean value => CreatePushBoolean value
  | PushNumber value => CreatePushNumber value
  | PushString value => CreatePushString value
  | PushTable arraySize hashSize => CreatePushTable arraySize hashSize
  | PushArray values => CreatePushArray values
  | PushMultiple values => CreatePushMultiple values
  end.

End WithStrtod.

(** ** Reading a module back

    The repository only writes modules.  To state facts about the fields of
    an encoded module (the constant pool, the proto's [maxstacksize], the
    operands of its instructions) the buffer is read back field by field, in
    the order and with the widths the builders above write them. *)

Inductive Constant : Type :=
| KNil
| KBoolean (b : bool)
| KNumber (bits : Z)
| KString (s : list byte).

(** A decoded instruction: the logical opcode and the operand bytes. *)
Record Instr := { opcode : Z; operands : list byte }.

Record Proto := {
  maxstacksize : Z;
  numparams : Z;
  numupvalues : Z;
  is_vararg : Z;
  code : list Instr;
  sizeK : Z;
  sizeP : Z;
  linedefined : Z;
  debugname : Z;
  lineinfo : byte;
  debuginfo : byte
}.

(** What follows the header. *)
Record Module := {
  constantCount : Z;
  constants : list Constant;
  functionCount : Z;
  protos : list Proto
}.

Definition reader (A : Type) : Type := list byte -> option (A * list byte).

Definition ret {A} (a : A) : reader A := fun bs => Some (a, bs).

Definition bind {A B} (r : reader A) (k : A -> reader B) : reader B :=
  fun bs => match r bs with
            | Some (a, rest) => k a rest
            | None => None
            end.

Notation "'let*' x ':=' r 'in' k" := (bind r (fun x => k))
  (at level 10, x name, r at level 100, k at level 200).

Definition read_byte : reader byte :=
  fun bs => match bs with
            | b :: rest => Some (b, rest)
            | [] => None
            end.

Definition read_bytes (n : nat) : reader (list byte) :=
  fun bs => if (length bs <? n)%nat then None
            else Some (firstn n bs, skipn n bs).

(** The inverse of [writeVarInt]: seven value bits per byte, least
    significant group first, bit 7 set on every byte but the last. *)
Fixpoint read_varint_loop (fuel : nat) : reader Z :=
  fun bs =>
    match fuel, bs with
    | S fuel', b :: rest =>
        let v := byte.unsigned b in
        if v <? 0x80 then Some (v, rest)
        else match read_varint_loop fuel' rest with
             | Some (hi, rest') => Some (Z.land v 0x7F + 128 * hi, rest')
             | None => None
             end
    | _, _ => None
    end.

Definition read_varint : reader Z := read_varint_loop 5.

(** Runs a reader [n] times. *)
Fixpoint read_list {A} (r : reader A) (n : nat) : reader (list A) :=
  match n with
  | O => ret []
  | S n' => let* x := r in let* xs := read_list r n' in ret (x :: xs)
  end.

Definition read_constant : reader Constant :=
  let* tag := read_byte in
  match byte.unsigned tag with
  | 0 => ret KNil
  | 1 => let* b := read_byte in
         match byte.unsigned b with
         | 0 => ret (KBoolean false)
         | 1 => ret (KBoolean true)
         | _ => fun _ => None
         end
  | 2 => let* raw := read_bytes 8 in ret (KNumber (le_combine raw))
  | 3 => let* len := read_varint in let* s := read_bytes (Z.to_nat len) in ret (KString s)
  | _ => fun _ => None
  end.

(** The inverse of [encodeOpcode]: 203 is the inverse of 227 modulo 256. *)
Definition decodeOpcode (b : Z) : Z := Z.land (b * 203) 0xFF.

(** Operand bytes that follow the opcode byte, as the builders and the
    [Compiler::add*] emitters write them. *)
Definition operand_count (op : Z) : option nat :=
  if op =? LOP_LOADNIL then Some 1%nat
  else if op =? LOP_LOADB then Some 3%nat
  else if op =? LOP_LOADN then Some 2%nat
  else if op =? LOP_LOADK then Some 2%nat
  else if op =? LOP_MOVE then Some 2%nat
  else if op =? LOP_SETTABLE then Some 3%nat
  else if op =? LOP_CALL then Some 3%nat
  else if op =? LOP_RETURN then Some 2%nat
  else if op =? LOP_NEWTABLE then Some 3%nat
  else if op =? LOP_SETLIST then Some 3%nat
  else None.

Definition read_instr : reader Instr :=
  let* b := read_byte in
  let op := decodeOpcode (byte.unsigned b) in
  match operand_count op with
  | Some n => let* ops := read_bytes n in ret {| opcode := op; operands := ops |}
  | None => fun _ => None
  end.

Definition read_proto : reader Proto :=
  let* mss := read_varint in
  let* np := read_varint in
  let* nu := read_varint in
  let* va := read_varint in
  let* n := read_varint in
  let* ins := read_list read_instr (Z.to_nat n) in
  let* sk := read_varint in
  let* sp := read_varint in
  let* ld := read_varint in
  let* dn := read_varint in
  let* li := read_byte in
  let* di := read_byte in
  ret {| maxstacksize := mss; numparams := np; numupvalues := nu;
         is_vararg := va; code := ins; sizeK := sk; sizeP := sp;
         linedefined := ld; debugname := dn; lineinfo := li; debuginfo := di |}.

Definition read_payload : reader Module :=
  let* nk := read_varint in
  let* ks := read_list read_constant (Z.to_nat nk) in
  let* nf := read_varint in
  let* ps := read_list read_proto (Z.to_nat nf) in
  ret {| constantCount := nk; constants := ks;
         functionCount := nf; protos := ps |}.

(** Reads a whole buffer: the header, the payload, and nothing after it. *)
Definition read_module (buffer : list byte) : option (LuauBytecodeHeader * Module) :=
  if size buffer <? sizeof_header then None
  else match read_payload (skipn 12 buffer) with
       | Some (m, []) => Some (header_of_bytes buffer, m)
       | _ => None
       end.

(** The register operands of an instruction, as the source labels them. *)
Definition registers (i : Instr) : list Z :=
  let r k := byte.unsigned (nth k (operands i) x00) in
  if opcode i =? LOP_MOVE then [r 0%nat; r 1%nat]
  else if opcode i =? LOP_SETTABLE then [r 0%nat; r 1%nat; r 2%nat]
  else [r 0%nat].

(** The constant-pool index an instruction refers to, if it has one. *)
Definition constant_ref (i : Instr) : option Z :=
  if (opcode i =? LOP_LOADN) || (opcode i =? LOP_LOADK)
  then Some (byte.unsigned (nth 1 (operands i) x00))
  else None.

(** The highest register index used in an instruction list, plus one
    (0 when no register is used). *)
Definition registers_needed (ins : list Instr) : Z :=
  fold_right Z.max 0 (map (fun r => r + 1) (flat_map registers ins)).

Definition is_boolean_constant (k : Constant) : bool :=
  match k with KBoolean _ => true | _ => false end.

(** ** A reference [strtod] for decimal literals

    The builders are parametric in [strtod].  To run them, this instance
    implements the decimal form of the C grammar in the "C" locale: optional
    white space, an optional sign, digits with an optional radix point, and an
    optional exponent part; the value is rounded to the nearest [double], ties
    to even.  Hexadecimal literals, [inf] and [nan] are not converted by
    this instance. *)

(** The bit pattern of the [double] nearest to [num / den], for [0 <= num]
    and [0 < den]; [neg] sets the sign bit. *)
Definition round_to_double (neg : bool) (num den : Z) : Z :=
  let sign := if neg then 2 ^ 63 else 0 in
  if num =? 0 then sign
  else
    (* e with 2^52 <= num / den / 2^e < 2^53, not below the subnormal exponent *)
    let scaled e := if 0 <=? e then num / (den * 2 ^ e) else num * 2 ^ (- e) / den in
    let e0 := Z.log2 num - Z.log2 den - 52 in
    let e1 := if scaled e0 <? 2 ^ 52 then e0 - 1
              else if 2 ^ 53 <=? scaled e0 then e0 + 1 else e0 in
    let e := Z.max e1 (-1074) in
    let n' := if 0 <=? e then num else num * 2 ^ (- e) in
    let d' := if 0 <=? e then den * 2 ^ e else den in
    let q := n' / d' in
    let r := n' mod d' in
    let q' := if (d' <? 2 * r) || ((d' =? 2 * r) && Z.odd q) then q + 1 else q in
    let m := (e + 1074) * 2 ^ 52 + q' in
    if 2047 * 2 ^ 52 <=? m then sign + 2047 * 2 ^ 52 else sign + m.

Definition is_space (b : byte) : bool :=
  let v := byte.unsigned b in (v =? 32) || ((9 <=? v) && (v <=? 13)).

Definition digit_of (b : byte) : option Z :=
  let v := byte.unsigned b in
  if (48 <=? v) && (v <=? 57) then Some (v - 48) else None.

Fixpoint skip_spaces (s : list byte) : nat * list byte :=
  match s with
  | b :: s' => if is_space b
               then let '(n, r) := skip_spaces s' in (S n, r)
               else (O, s)
  | [] => (O, [])
  end.

(** Reads a run of digits: (value with [acc] as the digits already read,
    number of digits, rest). *)
Fixpoint read_digits (acc : Z) (s : list byte) : Z * nat * list byte :=
  match s with
  | b :: s' =>
      match digit_of b with
      | Some d => let '(v, n, r) := read_digits (10 * acc + d) s' in (v, S n, r)
      | None => (acc, O, s)
      end
  | [] => (acc, O, [])
  end.

Definition read_sign (s : list byte) : bool * nat * list byte :=
  match s with
  | b :: s' =>
      if Byte.eqb b "-"%byte then (true, 1%nat, s')
      else if Byte.eqb b "+"%byte then (false, 1%nat, s')
      else (false, O, s)
  | [] => (false, O, [])
  end.

(** The exponent part [e[sign]digits]: (exponent, characters consumed);
    nothing is consumed when no digit follows. *)
Definition read_exponent (s : list byte) : Z * nat :=
  match s with
  | b :: s' =>
      if Byte.eqb b "e"%byte || Byte.eqb b "E"%byte then
        let '(neg, ns, s1) := read_sign s' in
        let '(v, nd, _) := read_digits 0 s1 in
        if (nd =? 0)%nat then (0, O)
        else (if neg then - v else v, (1 + ns + nd)%nat)
      else (0, O)
  | [] => (0, O)
  end.

Definition strtod_decimal (s : list byte) : Z * nat :=
  let '(nsp, s0) := skip_spaces s in
  let '(neg, nsg, s1) := read_sign s0 in
  let '(ip, ni, s2) := read_digits 0 s1 in
  let '(mant, nf, ndot, s3) :=
    match s2 with
    | b :: s2' =>
        if Byte.eqb b "."%byte
        then let '(v, n, r) := read_digits ip s2' in (v, n, 1%nat, r)
        else (ip, O, O, s2)
    | [] => (ip, O, O, s2)
    end in
  if ((ni + nf)%nat =? 0)%nat then (0, O)
  else
    let '(ex, ne) := read_exponent s3 in
    let p := ex - Z.of_nat nf in
    let bits := if 0 <=? p then round_to_double neg (mant * 10 ^ p) 1
                else round_to_double neg mant (10 ^ (- p)) in
    (bits, (nsp + nsg + ni + ndot + nf + ne)%nat).

(** ** The layout, written from a decoded module

    The counterpart of the reader: the bytes of a constant, an instruction, a
    proto and a payload in the layout the builders use.  The builders are
    proved to produce exactly these bytes (see the [*_serialises] lemmas). *)

(** The bytes of one varint. *)
Definition varint (value : Z) : list byte := writeVarInt value [].

Definition constant_bytes (k : Constant) : list byte :=
  match k with
  | KNil => [u8 LBC_CONSTANT_NIL]
  | KBoolean b => [u8 LBC_CONSTANT_BOOLEAN; u8 (if b then 0x01 else 0x00)]
  | KNumber bits => u8 LBC_CONSTANT_NUMBER :: le_split 8 bits
  | KString s => u8 LBC_CONSTANT_STRING :: varint (size s) ++ s
  end.

Definition instr_bytes (i : Instr) : list byte :=
  u8 (encodeOpcode (opcode i)) :: operands i.

Definition proto_bytes (p : Proto) : list byte :=
  varint (maxstacksize p) ++ varint (numparams p) ++ varint (numupvalues p)
  ++ varint (is_vararg p) ++ varint (size (code p))
  ++ flat_map instr_bytes (code p)
  ++ varint (sizeK p) ++ varint (sizeP p)
  ++ varint (linedefined p) ++ varint (debugname p)
  ++ [lineinfo p; debuginfo p].

Definition payload_bytes (m : Module) : list byte :=
  varint (constantCount m) ++ flat_map constant_bytes (constants m)
  ++ varint (functionCount m) ++ flat_map proto_bytes (protos m).

Definition is_u32 (z : Z) : Prop := 0 <= z < 2 ^ 32.

Definition constant_ok (k : Constant) : Prop :=
  match k with
  | KNumber bits => 0 <= bits < 2 ^ 64
  | KString s => size s < 2 ^ 32
  | _ => True
  end.

Definition instr_ok (i : Instr) : Prop :=
  0 <= opcode i < 256 /\ operand_count (opcode i) = Some (length (operands i)).

Definition proto_ok (p : Proto) : Prop :=
  is_u32 (maxstacksize p) /\ is_u32 (numparams p) /\ is_u32 (numupvalues p)
  /\ is_u32 (is_vararg p) /\ size (code p) < 2 ^ 32 /\ Forall instr_ok (code p)
  /\ is_u32 (sizeK p) /\ is_u32 (sizeP p)
  /\ is_u32 (linedefined p) /\ is_u32 (debugname p).

(** A module the layout can carry: counts that match and fit 32 bits,
    constants and instructions of the kinds the builders emit. *)
Definition module_ok (m : Module) : Prop :=
  constantCount m = size (constants m) /\ size (constants m) < 2 ^ 32
  /\ Forall constant_ok (constants m)
  /\ functionCount m = size (protos m) /\ size (protos m) < 2 ^ 32
  /\ Forall proto_ok (protos m).

(** The proto every builder writes, up to its stack size, upvalue count,
    instructions and constant count. *)
Definition builder_proto (mss nups : Z) (ins : list Instr) (nk : Z) : Proto :=
  {| maxstacksize := mss; numparams := 0; numupvalues := nups; is_vararg := 0;
     code := ins; sizeK := nk; sizeP := 0; linedefined := 0; debugname := 0;
     lineinfo := x00; debuginfo := x00 |}.

Definition builder_module (ks : list Constant) (p : Proto) : Module :=
  {| constantCount := size ks; constants := ks;
     functionCount := 1; protos := [p] |}.

(** The header the "Update header" block writes over a payload. *)
Definition patched_header (payload : list byte) : LuauBytecodeHeader :=
  {| version := 0x02; flags := 0x00; typesize := 0x08; numbersize := 0x08;
     hash := hashBytecode (firstn (Z.to_nat (u32 (size payload))) payload);
     hsize := u32 (size payload) |}.

(** The header and payload of a module, as one buffer. *)
Definition module_buffer (m : Module) : list byte :=
  header_bytes (patched_header (payload_bytes m)) ++ payload_bytes m.

Definition instr (op : Z) (ops : list byte) : Instr :=
  {| opcode := op; operands := ops |}.

(** The module each builder encodes. *)
Definition nil_module : Module :=
  builder_module [] (builder_proto 0 1 [instr LOP_LOADNIL [u8 0]] 0).

Definition boolean_module (value : bool) : Module :=
  builder_module []
    (builder_proto 1 0
       [instr LOP_LOADB [u8 0; u8 (if value then 0x01 else 0x00); u8 0]] 0).

Definition number_module (value : Z) : Module :=
  builder_module [KNumber (value mod 2 ^ 64)]
    (builder_proto 1 0 [instr LOP_LOADN [u8 0; u8 0]] 1).

Definition string_module (value : list byte) : Module :=
  builder_module [KString value]
    (builder_proto 1 0 [instr LOP_LOADK [u8 0; u8 0]] 1).

Definition table_module (arraySize hashSize : Z) : Module :=
  builder_module []
    (builder_proto 1 0
       [instr LOP_NEWTABLE [u8 0; u8 (Z.land arraySize 0xFF);
                            u8 (Z.land hashSize 0xFF)]] 0).

Definition array_module (values : list (list byte)) : Module :=
  match values with
  | [] => table_module 0 0
  | _ :: _ =>
    builder_module (map KString values)
      (builder_proto (1 + size values) 0
         (instr LOP_NEWTABLE [u8 0; u8 (size values); u8 0]
          :: map (fun i => instr LOP_LOADK [u8 (i + 1); u8 i])
               (map Z.of_nat (List.seq 0 (length values)))
          ++ [instr LOP_SETLIST [u8 0; u8 (size values); u8 0]])
         (size values))
  end.

(** How [CreatePushMultiple] classifies one element. *)
Inductive kind : Type :=
| IsBoolean (b : bool)
| IsNumber (num : Z)
| IsString.

Section MultipleLayout.

Variable strtod : list byte -> Z * nat.

(** The if-chain of the classification loop, for one element. *)
Definition kind_of (val : list byte) : kind :=
  if bytes_eqb val (text "true"%string) then IsBoolean true
  else if bytes_eqb val (text "false"%string) then IsBoolean false
  else match parse_number strtod val with
       | Some num => IsNumber num
       | None => IsString
       end.

Definition is_boolean_kind (k : kind) : bool :=
  match k with IsBoolean _ => true | _ => false end.

Definition is_number_kind (k : kind) : bool :=
  match k with IsNumber _ => true | _ => false end.

Definition is_string_kind (k : kind) : bool :=
  match k with IsString => true | _ => false end.

(** The numeric, boolean and string elements of a list, in order. *)
Definition number_values (values : list (list byte)) : list Z :=
  flat_map (fun v => match kind_of v with IsNumber n => [n] | _ => [] end) values.

Definition boolean_values (values : list (list byte)) : list bool :=
  flat_map (fun v => match kind_of v with IsBoolean b => [b] | _ => [] end) values.

Definition string_values (values : list (list byte)) : list (list byte) :=
  flat_map (fun v => match kind_of v with IsString => [v] | _ => [] end) values.

(** The locals of the classification loop after [k] rounds. *)
Definition classified_prefix (values : list (list byte)) (k : nat) : classified :=
  {| isNumber := map (fun v => is_number_kind (kind_of v)) (firstn k values)
                 ++ repeat false (length values - k);
     isBool := map (fun v => is_boolean_kind (kind_of v)) (firstn k values)
               ++ repeat false (length values - k);
     numbers := number_values (firstn k values);
     booleans := boolean_values (firstn k values);
     strings := string_values (firstn k values) |}.

(** The load instruction of the element at index [i], given the pool
    offset [base] of the strings and the numbers [a] and strings [s] seen
    before it. *)
Definition load_instr (base : Z) (val : list byte) (i a s : Z) : Instr :=
  match kind_of val with
  | IsBoolean b => instr LOP_LOADB [u8 i; u8 (if b then 0x01 else 0x00); u8 0]
  | IsNumber _ => instr LOP_LOADN [u8 i; u8 a]
  | IsString => instr LOP_LOADK [u8 i; u8 (base + s)]
  end.

Fixpoint multiple_code (base : Z) (vals : list (list byte)) (i a s : Z)
  : list Instr :=
  match vals with
  | [] => []
  | val :: vals' =>
      load_instr base val i a s
      :: match kind_of val with
         | IsBoolean _ => multiple_code base vals' (i + 1) a s
         | IsNumber _ => multiple_code base vals' (i + 1) (a + 1) s
         | IsString => multiple_code base vals' (i + 1) a (s + 1)
         end
  end.

Definition multiple_constants (values : list (list byte)) : list Constant :=
  map (fun n => KNumber (n mod 2 ^ 64)) (number_values values)
  ++ map KBoolean (boolean_values values)
  ++ map KString (string_values values).

Definition multiple_module (values : list (list byte)) : Module :=
  match values with
  | [] => nil_module
  | _ :: _ =>
    builder_module (multiple_constants values)
      (builder_proto (size values) 0
         (multiple_code
            (size (number_values values) + size (boolean_values values))
            values 0 0 0)
         (size (multiple_constants values)))
  end.

(** The module a builder call encodes. *)
Definition module_of (c : BuilderCall) : Module :=
  match c with
  | PushNil => nil_module
  | PushBoolean value => boolean_module value
  | PushNumber value => number_module value
  | PushString value => string_module value
  | PushTable arraySize hashSize => table_module arraySize hashSize
  | PushArray values => array_module values
  | PushMultiple values => multiple_module values
  end.

End MultipleLayout.

(** The inputs of a call fit the 32-bit counts and lengths of the layout. *)
Definition call_fits (c : BuilderCall) : Prop :=
  match c with
  | PushString value => size value < 2 ^ 32
  | PushArray values =>
      size values + 2 < 2 ^ 32 /\ Forall (fun v => size v < 2 ^ 32) values
  | PushMultiple values =>
      size values < 2 ^ 32 /\ Forall (fun v => size v < 2 ^ 32) values
  | _ => True
  end.

(** The buffers the encoder hands out: the results of the builders, of
    [Compile], of the two vector fallbacks and of [Compiler::compile].
    ([Compiler::getBytecode] only exposes the member vector the instruction
    emitters are still appending to, with its placeholder header; it is the
    working state of the object, not a finished module.) *)
Inductive produced (strtod : list byte -> Z * nat) : list byte -> Prop :=
| produced_build (c : BuilderCall) : produced strtod (build strtod c)
| produced_Compile (source : list byte) : produced strtod (Compile strtod source)
| produced_Vector2 (x y : Z) : produced strtod (CreatePushVector2 x y)
| produced_Vector3 (x y z : Z) : produced strtod (CreatePushVector3 x y z)
| produced_compile (self : Compiler.t) : produced strtod (fst (Compiler.compile self)).

(** [bits] is the pattern of a positive normal [double] that is nearest to
    [num / den].  With exponent field [E] and fraction field [M] the double is
    [(2^52 + M) * 2^(E - 1075)], and it is nearest when its distance to
    [num / den] is at most half a unit in the last place, [2^(E - 1075) / 2];
    both sides are scaled by [2 * den * 2^1075] to stay in the integers. *)
Definition nearest_normal_double (bits num den : Z) : Prop :=
  let E := bits / 2 ^ 52 in
  let M := bits mod 2 ^ 52 in
  0 < E < 2047
  /\ 2 * Z.abs ((2 ^ 52 + M) * 2 ^ E * den - num * 2 ^ 1075) <= 2 ^ E * den.

(** What C9 says of the buffer [CreatePushMultiple] returns for [values]. *)
Definition multiple_spec (strtod : list byte -> Z * nat)
           (values : list (list byte)) : Prop :=
  let base := size (number_values strtod values)
              + size (boolean_values strtod values) in
  exists m p,
    (* the buffer is the layout of a module [m] with one proto [p] *)
    CreatePushMultiple strtod values = module_buffer m
    (* which the reader returns when the strings fit their length prefix *)
    /\ (Forall (fun v => size v < 2 ^ 32) values ->
        read_module (CreatePushMultiple strtod values)
        = Some (header_of_bytes (CreatePushMultiple strtod values), m))
    /\ protos m = [p]
    (* the declared constant count is the number of elements *)
    /\ constantCount m = size values
    /\ size (constants m) = size values
    (* one Boolean-tagged entry per boolean element *)
    /\ filter is_boolean_constant (constants m)
       = map KBoolean (boolean_values strtod values)
    (* whose LOADB carries the value inline and refers to no constant *)
    /\ (forall j v b,
          nth_error values j = Some v -> kind_of strtod v = IsBoolean b ->
          exists ins,
            nth_error (code p) j = Some ins
            /\ opcode ins = LOP_LOADB
            /\ nth 1 (operands ins) x00 = u8 (if b then 0x01 else 0x00)
            /\ constant_ref ins = None)
    (* no instruction refers to a Boolean entry *)
    /\ (forall ins k,
          In ins (code p) -> constant_ref ins = Some k ->
          exists c, nth_error (constants m) (Z.to_nat k) = Some c
                    /\ is_boolean_constant c = false)
    (* a string element is loaded from index numbers + booleans + position *)
    /\ (forall j v,
          nth_error values j = Some v -> kind_of strtod v = IsString ->
          let k := base + size (string_values strtod (firstn j values)) in
          exists ins,
            nth_error (code p) j = Some ins
            /\ opcode ins = LOP_LOADK
            /\ constant_ref ins = Some k
            /\ nth_error (constants m) (Z.to_nat k) = Some (KString v)).

(** The inputs C6 lists as recognised by [Compile]: the text [return ]
    followed by [nil], [true], [false], a literal that [strtod] converts in
    full, or a double-quoted string. *)
Definition fully_parsed (strtod : list byte -> Z * nat) (lit : list byte) : Prop :=
  c_string lit = lit
  /\ snd (strtod lit) <> 0%nat /\ snd (strtod lit) = length lit.

Definition double_quoted (lit : list byte) : Prop :=
  exists body, lit = x22 :: body ++ [x22].

Definition return_literal (strtod : list byte -> Z * nat) (source : list byte)
  : Prop :=
  exists lit,
    source = text "return "%string ++ lit
    /\ (lit = text "nil"%string \/ lit = text "true"%string
        \/ lit = text "false"%string
        \/ fully_parsed strtod lit \/ double_quoted lit).

(** ** Notions used to state the properties *)

(** The buffer starts with the four characters of the magic. *)
Definition has_magic (buffer : list byte) : Prop :=
  firstn 4 buffer = text "RBX2"%string.

(** A statement only appends to the vector it runs on. *)
Definition appends (s : stmt) : Prop := forall out, s out = out ++ s [].

(** [r] reads [x] off the front of [enc] and leaves what follows. *)
Definition reads {A} (r : reader A) (enc : list byte) (x : A) : Prop :=
  forall rest, r (enc ++ rest) = Some (x, rest).

(** A string of 2^32 NUL characters: the shortest length that no longer fits
    a [uint32_t]. *)
Definition four_GiB_string : list byte := repeat x00 (Z.to_nat (2 ^ 32)).

(** ** [HexDump] *)

(** A [char] converted to [int]; [char] is signed on the targets of the
    repository.  [HexDump] masks the result with [0xFF], which makes the
    signedness immaterial (see [char_mask]). *)
Definition char_to_int (c : byte) : Z :=
  let v := byte.unsigned c in if v <? 128 then v else v - 256.

(** The lower-case digit that [std::hex] prints for [0 <= d < 16]. *)
Definition hex_digit (d : Z) : byte :=
  byte.of_Z (if d <? 10 then 48 + d else 87 + d).

(** [oss << std::hex << std::setw(2) << std::setfill('0') << v] for
    [0 <= v < 256]: two digits, the first one the fill character when
    [v < 16]. *)
Definition put_hex (v : Z) : stmt :=
  push_back (hex_digit (v / 16)) ;; push_back (hex_digit (v mod 16)).

(** The body of the loop of [HexDump], on the characters written so far. *)
Definition HexDump_step (data : list byte) (oss : list byte) (i : nat)
  : list byte :=
  let oss := (put_hex (Z.land (char_to_int (nth i data x00)) 0xFF)
              ;; insert_end (text " "%string)) oss in
  if (Z.of_nat i + 1) mod 16 =? 0 then insert_end [x0a] oss else oss.

Definition HexDump (data : list byte) (maxBytes : nat) : list byte :=
  let size := Nat.min (length data) maxBytes in
  let oss := fold_left (HexDump_step data) (List.seq 0 size) [] in
  if negb (Z.of_nat size mod 16 =? 0) then insert_end [x0a] oss else oss.

(** ** [BytecodeCache] *)

Module BytecodeCache.

(** A [std::unordered_map], as the list of its elements.  Keys are compared
    with the key type's [operator==]; no two elements have equal keys. *)
Section UnorderedMap.

Context {K V : Type}.
Variable key_eq : K -> K -> bool.

(** [m.find(k)]: the mapped value of the element whose key equals [k], or
    nothing for [m.end()]. *)
Fixpoint find (m : list (K * V)) (k : K) : option V :=
  match m with
  | [] => None
  | (k', v) :: m' => if key_eq k' k then Some v else find m' k
  end.

(** [m[k] = v]: the element with a key equal to [k] is assigned, or a new
    element is inserted. *)
Fixpoint assign (m : list (K * V)) (k : K) (v : V) : list (K * V) :=
  match m with
  | [] => [(k, v)]
  | (k', v') :: m' =>
      if key_eq k' k then (k', v) :: m' else (k', v') :: assign m' k v
  end.

End UnorderedMap.

(** The pattern of a NaN: exponent field all ones, fraction not zero. *)
Definition is_nan (bits : Z) : bool :=
  ((bits / 2 ^ 52) mod 2048 =? 2047) && negb (bits mod 2 ^ 52 =? 0).

(** The pattern of +0.0 or -0.0: all bits below the sign bit are zero. *)
Definition is_zero (bits : Z) : bool := bits mod 2 ^ 63 =? 0.

(** [a == b] on [double]s given by their patterns: a NaN equals nothing,
    the two zeros equal each other, any other value equals itself only.
    ([std::hash<double>] gives keys that compare equal the same hash, so the
    map finds an element by this comparison alone.) *)
Definition double_eq (a b : Z) : bool :=
  negb (is_nan a) && negb (is_nan b)
  && ((a =? b) || (is_zero a && is_zero b)).

(** [static_cast<double>(value)] for an [int]: exact, every [int] is a
    [double]. *)
Definition double_of_int (value : Z) : Z :=
  round_to_double (value <? 0) (Z.abs value) 1.

(** The data members. *)
Record t := {
  boolCache : list (bool * list byte);
  numberCache : list (Z * list byte);
  stringCache : list (list byte * list byte);
  integerCache : list (Z * list byte)
}.

Definition empty : t :=
  {| boolCache := []; numberCache := []; stringCache := [];
     integerCache := [] |}.

(** Each getter returns its result and the cache after the call. *)
Definition getBoolean (value : bool) (self : t) : list byte * t :=
  match find Bool.eqb (boolCache self) value with
  | Some second => (second, self)
  | None =>
      let bytecode := CreatePushBoolean value in
      (bytecode,
       {| boolCache := assign Bool.eqb (boolCache self) value bytecode;
          numberCache := numberCache self; stringCache := stringCache self;
          integerCache := integerCache self |})
  end.

Definition getNumber (value : Z) (self : t) : list byte * t :=
  match find double_eq (numberCache self) value with
  | Some second => (second, self)
  | None =>
      let bytecode := CreatePushNumber value in
      (bytecode,
       {| boolCache := boolCache self;
          numberCache := assign double_eq (numberCache self) value bytecode;
          stringCache := stringCache self;
          integerCache := integerCache self |})
  end.

Definition getString (value : list byte) (self : t) : list byte * t :=
  match find bytes_eqb (stringCache self) value with
  | Some second => (second, self)
  | None =>
      let bytecode := CreatePushString value in
      (bytecode,
       {| boolCache := boolCache self; numberCache := numberCache self;
          stringCache := assign bytes_eqb (stringCache self) value bytecode;
          integerCache := integerCache self |})
  end.

Definition getInteger (value : Z) (self : t) : list byte * t :=
  match find Z.eqb (integerCache self) value with
  | Some second => (second, self)
  | None =>
      let bytecode := CreatePushNumber (double_of_int value) in
      (bytecode,
       {| boolCache := boolCache self; numberCache := numberCache self;
          stringCache := stringCache self;
          integerCache := assign Z.eqb (integerCache self) value bytecode |})
  end.

Definition clear (self : t) : t := empty.

(** One call of a member function. *)
Inductive call : Type :=
| call_getBoolean (value : bool)
| call_getNumber (value : Z)
| call_getString (value : list byte)
| call_getInteger (value : Z)
| call_clear.

Definition run (c : call) (self : t) : t :=
  match c with
  | call_getBoolean value => snd (getBoolean value self)
  | call_getNumber value => snd (getNumber value self)
  | call_getString value => snd (getString value self)
  | call_getInteger value => snd (getInteger value self)
  | call_clear => clear self
  end.

(** The cache after a sequence of calls on a newly constructed one. *)
Definition after (calls : list call) : t :=
  fold_left (fun self c => run c self) calls empty.

End BytecodeCache.

(** ** The callers in [tsunami_push.hpp] and [tsunami_vm.hpp]

    [BytecodePusher] hands the buffers of the builders to the Luau loader
    of the host process and runs the loaded chunk.  The loader and the
    protected call are functions of the host, reached through pointers that
    [initializeFunctionPointers] sets to fixed non-null addresses; here they
    are parameters that return a status and the Lua state after the call. *)

Section BytecodePusher.

Variable lua_State : Type.

(** [luau_load(L, data, size, chunkname, env)] *)
Variable luau_load : lua_State -> list byte -> list byte -> Z -> Z * lua_State.

(** [pcall_impl(L, nargs, nresults, errfunc)] *)
Variable pcall_impl : lua_State -> Z -> Z -> Z -> Z * lua_State.

Variable strtod : list byte -> Z * nat.

(** "Load bytecode" and "Execute" of [executeBytecode]. *)
Definition load_and_call (L : lua_State) (decompressed chunkname : list byte)
  : bool * lua_State :=
  let '(status, L) := luau_load L decompressed chunkname 0 in
  if negb (status =? 0) then (false, L)
  else
    let '(status, L) := pcall_impl L 0 1 0 in
    (status =? 0, L).

Definition executeBytecode (L : lua_State) (bytecode chunkname : list byte)
  : outcome (bool * lua_State) :=
  match Decompress bytecode with
  | Throws_out_of_range => Throws_out_of_range
  | Returns decompressed =>
      let decompressed :=
        match decompressed with [] => bytecode | _ :: _ => decompressed end in
      Returns (load_and_call L decompressed chunkname)
  end.

(** The default argument [chunkname = "=tsunami"]. *)
Definition default_chunkname : list byte := text "=tsunami"%string.

Definition pushnil (L : lua_State) : outcome (bool * lua_State) :=
  let nilBytecode := CreatePushNil in
  executeBytecode L nilBytecode default_chunkname.

(** The cached pushes: the outcome, and the cache after the call. *)
Definition pushboolean (value : bool) (L : lua_State) (cache : BytecodeCache.t)
  : outcome (bool * lua_State) * BytecodeCache.t :=
  let '(bytecode, cache) := BytecodeCache.getBoolean value cache in
  (executeBytecode L bytecode default_chunkname, cache).

Definition pushnumber (value : Z) (L : lua_State) (cache : BytecodeCache.t)
  : outcome (bool * lua_State) * BytecodeCache.t :=
  let '(bytecode, cache) := BytecodeCache.getNumber value cache in
  (executeBytecode L bytecode default_chunkname, cache).

Definition pushinteger (value : Z) (L : lua_State) (cache : BytecodeCache.t)
  : outcome (bool * lua_State) * BytecodeCache.t :=
  let '(bytecode, cache) := BytecodeCache.getInteger value cache in
  (executeBytecode L bytecode default_chunkname, cache).

Definition pushstring (value : list byte) (L : lua_State)
           (cache : BytecodeCache.t)
  : outcome (bool * lua_State) * BytecodeCache.t :=
  let '(bytecode, cache) := BytecodeCache.getString value cache in
  (executeBytecode L bytecode default_chunkname, cache).

Definition pushtable (arraySize hashSize : Z) (L : lua_State)
  : outcome (bool * lua_State) :=
  executeBytecode L (CreatePushTable arraySize hashSize) default_chunkname.

Definition pusharray (values : list (list byte)) (L : lua_State)
  : outcome (bool * lua_State) :=
  executeBytecode L (CreatePushArray values) default_chunkname.

Definition pushmultiple (values : list (list byte)) (L : lua_State)
  : outcome (bool * lua_State) :=
  executeBytecode L (CreatePushMultiple strtod values) default_chunkname.

Definition pushvector2 (x y : Z) (L : lua_State) : outcome (bool * lua_State) :=
  executeBytecode L (CreatePushVector2 x y) default_chunkname.

Definition pushvector3 (x y z : Z) (L : lua_State) : outcome (bool * lua_State) :=
  executeBytecode L (CreatePushVector3 x y z) default_chunkname.

(** [pushCustom], and with the same body [BytecodeVM::executeSource]. *)
Definition pushCustom (luaCode : list byte) (L : lua_State)
  : outcome (bool * lua_State) :=
  let bytecode := Compile strtod luaCode in
  match bytecode with
  | [] => Returns (false, L)
  | _ :: _ => executeBytecode L bytecode default_chunkname
  end.

End BytecodePusher.

(** ** [PushEngine] and [VMState::pushVMValueToLua] *)

Inductive PushMode : Type := MODE_TVALUE | MODE_BYTECODE | MODE_AUTO.

(** [VMValue]: the type tag, the members of the union [value], and the
    string.  (The cached [tvalue] is not read by the functions below.) *)
Inductive VMType : Type :=
| NIL | BOOLEAN | NUMBER | STRING | FUNCTION | TABLE | USERDATA | LIGHTUSERDATA.

Record VMValue := {
  vm_type : VMType;
  vm_boolean : bool;
  vm_number : Z;
  vm_pointer : Z;
  vm_string : list byte
}.

Section PushEngine.

Variable lua_State : Type.
Variable luau_load : lua_State -> list byte -> list byte -> Z -> Z * lua_State.
Variable pcall_impl : lua_State -> Z -> Z -> Z -> Z * lua_State.

(** The direct writes of a [TValue] to the stack of the host's Lua state,
    and the test that guards them in automatic mode: reads and writes of the
    host's memory at fixed offsets, taken as parameters. *)
Variable checkTValueSafe : lua_State -> bool.
Variable pushnil_tvalue : lua_State -> lua_State.
Variable pushboolean_tvalue : bool -> lua_State -> lua_State.
Variable pushnumber_tvalue : Z -> lua_State -> lua_State.
Variable pushstring_tvalue : list byte -> lua_State -> lua_State.

(** [mode == MODE_TVALUE || (mode == MODE_AUTO && checkTValueSafe())] *)
Definition tvalue_path (mode : PushMode) (L : lua_State) : bool :=
  match mode with
  | MODE_TVALUE => true
  | MODE_AUTO => checkTValueSafe L
  | MODE_BYTECODE => false
  end.

(** The smart pushes: the outcome, and the cache of the [BytecodePusher]
    member after the call. *)
Definition engine_pushnil (mode : PushMode) (L : lua_State)
           (cache : BytecodeCache.t)
  : outcome (bool * lua_State) * BytecodeCache.t :=
  if tvalue_path mode L then (Returns (true, pushnil_tvalue L), cache)
  else (pushnil lua_State luau_load pcall_impl L, cache).

Definition engine_pushboolean (mode : PushMode) (value : bool) (L : lua_State)
           (cache : BytecodeCache.t)
  : outcome (bool * lua_State) * BytecodeCache.t :=
  if tvalue_path mode L then (Returns (true, pushboolean_tvalue value L), cache)
  else pushboolean lua_State luau_load pcall_impl value L cache.

Definition engine_pushnumber (mode : PushMode) (value : Z) (L : lua_State)
           (cache : BytecodeCache.t)
  : outcome (bool * lua_State) * BytecodeCache.t :=
  if tvalue_path mode L then (Returns (true, pushnumber_tvalue value L), cache)
  else pushnumber lua_State luau_load pcall_impl value L cache.

(** [PushEngine::pushinteger] converts and calls [pushnumber]; it does not
    use the integer map of the cache. *)
Definition engine_pushinteger (mode : PushMode) (value : Z) (L : lua_State)
           (cache : BytecodeCache.t)
  : outcome (bool * lua_State) * BytecodeCache.t :=
  engine_pushnumber mode (BytecodeCache.double_of_int value) L cache.

Definition engine_pushstring (mode : PushMode) (value : list byte)
           (L : lua_State) (cache : BytecodeCache.t)
  : outcome (bool * lua_State) * BytecodeCache.t :=
  if tvalue_path mode L then (Returns (true, pushstring_tvalue value L), cache)
  else pushstring lua_State luau_load pcall_impl value L cache.

(** [VMState::pushVMValueToLua]: the member [robloxPusher] is constructed in
    [MODE_BYTECODE] and its mode is never changed. *)
Definition pushVMValueToLua (value : VMValue) (L : lua_State)
           (cache : BytecodeCache.t)
  : outcome (bool * lua_State) * BytecodeCache.t :=
  match vm_type value with
  | NIL => engine_pushnil MODE_BYTECODE L cache
  | BOOLEAN => engine_pushboolean MODE_BYTECODE (vm_boolean value) L cache
  | NUMBER => engine_pushnumber MODE_BYTECODE (vm_number value) L cache
  | STRING => engine_pushstring MODE_BYTECODE (vm_string value) L cache
  | LIGHTUSERDATA =>
      (executeBytecode lua_State luau_load pcall_impl L
         (CreatePushString (text "lightuserdata"%string)) default_chunkname,
       cache)
  | _ => engine_pushnil MODE_BYTECODE L cache
  end.

End PushEngine.

(** ** Notions used to state the further properties *)

(** Every element of the cache maps its key to the buffer of the builder. *)
Definition cache_ok (c : BytecodeCache.t) : Prop :=
  (forall k v, In (k, v) (BytecodeCache.boolCache c) -> v = CreatePushBoolean k)
  /\ (forall k v, In (k, v) (BytecodeCache.numberCache c) -> v = CreatePushNumber k)
  /\ (forall k v, In (k, v) (BytecodeCache.stringCache c) -> v = CreatePushString k)
  /\ (forall k v, In (k, v) (BytecodeCache.integerCache c) ->
                  v = CreatePushNumber (BytecodeCache.double_of_int k)).

(** The text of a dump, entry by entry: [i] is the index of the first byte
    of [l] in the dumped string. *)
Fixpoint hex_rows (i : nat) (l : list byte) : list byte :=
  match l with
  | [] => []
  | b :: l' =>
      let v := byte.unsigned b in
      hex_digit (v / 16) :: hex_digit (v mod 16) :: " "%byte
      :: (if (Z.of_nat i + 1) mod 16 =? 0 then [x0a] else [])
      ++ hex_rows (S i) l'
  end.

(** Reading a dump back: line ends are skipped, and every entry (two digits
    and a blank) gives one byte. *)
Definition hex_value (c : byte) : Z :=
  let v := byte.unsigned c in if v <? 58 then v - 48 else v - 87.

Fixpoint read_dump (s : list byte) : list byte :=
  match s with
  | [] => []
  | c :: s' =>
      if Byte.eqb c x0a then read_dump s'
      else match s' with
           | d :: _ :: rest =>
               byte.of_Z (16 * hex_value c + hex_value d) :: read_dump rest
           | _ => []
           end
  end.

(** * Properties *)

(** ** Bytes and masks *)

Lemma land_0xFF (z : Z) : Z.land z 0xFF = z mod 256.
Proof. change 0xFF with (Z.ones 8). now rewrite Z.land_ones by lia. Qed.

Lemma unsigned_u8 (z : Z) : byte.unsigned (u8 z) = z mod 256.
Proof. unfold u8. now rewrite byte.unsigned_of_Z. Qed.

Lemma unsigned_u8_small (z : Z) : 0 <= z < 256 -> byte.unsigned (u8 z) = z.
Proof. intros H. rewrite unsigned_u8. now apply Z.mod_small. Qed.

Lemma size_app {A} (a b : list A) : size (a ++ b) = size a + size b.
Proof. unfold size. rewrite length_app. lia. Qed.

Lemma size_nonneg {A} (a : list A) : 0 <= size a.
Proof. unfold size. lia. Qed.

(** ** The opcode transform *)

Lemma encodeOpcode_mod (x : Z) : encodeOpcode x = (x * 227) mod 256.
Proof. apply land_0xFF. Qed.

Lemma decodeOpcode_mod (y : Z) : decodeOpcode y = (y * 203) mod 256.
Proof. apply land_0xFF. Qed.

Lemma decode_encodeOpcode (x : Z) : decodeOpcode (encodeOpcode x) = x mod 256.
Proof.
  rewrite decodeOpcode_mod, encodeOpcode_mod, Z.mul_mod_idemp_l by lia.
  replace (x * 227 * 203) with (x + x * 180 * 256) by lia.
  now rewrite Z.mod_add by lia.
Qed.

Lemma encode_decodeOpcode (y : Z) : encodeOpcode (decodeOpcode y) = y mod 256.
Proof.
  rewrite decodeOpcode_mod, encodeOpcode_mod, Z.mul_mod_idemp_l by lia.
  replace (y * 203 * 227) with (y + y * 180 * 256) by lia.
  now rewrite Z.mod_add by lia.
Qed.

(** C7. The opcode transform is [x * 227 mod 256]; on 0..255 it is injective,
    stays in 0..255, and is undone by multiplying with 203, the inverse of 227
    modulo 256, so it is a bijection of the byte domain. *)
Theorem encodeOpcode_bijection (x y : Z) :
  0 <= x < 256 -> 0 <= y < 256 ->
  encodeOpcode x = (x * 227) mod 256
  /\ 0 <= encodeOpcode x < 256
  /\ (x <> y -> encodeOpcode x <> encodeOpcode y)
  /\ (227 * 203) mod 256 = 1
  /\ decodeOpcode (encodeOpcode x) = x
  /\ encodeOpcode (decodeOpcode x) = x.
Proof.
  intros Hx Hy.
  assert (Hinv : forall a, 0 <= a < 256 -> decodeOpcode (encodeOpcode a) = a).
  { intros a Ha. rewrite decode_encodeOpcode. now apply Z.mod_small. }
  repeat split.
  - apply encodeOpcode_mod.
  - rewrite encodeOpcode_mod. apply Z.mod_pos_bound. lia.
  - rewrite encodeOpcode_mod. apply Z.mod_pos_bound. lia.
  - intros Hne Heq. apply Hne.
    rewrite <- (Hinv x Hx), <- (Hinv y Hy). now rewrite Heq.
  - now apply Hinv.
  - rewrite encode_decodeOpcode. now apply Z.mod_small.
Qed.

Lemma encodeOpcode_bijection_witness :
  encodeOpcode 45 = (45 * 227) mod 256
  /\ 0 <= encodeOpcode 45 < 256
  /\ (45 <> 47 -> encodeOpcode 45 <> encodeOpcode 47)
  /\ (227 * 203) mod 256 = 1
  /\ decodeOpcode (encodeOpcode 45) = 45
  /\ encodeOpcode (decodeOpcode 45) = 45.
Proof. apply (encodeOpcode_bijection 45 47); lia. Defined.

(** Every byte value is the image of exactly one opcode byte. *)
Lemma encodeOpcode_surjective (b : Z) :
  0 <= b < 256 -> exists x, 0 <= x < 256 /\ encodeOpcode x = b.
Proof.
  intros Hb. exists (decodeOpcode b). split.
  - rewrite decodeOpcode_mod. apply Z.mod_pos_bound. lia.
  - rewrite encode_decodeOpcode. now apply Z.mod_small.
Qed.

(** ** Size hints of [CreatePushTable] *)

Lemma land_0xFF_mod (z : Z) : Z.land (z mod 256) 0xFF = Z.land z 0xFF.
Proof. rewrite !land_0xFF. apply Z.mod_mod. lia. Qed.

Lemma land_0xFF_rem (z : Z) : Z.land (Z.rem z 256) 0xFF = Z.land z 0xFF.
Proof.
  rewrite !land_0xFF.
  rewrite (Z.quot_rem' z 256) at 2.
  rewrite Z.add_comm, Z.mul_comm, Z.mod_add by lia. reflexivity.
Qed.

(** ** [Decompress] *)

Lemma byte_eqb_eq (a b : byte) : Byte.eqb a b = true <-> a = b.
Proof. split; [apply Byte.byte_dec_bl | apply Byte.byte_dec_lb]. Qed.

Lemma byte_eqb_refl (a : byte) : Byte.eqb a a = true.
Proof. now apply byte_eqb_eq. Qed.

Lemma magic_test (buffer : list byte) :
  (4 <= length buffer)%nat ->
  (Byte.eqb (nth 0 buffer x00) "R"%byte
   && Byte.eqb (nth 1 buffer x00) "B"%byte
   && Byte.eqb (nth 2 buffer x00) "X"%byte
   && Byte.eqb (nth 3 buffer x00) "2"%byte = true) <-> has_magic buffer.
Proof.
  intros Hlen. unfold has_magic.
  destruct buffer as [|a [|b [|c [|d rest]]]]; simpl in Hlen; try lia.
  cbn [nth firstn]. rewrite !andb_true_iff, !byte_eqb_eq.
  split.
  - intros [[[-> ->] ->] ->]. reflexivity.
  - intros H. injection H as -> -> -> ->. auto.
Qed.

(** With the magic and at least sixteen bytes, the guard is passed and the
    result is that of [substr(sizeof(RobloxSignature))]. *)
Lemma Decompress_signed (buffer : list byte) :
  has_magic buffer -> (16 <= length buffer)%nat ->
  Decompress buffer = substr_from buffer sizeof_RobloxSignature.
Proof.
  intros Hm Hlen. unfold Decompress.
  apply magic_test in Hm; [|lia].
  rewrite <- !andb_assoc in *. rewrite Hm, andb_true_r.
  replace (16 <=? size buffer) with true
    by (symmetry; apply Z.leb_le; unfold size; lia).
  reflexivity.
Qed.

(** With the magic and at least twenty bytes, the first twenty are removed
    and the rest is returned as it is. *)
Lemma Decompress_strips (buffer : list byte) :
  has_magic buffer -> (20 <= length buffer)%nat ->
  Decompress buffer = Returns (skipn 20 buffer).
Proof.
  intros Hm Hlen. rewrite Decompress_signed by (assumption || lia).
  unfold substr_from, sizeof_RobloxSignature.
  replace (length buffer <? 20)%nat with false
    by (symmetry; apply Nat.ltb_ge; lia).
  reflexivity.
Qed.

(** Without the magic, or below sixteen bytes, the input is returned. *)
Lemma Decompress_identity (buffer : list byte) :
  ~ has_magic buffer \/ (length buffer < 16)%nat ->
  Decompress buffer = Returns buffer.
Proof.
  intros H. unfold Decompress.
  destruct (16 <=? size buffer) eqn:Hsz; [|reflexivity].
  apply Z.leb_le in Hsz. unfold size in Hsz.
  destruct H as [Hm|Hlen]; [|lia].
  rewrite <- !andb_assoc. cbn [andb].
  match goal with |- (if ?c then _ else _) = _ => destruct c eqn:Hc end;
    [|reflexivity].
  exfalso. apply Hm. apply magic_test; [lia|]. now rewrite <- !andb_assoc.
Qed.

(** C2. On a buffer of sixteen to nineteen bytes that starts with the magic,
    [Decompress] does not return: the length guard lets it through, and
    [substr(20)] is past the end and throws [std::out_of_range]. *)
Theorem Decompress_short_signed_throws (buffer : list byte) :
  has_magic buffer -> (16 <= length buffer < 20)%nat ->
  Decompress buffer = Throws_out_of_range.
Proof.
  intros Hm Hlen. rewrite Decompress_signed by (assumption || lia).
  unfold substr_from, sizeof_RobloxSignature.
  replace (length buffer <? 20)%nat with true
    by (symmetry; apply Nat.ltb_lt; lia).
  reflexivity.
Qed.

Lemma Decompress_short_signed_throws_witness :
  Decompress (text "RBX2"%string ++ repeat x00 12) = Throws_out_of_range.
Proof.
  apply Decompress_short_signed_throws.
  - reflexivity.
  - cbn. lia.
Defined.

(** ** Statements only append *)

Create HintDb appends.

Lemma appends_push_back (b : byte) : appends (push_back b).
Proof. now intros out. Qed.

Lemma appends_insert_end (bs : list byte) : appends (insert_end bs).
Proof. now intros out. Qed.

Lemma appends_seq (s1 s2 : stmt) :
  appends s1 -> appends s2 -> appends (s1 ;; s2).
Proof.
  intros H1 H2 out. unfold seq.
  rewrite (H2 (s1 out)), (H2 (s1 [])), (H1 out). symmetry. apply app_assoc.
Qed.

Lemma seq_nil (s1 s2 : stmt) : appends s2 -> (s1 ;; s2) [] = s1 [] ++ s2 [].
Proof. intros H2. unfold seq. apply H2. Qed.

Lemma writeVarInt_loop_appends (fuel : nat) (value : Z) :
  appends (writeVarInt_loop fuel value).
Proof.
  revert value. induction fuel as [|fuel IH]; intros value out; cbn [writeVarInt_loop].
  - now rewrite app_nil_r.
  - destruct (Z.shiftr value 7 =? 0); [reflexivity|].
    rewrite (IH _ (out ++ _)), (IH _ ([] ++ _)). now rewrite <- app_assoc.
Qed.

Lemma appends_writeVarInt (value : Z) : appends (writeVarInt value).
Proof. apply writeVarInt_loop_appends. Qed.

Lemma u8_mod (z : Z) : u8 (z mod 256) = u8 z.
Proof.
  apply byte.unsigned_inj. rewrite !unsigned_u8. apply Z.mod_mod. lia.
Qed.

(** The byte loop of [write_double] appends the little-endian bytes. *)
Lemma write_double_loop_bytes (n : nat) :
  forall bits out, write_double_loop n bits out = out ++ le_split n bits.
Proof.
  induction n as [|n IH]; intros bits out; cbn [write_double_loop le_split].
  - now rewrite app_nil_r.
  - rewrite IH, <- app_assoc, land_0xFF, u8_mod. reflexivity.
Qed.

Lemma write_double_nil (value : Z) : write_double value [] = le_split 8 value.
Proof. apply write_double_loop_bytes. Qed.

Lemma appends_write_double (bits : Z) : appends (write_double bits).
Proof.
  intros out. unfold write_double. now rewrite !write_double_loop_bytes.
Qed.

Lemma for_each_flat {A} (body : A -> stmt) (xs : list A) :
  (forall x, appends (body x)) ->
  forall out, for_each body xs out = out ++ flat_map (fun x => body x []) xs.
Proof.
  intros Hb. unfold for_each.
  induction xs as [|x xs IH]; intros out; cbn [fold_left flat_map].
  - now rewrite app_nil_r.
  - rewrite IH, (Hb x out). now rewrite <- app_assoc.
Qed.

Lemma appends_for_each {A} (body : A -> stmt) (xs : list A) :
  (forall x, appends (body x)) -> appends (for_each body xs).
Proof.
  intros Hb out. now rewrite (for_each_flat body xs Hb out), (for_each_flat body xs Hb []).
Qed.

Lemma appends_for_index (body : Z -> stmt) (n : nat) :
  (forall i, appends (body i)) -> appends (for_index body n).
Proof. intros Hb. now apply appends_for_each. Qed.

#[local] Hint Resolve appends_push_back appends_insert_end appends_seq
  appends_writeVarInt appends_write_double appends_for_each appends_for_index
  : appends.

Lemma appends_debug_tail : appends debug_tail.
Proof. unfold debug_tail. auto with appends. Qed.

#[local] Hint Resolve appends_debug_tail : appends.

Lemma debug_tail_bytes : debug_tail [] = [x00; x00; x00; x00].
Proof. reflexivity. Qed.

(** Splits a chain of statements run on the empty vector into the chunks
    each statement appends. *)
Ltac flatten_stmts :=
  rewrite ?seq_nil by auto 20 with appends;
  change (insert_end ?bs []) with bs;
  change (push_back ?b []) with [b];
  rewrite ?write_double_nil;
  change (writeVarInt ?v []) with (varint v);
  rewrite ?debug_tail_bytes;
  rewrite <- ?app_assoc.

(** ** Header patching and validation *)

Lemma header_bytes_length (h : LuauBytecodeHeader) : length (header_bytes h) = 12%nat.
Proof. reflexivity. Qed.

(** Reading back a written header gives its fields, each reduced to its width. *)
Lemma header_of_header_bytes (h : LuauBytecodeHeader) (payload : list byte) :
  header_of_bytes (header_bytes h ++ payload) =
    {| version := version h mod 256; flags := flags h mod 256;
       typesize := typesize h mod 256; numbersize := numbersize h mod 256;
       hash := hash h mod 2 ^ 32; hsize := hsize h mod 2 ^ 32 |}.
Proof.
  unfold header_of_bytes.
  change (firstn 4 (skipn 4 (header_bytes h ++ payload))) with (le_split 4 (hash h)).
  change (firstn 4 (skipn 8 (header_bytes h ++ payload))) with (le_split 4 (hsize h)).
  rewrite !le_combine_split.
  cbn [header_bytes app nth]. now rewrite !unsigned_u8.
Qed.

Lemma skipn_header (h : LuauBytecodeHeader) (payload : list byte) :
  skipn 12 (header_bytes h ++ payload) = payload.
Proof. reflexivity. Qed.

Lemma update_header_app (h : LuauBytecodeHeader) (payload : list byte) :
  update_header initial_header (header_bytes h ++ payload)
  = header_bytes (patched_header payload) ++ payload.
Proof.
  unfold update_header. rewrite skipn_header, size_app.
  replace (size (header_bytes h) + size payload - sizeof_header) with (size payload)
    by (unfold size; rewrite header_bytes_length; unfold sizeof_header; lia).
  reflexivity.
Qed.

Lemma hash_step_range (acc : Z) (b : byte) : 0 <= hash_step acc b < 2 ^ 32.
Proof. unfold hash_step, u32. apply Z.mod_pos_bound. lia. Qed.

Lemma hashBytecode_range (data : list byte) : 0 <= hashBytecode data < 2 ^ 32.
Proof.
  unfold hashBytecode.
  assert (H : forall acc, 0 <= acc < 2 ^ 32 -> 0 <= fold_left hash_step data acc < 2 ^ 32).
  { induction data as [|b data IH]; intros acc Hacc; cbn [fold_left]; [assumption|].
    apply IH, hash_step_range. }
  apply H. lia.
Qed.

Lemma firstn_size {A} (l : list A) : firstn (Z.to_nat (size l)) l = l.
Proof. unfold size. rewrite Nat2Z.id. apply firstn_all. Qed.

(** A patched buffer whose payload length fits the 32-bit size field passes
    validation. *)
Lemma ValidateBytecode_patched (payload : list byte) :
  size payload < 2 ^ 32 ->
  ValidateBytecode (header_bytes (patched_header payload) ++ payload) = true.
Proof.
  intros Hsz. pose proof (size_nonneg payload) as Hnn.
  unfold ValidateBytecode.
  rewrite header_of_header_bytes, skipn_header, size_app.
  replace (size (header_bytes (patched_header payload))) with 12 by reflexivity.
  unfold sizeof_header.
  replace (12 + size payload <? 12) with false by (symmetry; apply Z.ltb_ge; lia).
  cbn [version hsize hash patched_header].
  change (2 mod 256 =? 2) with true. cbn [negb].
  unfold u32. rewrite !(Z.mod_small (size payload)) by lia.
  replace (size payload =? 12 + size payload - 12) with true
    by (symmetry; apply Z.eqb_eq; lia).
  cbn [negb]. rewrite firstn_size.
  apply Z.eqb_eq, Z.mod_small, hashBytecode_range.
Qed.

(** ** Round trip of the varint codec *)

Lemma land_lor_0x80 (v : Z) : Z.lor (Z.land v 0x7F) 0x80 = Z.land v 0x7F + 0x80.
Proof.
  pose proof (Z.add_lor_land (Z.land v 0x7F) 0x80) as H.
  rewrite <- Z.land_assoc in H. change (Z.land 0x7F 0x80) with 0 in H.
  rewrite Z.land_0_r in H. lia.
Qed.

Lemma land_0x7F (v : Z) : Z.land v 0x7F = v mod 128.
Proof. change 0x7F with (Z.ones 7). now rewrite Z.land_ones by lia. Qed.

Lemma writeVarInt_loop_step (fuel : nat) (v : Z) :
  writeVarInt_loop (S fuel) v [] =
    if v / 128 =? 0 then [u8 (v mod 128)]
    else u8 (v mod 128 + 128) :: writeVarInt_loop fuel (v / 128) [].
Proof.
  cbn [writeVarInt_loop]. rewrite Z.shiftr_div_pow2 by lia. change (2 ^ 7) with 128.
  destruct (v / 128 =? 0).
  - now rewrite land_0x7F.
  - rewrite land_lor_0x80, land_0x7F.
    now rewrite (writeVarInt_loop_appends fuel _ ([] ++ _)).
Qed.

Lemma read_varint_loop_cons (fuel : nat) (b : byte) (rest : list byte) :
  read_varint_loop (S fuel) (b :: rest) =
    if byte.unsigned b <? 0x80 then Some (byte.unsigned b, rest)
    else match read_varint_loop fuel rest with
         | Some (hi, rest') => Some (Z.land (byte.unsigned b) 0x7F + 128 * hi, rest')
         | None => None
         end.
Proof. reflexivity. Qed.

Lemma read_varint_loop_write (fuel : nat) :
  forall v rest, 0 <= v < 2 ^ (7 * Z.of_nat (S fuel)) ->
    read_varint_loop (S fuel) (writeVarInt_loop (S fuel) v [] ++ rest) = Some (v, rest).
Proof.
  induction fuel as [|fuel IH]; intros v rest Hv; rewrite writeVarInt_loop_step.
  - change (2 ^ (7 * Z.of_nat 1)) with 128 in Hv.
    rewrite Z.div_small, Z.mod_small by lia. cbn [Z.eqb app].
    rewrite read_varint_loop_cons, unsigned_u8_small by lia.
    replace (v <? 128) with true by (symmetry; apply Z.ltb_lt; lia). reflexivity.
  - pose proof (Z.mod_pos_bound v 128 ltac:(lia)) as Hm.
    pose proof (Z.div_mod v 128 ltac:(lia)) as Hdm.
    destruct (v / 128 =? 0) eqn:Hq.
    + apply Z.eqb_eq in Hq. cbn [app].
      rewrite read_varint_loop_cons, unsigned_u8_small by lia.
      replace (v mod 128 <? 128) with true by (symmetry; apply Z.ltb_lt; lia).
      f_equal. f_equal. lia.
    + apply Z.eqb_neq in Hq.
      cbn [app]. rewrite read_varint_loop_cons, unsigned_u8_small by lia.
      replace (v mod 128 + 128 <? 128) with false by (symmetry; apply Z.ltb_ge; lia).
      rewrite IH.
      * rewrite land_0x7F.
        replace (v mod 128 + 128) with (v mod 128 + 1 * 128) by lia.
        rewrite Z.mod_add, Z.mod_mod by lia.
        f_equal. f_equal. lia.
      * split; [apply Z.div_pos; lia|].
        apply Z.div_lt_upper_bound; [lia|].
        replace (7 * Z.of_nat (S (S fuel))) with (7 + 7 * Z.of_nat (S fuel)) in Hv by lia.
        rewrite Z.pow_add_r in Hv by lia. exact (proj2 Hv).
Qed.

(** Reading a written varint gives the value back (as a [uint32_t]) and
    leaves what follows it. *)
Lemma read_varint_varint (v : Z) (rest : list byte) :
  read_varint (varint v ++ rest) = Some (u32 v, rest).
Proof.
  unfold read_varint, varint, writeVarInt. apply read_varint_loop_write.
  unfold u32. pose proof (Z.mod_pos_bound v (2 ^ 32) ltac:(lia)).
  change (2 ^ (7 * Z.of_nat 5)) with (2 ^ 35). lia.
Qed.

(** The loop of [writeVarInt] never runs out of fuel on a [uint32_t]: more
    fuel changes nothing. *)
Lemma writeVarInt_loop_fuel (extra : nat) :
  forall fuel v out, 0 <= v < 2 ^ (7 * Z.of_nat (S fuel)) ->
    writeVarInt_loop (S fuel + extra) v out = writeVarInt_loop (S fuel) v out.
Proof.
  induction fuel as [|fuel IH]; intros v out Hv.
  - change (2 ^ (7 * Z.of_nat 1)) with 128 in Hv.
    cbn [writeVarInt_loop Nat.add]. rewrite Z.shiftr_div_pow2 by lia.
    change (2 ^ 7) with 128. rewrite Z.div_small by lia. reflexivity.
  - change (S (S fuel) + extra)%nat with (S (S fuel + extra)).
    cbn [writeVarInt_loop]. fold (writeVarInt_loop (S fuel)).
    destruct (Z.shiftr v 7 =? 0); [reflexivity|].
    apply IH. rewrite Z.shiftr_div_pow2 by lia. change (2 ^ 7) with 128.
    split; [apply Z.div_pos; lia|].
    apply Z.div_lt_upper_bound; [lia|].
    replace (7 * Z.of_nat (S (S fuel))) with (7 + 7 * Z.of_nat (S fuel)) in Hv by lia.
    rewrite Z.pow_add_r in Hv by lia. exact (proj2 Hv).
Qed.

(** ** Round trip of the layout *)

Lemma bind_reads {A B} (r : reader A) (k : A -> reader B) enc x rest :
  reads r enc x -> bind r k (enc ++ rest) = k x rest.
Proof. intros H. unfold bind. now rewrite H. Qed.

Lemma reads_varint (v : Z) : is_u32 v -> reads read_varint (varint v) v.
Proof.
  intros Hv rest. rewrite read_varint_varint. unfold u32.
  now rewrite Z.mod_small by exact Hv.
Qed.

Lemma reads_byte (b : byte) : reads read_byte [b] b.
Proof. now intros rest. Qed.

Lemma reads_bytes (bs : list byte) : reads (read_bytes (length bs)) bs bs.
Proof.
  intros rest. unfold read_bytes.
  replace (length (bs ++ rest) <? length bs)%nat with false
    by (symmetry; apply Nat.ltb_ge; rewrite length_app; lia).
  rewrite firstn_app, Nat.sub_diag, firstn_all, firstn_O, app_nil_r.
  rewrite skipn_app, Nat.sub_diag, skipn_all. reflexivity.
Qed.

Lemma reads_list {A} (r : reader A) (enc : A -> list byte) (xs : list A) :
  Forall (fun x => reads r (enc x) x) xs ->
  reads (read_list r (length xs)) (flat_map enc xs) xs.
Proof.
  induction 1 as [|x xs Hx _ IH]; intros rest; cbn [length read_list flat_map].
  - reflexivity.
  - rewrite <- app_assoc, (bind_reads _ _ _ _ _ Hx), (bind_reads _ _ _ _ _ IH).
    reflexivity.
Qed.

Lemma reads_constant (k : Constant) :
  constant_ok k -> reads read_constant (constant_bytes k) k.
Proof.
  intros Hk rest. unfold read_constant.
  destruct k as [|b|bits|s]; cbn [constant_bytes app]; unfold bind at 1;
    cbn [read_byte];
    rewrite unsigned_u8_small
      by (unfold LBC_CONSTANT_NIL, LBC_CONSTANT_BOOLEAN, LBC_CONSTANT_NUMBER,
            LBC_CONSTANT_STRING; lia).
  - reflexivity.
  - change (LBC_CONSTANT_BOOLEAN) with 1. cbv iota.
    unfold bind at 1. cbn [read_byte].
    destruct b; rewrite unsigned_u8_small by lia; reflexivity.
  - change LBC_CONSTANT_NUMBER with 2. cbv iota.
    change 8%nat with (length (le_split 8 bits)) at 1.
    rewrite (bind_reads _ _ _ _ _ (reads_bytes _)). unfold ret.
    rewrite le_combine_split. cbn in Hk.
    now rewrite Z.mod_small by exact Hk.
  - change LBC_CONSTANT_STRING with 3. cbv iota. cbn in Hk.
    rewrite <- app_assoc.
    rewrite (bind_reads _ _ _ _ _ (reads_varint _ (conj (size_nonneg s) Hk))).
    unfold size at 1. rewrite Nat2Z.id.
    now rewrite (bind_reads _ _ _ _ _ (reads_bytes _)).
Qed.

Lemma reads_instr (i : Instr) : instr_ok i -> reads read_instr (instr_bytes i) i.
Proof.
  intros [Hop Hn] rest. unfold read_instr, instr_bytes. cbn [app].
  unfold bind at 1. cbn [read_byte].
  assert (Henc : 0 <= encodeOpcode (opcode i) < 256)
    by (rewrite encodeOpcode_mod; apply Z.mod_pos_bound; lia).
  rewrite unsigned_u8_small by exact Henc.
  rewrite decode_encodeOpcode, Z.mod_small by exact Hop.
  rewrite Hn, (bind_reads _ _ _ _ _ (reads_bytes _)).
  destruct i; reflexivity.
Qed.

Lemma Z2Nat_size {A} (l : list A) : Z.to_nat (size l) = length l.
Proof. unfold size. apply Nat2Z.id. Qed.

Lemma reads_proto (p : Proto) : proto_ok p -> reads read_proto (proto_bytes p) p.
Proof.
  intros (H1 & H2 & H3 & H4 & H5 & H6 & H7 & H8 & H9 & H10) rest.
  unfold read_proto, proto_bytes. rewrite <- !app_assoc.
  rewrite (bind_reads _ _ _ _ _ (reads_varint _ H1)).
  rewrite (bind_reads _ _ _ _ _ (reads_varint _ H2)).
  rewrite (bind_reads _ _ _ _ _ (reads_varint _ H3)).
  rewrite (bind_reads _ _ _ _ _ (reads_varint _ H4)).
  rewrite (bind_reads _ _ _ _ _ (reads_varint _ (conj (size_nonneg _) H5))).
  rewrite Z2Nat_size.
  rewrite (bind_reads _ _ _ _ _
             (reads_list _ _ _ (Forall_impl _ reads_instr H6))).
  rewrite (bind_reads _ _ _ _ _ (reads_varint _ H7)).
  rewrite (bind_reads _ _ _ _ _ (reads_varint _ H8)).
  rewrite (bind_reads _ _ _ _ _ (reads_varint _ H9)).
  rewrite (bind_reads _ _ _ _ _ (reads_varint _ H10)).
  destruct p; reflexivity.
Qed.

Lemma reads_payload (m : Module) : module_ok m -> reads read_payload (payload_bytes m) m.
Proof.
  intros (H1 & H2 & H3 & H4 & H5 & H6) rest.
  unfold read_payload, payload_bytes. rewrite <- !app_assoc.
  rewrite H1, H4.
  rewrite (bind_reads _ _ _ _ _ (reads_varint _ (conj (size_nonneg _) H2))).
  rewrite Z2Nat_size.
  rewrite (bind_reads _ _ _ _ _
             (reads_list _ _ _ (Forall_impl _ reads_constant H3))).
  rewrite (bind_reads _ _ _ _ _ (reads_varint _ (conj (size_nonneg _) H5))).
  rewrite Z2Nat_size.
  rewrite (bind_reads _ _ _ _ _
             (reads_list _ _ _ (Forall_impl _ reads_proto H6))).
  destruct m; cbn in *; subst; reflexivity.
Qed.

(** A buffer made of a patched header and the layout of a well-formed module
    reads back as that header and that module. *)
Lemma read_module_layout (m : Module) :
  module_ok m ->
  read_module (header_bytes (patched_header (payload_bytes m)) ++ payload_bytes m)
  = Some (header_of_bytes
            (header_bytes (patched_header (payload_bytes m)) ++ payload_bytes m), m).
Proof.
  intros Hm. unfold read_module.
  rewrite skipn_header, size_app.
  replace (size (header_bytes _)) with 12 by reflexivity.
  replace (12 + size (payload_bytes m) <? sizeof_header) with false
    by (symmetry; apply Z.ltb_ge; pose proof (size_nonneg (payload_bytes m));
        unfold sizeof_header; lia).
  pose proof (reads_payload m Hm []) as Hr. rewrite app_nil_r in Hr.
  now rewrite Hr.
Qed.

(** ** The builders write the layout of their modules *)

Lemma module_buffer_patched (m : Module) :
  module_buffer m = header_bytes (patched_header (payload_bytes m)) ++ payload_bytes m.
Proof. reflexivity. Qed.

Lemma u32_idem (z : Z) : u32 (u32 z) = u32 z.
Proof. unfold u32. apply Z.mod_mod. lia. Qed.

Lemma varint_u32 (z : Z) : varint (u32 z) = varint z.
Proof. unfold varint, writeVarInt. now rewrite u32_idem. Qed.

Lemma for_each_layout {A B} (body : A -> stmt) (f : A -> B)
      (enc : B -> list byte) (xs : list A) :
  (forall x, appends (body x)) -> (forall x, body x [] = enc (f x)) ->
  for_each body xs [] = flat_map enc (map f xs).
Proof.
  intros Ha He. rewrite (for_each_flat body xs Ha []). cbn [app].
  induction xs as [|x xs IH]; cbn [flat_map map]; [reflexivity|].
  now rewrite He, IH.
Qed.

Lemma CreatePushNil_serialises : CreatePushNil = module_buffer nil_module.
Proof. reflexivity. Qed.

Lemma CreatePushBoolean_serialises (value : bool) :
  CreatePushBoolean value = module_buffer (boolean_module value).
Proof. destruct value; reflexivity. Qed.

Lemma CreatePushNumber_serialises (value : Z) :
  CreatePushNumber value = module_buffer (number_module value).
Proof.
  unfold CreatePushNumber. cbv zeta. flatten_stmts.
  rewrite update_header_app, module_buffer_patched.
  assert (E : le_split 8 (value mod 2 ^ 64) = le_split 8 value)
    by (symmetry; apply (le_split_mod value 8)).
  unfold payload_bytes, number_module, builder_module, builder_proto, proto_bytes.
  cbn [constants protos constantCount functionCount flat_map constant_bytes
       maxstacksize numparams numupvalues is_vararg code sizeK sizeP linedefined
       debugname lineinfo debuginfo instr_bytes instr opcode operands app].
  rewrite E. reflexivity.
Qed.

(** Unfolds the layout of a one-proto builder module into its chunks. *)
Ltac unfold_layout :=
  unfold payload_bytes, builder_module, builder_proto, proto_bytes;
  cbn [constants protos constantCount functionCount flat_map constant_bytes
       maxstacksize numparams numupvalues is_vararg code sizeK sizeP linedefined
       debugname lineinfo debuginfo instr_bytes instr opcode operands app map];
  rewrite ?app_nil_r; rewrite <- ?app_assoc.

Lemma CreatePushString_serialises (value : list byte) :
  CreatePushString value = module_buffer (string_module value).
Proof.
  unfold CreatePushString. cbv zeta. flatten_stmts.
  rewrite update_header_app, module_buffer_patched.
  unfold string_module. unfold_layout. reflexivity.
Qed.

Lemma CreatePushTable_serialises (arraySize hashSize : Z) :
  CreatePushTable arraySize hashSize = module_buffer (table_module arraySize hashSize).
Proof.
  unfold CreatePushTable. cbv zeta. flatten_stmts.
  rewrite update_header_app, module_buffer_patched.
  unfold table_module. unfold_layout. reflexivity.
Qed.

Lemma flat_map_app_bytes {A} (f : A -> list byte) (xs ys : list A) :
  flat_map f (xs ++ ys) = flat_map f xs ++ flat_map f ys.
Proof. apply flat_map_app. Qed.

Lemma CreatePushArray_serialises (values : list (list byte)) :
  CreatePushArray values = module_buffer (array_module values).
Proof.
  destruct values as [|v vs]; [apply CreatePushTable_serialises|].
  unfold CreatePushArray, array_module. cbv zeta.
  set (values := v :: vs).
  flatten_stmts.
  rewrite update_header_app, module_buffer_patched.
  rewrite (for_each_layout _ KString constant_bytes values)
    by (intros; first [solve [auto 20 with appends] | flatten_stmts; reflexivity]).
  unfold for_index.
  rewrite (for_each_layout _ (fun i => instr LOP_LOADK [u8 (i + 1); u8 i]) instr_bytes)
    by (intros; first [solve [auto 20 with appends] | flatten_stmts; reflexivity]).
  assert (E1 : size (map KString values) = size values)
    by (unfold size; now rewrite length_map).
  assert (E2 : forall a b : Instr,
             size (a :: map (fun i => instr LOP_LOADK [u8 (i + 1); u8 i])
                          (map Z.of_nat (List.seq 0 (length values))) ++ [b])
             = size values + 2).
  { intros a b. unfold size. cbn [length].
    rewrite length_app, !length_map, length_seq. cbn [length]. lia. }
  unfold_layout. rewrite E1, E2, flat_map_app_bytes, <- ?app_assoc. reflexivity.
Qed.

(** ** [CreatePushMultiple]: the loops and the element-wise description *)

Lemma firstn_succ_nth {A} (l : list A) (k : nat) (d : A) :
  (k < length l)%nat -> firstn (S k) l = firstn k l ++ [nth k l d].
Proof.
  revert k. induction l as [|x l IH]; intros k Hk; cbn [length] in Hk; [lia|].
  destruct k as [|k]; [reflexivity|].
  cbn [firstn nth app]. f_equal. apply IH. lia.
Qed.

Lemma assign_middle {A} (k : nat) (l1 l2 : list A) (x y : A) :
  length l1 = k -> assign k x (l1 ++ y :: l2) = l1 ++ x :: l2.
Proof.
  intros <-.
  induction l1 as [|z l1 IH]; cbn [length app assign]; [reflexivity|now rewrite IH].
Qed.

Lemma nth_middle_default {A} (k : nat) (l1 l2 : list A) (x d : A) :
  length l1 = k -> nth k (l1 ++ x :: l2) d = x.
Proof.
  intros <-.
  induction l1 as [|z l1 IH]; cbn [length app nth]; [reflexivity|exact IH].
Qed.

Section MultipleProofs.

Variable strtod : list byte -> Z * nat.

Lemma classify_step_prefix (values : list (list byte)) (k : nat) :
  (k < length values)%nat ->
  classify_step strtod values (classified_prefix strtod values k) k
  = classified_prefix strtod values (S k).
Proof.
  intros Hk. unfold classified_prefix.
  rewrite (firstn_succ_nth values k [] Hk).
  unfold number_values, boolean_values, string_values.
  rewrite !map_app, !flat_map_app. cbn [map flat_map].
  replace (length values - k)%nat with (S (length values - S k)) by lia.
  cbn [repeat]. rewrite <- !app_assoc. cbn [app].
  unfold classify_step.
  cbn [isNumber isBool numbers booleans strings].
  rewrite !assign_middle by (rewrite length_map, length_firstn; lia).
  unfold kind_of.
  destruct (bytes_eqb (nth k values []) (text "true"%string));
    [cbn; now rewrite !app_nil_r|].
  destruct (bytes_eqb (nth k values []) (text "false"%string));
    [cbn; now rewrite !app_nil_r|].
  destruct (parse_number strtod (nth k values []));
    cbn; now rewrite !app_nil_r.
Qed.

Lemma classify_prefix (values : list (list byte)) (k : nat) :
  (k <= length values)%nat ->
  fold_left (classify_step strtod values) (List.seq 0 k) (classified_prefix strtod values 0)
  = classified_prefix strtod values k.
Proof.
  induction k as [|k IH]; intros Hk; [reflexivity|].
  rewrite seq_S, fold_left_app, IH by lia. cbn [fold_left Nat.add].
  apply classify_step_prefix. lia.
Qed.

(** The classification loop computes the element-wise classification. *)
Lemma classify_spec (values : list (list byte)) :
  classify strtod values =
    {| isNumber := map (fun v => is_number_kind (kind_of strtod v)) values;
       isBool := map (fun v => is_boolean_kind (kind_of strtod v)) values;
       numbers := number_values strtod values;
       booleans := boolean_values strtod values;
       strings := string_values strtod values |}.
Proof.
  unfold classify.
  replace {| isNumber := repeat false (length values);
             isBool := repeat false (length values);
             numbers := []; booleans := []; strings := [] |}
    with (classified_prefix strtod values 0)
    by (unfold classified_prefix; now rewrite Nat.sub_0_r).
  rewrite classify_prefix by lia. unfold classified_prefix.
  now rewrite firstn_all, Nat.sub_diag, !app_nil_r.
Qed.

(** One round of the instruction loop only appends to the vector. *)
Lemma load_step_appends (c : classified) (a b s : Z) (out : list byte) (i : nat) :
  let st0 := load_step c
               {| numIdx := a; boolIdx := b; strIdx := s; code_out := [] |} i in
  load_step c {| numIdx := a; boolIdx := b; strIdx := s; code_out := out |} i
  = {| numIdx := numIdx st0; boolIdx := boolIdx st0; strIdx := strIdx st0;
       code_out := out ++ code_out st0 |}.
Proof.
  unfold load_step. cbn [numIdx boolIdx strIdx code_out].
  destruct (nth i (isBool c) false); [|destruct (nth i (isNumber c) false)];
    cbn [numIdx boolIdx strIdx code_out]; unfold seq, push_back;
    rewrite <- ?app_assoc; reflexivity.
Qed.

Lemma load_step_unfold (c : classified) (st : load_state) (i : nat) :
  load_step c st i =
    if nth i (isBool c) false then
      {| numIdx := numIdx st; boolIdx := boolIdx st + 1; strIdx := strIdx st;
         code_out :=
           code_out st
           ++ [u8 (encodeOpcode LOP_LOADB); u8 (Z.of_nat i);
               u8 (if nth (Z.to_nat (boolIdx st)) (booleans c) false
                   then 0x01 else 0x00);
               u8 0x00] |}
    else if nth i (isNumber c) false then
      {| numIdx := numIdx st + 1; boolIdx := boolIdx st; strIdx := strIdx st;
         code_out :=
           code_out st
           ++ [u8 (encodeOpcode LOP_LOADN); u8 (Z.of_nat i); u8 (numIdx st)] |}
    else
      {| numIdx := numIdx st; boolIdx := boolIdx st; strIdx := strIdx st + 1;
         code_out :=
           code_out st
           ++ [u8 (encodeOpcode LOP_LOADK); u8 (Z.of_nat i);
               u8 (size (numbers c) + size (booleans c) + strIdx st)] |}.
Proof.
  unfold load_step.
  destruct (nth i (isBool c) false); [|destruct (nth i (isNumber c) false)];
    unfold seq, push_back; rewrite <- ?app_assoc; reflexivity.
Qed.

Lemma load_fold_appends (c : classified) (l : list nat) :
  forall a b s out,
    code_out (fold_left (load_step c) l
                {| numIdx := a; boolIdx := b; strIdx := s; code_out := out |})
    = out ++ code_out (fold_left (load_step c) l
                         {| numIdx := a; boolIdx := b; strIdx := s; code_out := [] |}).
Proof.
  induction l as [|i l IH]; intros a b s out; cbn [fold_left].
  - cbn. now rewrite app_nil_r.
  - rewrite (load_step_appends c a b s out i). cbv zeta.
    destruct (load_step c _ i) as [a' b' s' ch]. cbn [numIdx boolIdx strIdx code_out].
    rewrite (IH a' b' s' (out ++ ch)), (IH a' b' s' ch). now rewrite app_assoc.
Qed.

Lemma appends_load_instructions (c : classified) (n : nat) :
  appends (load_instructions c n).
Proof. intros out. unfold load_instructions. apply load_fold_appends. Qed.

Lemma size_snoc {A} (l : list A) (x : A) : size (l ++ [x]) = size l + 1.
Proof. rewrite size_app. reflexivity. Qed.

(** The instruction loop, started after the elements [pre], emits the load
    instructions of the remaining elements. *)
Lemma load_fold_spec (values : list (list byte)) :
  let base := size (number_values strtod values) + size (boolean_values strtod values) in
  forall suf pre,
    values = pre ++ suf ->
    code_out (fold_left (load_step (classify strtod values))
                (List.seq (length pre) (length suf))
                {| numIdx := size (number_values strtod pre);
                   boolIdx := size (boolean_values strtod pre);
                   strIdx := size (string_values strtod pre);
                   code_out := [] |})
    = flat_map instr_bytes
        (multiple_code strtod base suf (size pre)
           (size (number_values strtod pre)) (size (string_values strtod pre))).
Proof.
  intros base. induction suf as [|v suf IH]; intros pre Hv; [reflexivity|].
  cbn [length List.seq fold_left].
  rewrite load_step_appends. cbv zeta. rewrite load_fold_appends.
  assert (Hv' : values = (pre ++ [v]) ++ suf) by (now rewrite <- app_assoc).
  specialize (IH (pre ++ [v]) Hv').
  rewrite length_app in IH. cbn [length] in IH. rewrite Nat.add_1_r in IH.
  rewrite size_snoc in IH.
  assert (Hsnoc : forall (B : Type) (f : list byte -> list B),
             flat_map f (pre ++ [v]) = flat_map f pre ++ f v).
  { intros B f. rewrite flat_map_app. cbn [flat_map]. now rewrite app_nil_r. }
  unfold number_values, boolean_values, string_values in IH.
  rewrite !Hsnoc in IH.
  fold (number_values strtod pre) (boolean_values strtod pre)
       (string_values strtod pre) in IH.
  assert (Hb : nth (length pre) (isBool (classify strtod values)) false
               = is_boolean_kind (kind_of strtod v)).
  { rewrite classify_spec. cbn [isBool]. rewrite Hv, map_app. cbn [map].
    apply nth_middle_default. now rewrite length_map. }
  assert (Hn : nth (length pre) (isNumber (classify strtod values)) false
               = is_number_kind (kind_of strtod v)).
  { rewrite classify_spec. cbn [isNumber]. rewrite Hv, map_app. cbn [map].
    apply nth_middle_default. now rewrite length_map. }
  assert (Hbv : forall bv, kind_of strtod v = IsBoolean bv ->
                  nth (Z.to_nat (size (boolean_values strtod pre)))
                    (booleans (classify strtod values)) false = bv).
  { intros bv Hk. rewrite classify_spec. cbn [booleans]. rewrite Hv.
    unfold boolean_values. rewrite flat_map_app. cbn [flat_map]. rewrite Hk.
    cbn [app]. apply nth_middle_default. now rewrite Z2Nat_size. }
  assert (Hbase : size (numbers (classify strtod values))
                  + size (booleans (classify strtod values)) = base)
    by (now rewrite classify_spec).
  rewrite load_step_unfold. cbn [numIdx boolIdx strIdx code_out].
  rewrite Hb, Hn, Hbase.
  cbn [multiple_code flat_map]. unfold load_instr.
  destruct (kind_of strtod v) as [bv|nv|] eqn:Hk;
    cbn [is_boolean_kind is_number_kind numIdx boolIdx strIdx code_out];
    rewrite ?app_nil_r, ?size_snoc in IH; rewrite IH.
  - rewrite (Hbv bv eq_refl). reflexivity.
  - reflexivity.
  - reflexivity.
Qed.

Lemma size_multiple_constants (values : list (list byte)) :
  size (multiple_constants strtod values)
  = size (number_values strtod values) + size (boolean_values strtod values)
    + size (string_values strtod values).
Proof.
  unfold multiple_constants, size. rewrite !length_app, !length_map. lia.
Qed.

Lemma size_multiple_code (base : Z) (vals : list (list byte)) :
  forall i a s, size (multiple_code strtod base vals i a s) = size vals.
Proof.
  unfold size.
  induction vals as [|v vals IH]; intros i a s; cbn [multiple_code length];
    [reflexivity|].
  destruct (kind_of strtod v); rewrite !Nat2Z.inj_succ, IH; reflexivity.
Qed.

Lemma CreatePushMultiple_serialises (values : list (list byte)) :
  CreatePushMultiple strtod values = module_buffer (multiple_module strtod values).
Proof.
  destruct values as [|v vs]; [apply CreatePushNil_serialises|].
  unfold CreatePushMultiple, multiple_module. cbv zeta.
  set (values := v :: vs).
  pose proof appends_load_instructions as Hal.
  rewrite ?seq_nil by auto 30 with appends.
  change (insert_end ?bs []) with bs.
  change (writeVarInt ?x []) with (varint x).
  rewrite debug_tail_bytes, <- ?app_assoc.
  rewrite update_header_app, module_buffer_patched.
  rewrite (for_each_layout _ (fun n => KNumber (n mod 2 ^ 64)) constant_bytes)
    by (intros; first [solve [auto 20 with appends]
                      | flatten_stmts; cbn [constant_bytes app];
                        now rewrite <- (le_split_mod _ 8)]).
  rewrite (for_each_layout _ KBoolean constant_bytes)
    by (intros; first [solve [auto 20 with appends] | flatten_stmts; reflexivity]).
  rewrite (for_each_layout _ KString constant_bytes)
    by (intros; first [solve [auto 20 with appends] | flatten_stmts; reflexivity]).
  unfold load_instructions.
  pose proof (load_fold_spec values values [] eq_refl) as Hload.
  cbn [length] in Hload. cbv zeta in Hload.
  change (size (number_values strtod [])) with 0 in Hload.
  change (size (boolean_values strtod [])) with 0 in Hload.
  change (size (string_values strtod [])) with 0 in Hload.
  change (size (@nil (list byte))) with 0 in Hload.
  rewrite Hload.
  rewrite !varint_u32, classify_spec. cbn [numbers booleans strings].
  unfold_layout. unfold multiple_constants.
  rewrite !flat_map_app_bytes, <- ?app_assoc.
  rewrite size_multiple_code, <- size_multiple_constants.
  unfold multiple_constants. reflexivity.
Qed.

End MultipleProofs.

(** ** Every builder writes the layout of its module *)

Theorem build_serialises (strtod : list byte -> Z * nat) (c : BuilderCall) :
  build strtod c = module_buffer (module_of strtod c).
Proof.
  destruct c; cbn [build module_of].
  - apply CreatePushNil_serialises.
  - apply CreatePushBoolean_serialises.
  - apply CreatePushNumber_serialises.
  - apply CreatePushString_serialises.
  - apply CreatePushTable_serialises.
  - apply CreatePushArray_serialises.
  - apply CreatePushMultiple_serialises.
Qed.

(** ** The builders' modules are well formed *)

Lemma instr_ok_intro (op : Z) (ops : list byte) :
  0 <= op < 256 -> operand_count op = Some (length ops) -> instr_ok (instr op ops).
Proof. now split. Qed.

Lemma builder_proto_ok (mss nups : Z) (ins : list Instr) (nk : Z) :
  is_u32 mss -> is_u32 nups -> size ins < 2 ^ 32 -> Forall instr_ok ins ->
  is_u32 nk -> proto_ok (builder_proto mss nups ins nk).
Proof.
  intros. unfold proto_ok, builder_proto.
  cbn [maxstacksize numparams numupvalues is_vararg code sizeK sizeP linedefined debugname].
  unfold is_u32 in *. repeat split; try lia; assumption.
Qed.

Lemma builder_module_ok (ks : list Constant) (p : Proto) :
  size ks < 2 ^ 32 -> Forall constant_ok ks -> proto_ok p ->
  module_ok (builder_module ks p).
Proof.
  intros. unfold module_ok, builder_module.
  cbn [constantCount constants functionCount protos].
  repeat split; try assumption; try reflexivity. constructor; [assumption|constructor].
Qed.

Ltac instr_ok_tac :=
  apply instr_ok_intro; [cbv; intuition discriminate | reflexivity].

Ltac instrs_ok_tac :=
  repeat (constructor; [instr_ok_tac|]); try constructor.

Lemma nil_module_ok : module_ok nil_module.
Proof.
  apply builder_module_ok; [reflexivity|constructor|].
  apply builder_proto_ok; try (unfold is_u32; lia); [reflexivity|].
  instrs_ok_tac.
Qed.

Lemma boolean_module_ok (value : bool) : module_ok (boolean_module value).
Proof.
  apply builder_module_ok; [reflexivity|constructor|].
  apply builder_proto_ok; try (unfold is_u32; lia); [reflexivity|].
  instrs_ok_tac.
Qed.

Lemma number_module_ok (value : Z) : module_ok (number_module value).
Proof.
  apply builder_module_ok; [reflexivity| |].
  - constructor; [|constructor]. cbn. apply Z.mod_pos_bound. lia.
  - apply builder_proto_ok; try (unfold is_u32; lia); [reflexivity|].
    instrs_ok_tac.
Qed.

Lemma string_module_ok (value : list byte) :
  size value < 2 ^ 32 -> module_ok (string_module value).
Proof.
  intros Hv. apply builder_module_ok; [reflexivity| |].
  - constructor; [exact Hv|constructor].
  - apply builder_proto_ok; try (unfold is_u32; lia); [reflexivity|].
    instrs_ok_tac.
Qed.

Lemma table_module_ok (arraySize hashSize : Z) :
  module_ok (table_module arraySize hashSize).
Proof.
  apply builder_module_ok; [reflexivity|constructor|].
  apply builder_proto_ok; try (unfold is_u32; lia); [reflexivity|].
  instrs_ok_tac.
Qed.

Lemma array_module_ok (values : list (list byte)) :
  size values + 2 < 2 ^ 32 -> Forall (fun v => size v < 2 ^ 32) values ->
  module_ok (array_module values).
Proof.
  intros Hn Hv. destruct values as [|v vs]; [apply table_module_ok|].
  unfold array_module. set (values := v :: vs) in *.
  pose proof (size_nonneg values) as Hnn.
  apply builder_module_ok.
  - unfold size in *. rewrite length_map. lia.
  - apply Forall_map. exact Hv.
  - apply builder_proto_ok; try (unfold is_u32; lia).
    + unfold size in *. cbn [length]. rewrite length_app, !length_map, length_seq.
      cbn [length]. lia.
    + constructor; [instr_ok_tac|].
      apply Forall_app. split.
      * apply Forall_map, Forall_forall. intros i _. instr_ok_tac.
      * constructor; [instr_ok_tac|constructor].
Qed.

Section MultipleWellFormed.

Variable strtod : list byte -> Z * nat.

Lemma string_values_incl (values : list (list byte)) (v : list byte) :
  In v (string_values strtod values) -> In v values.
Proof.
  unfold string_values. rewrite in_flat_map. intros (x & Hx & Hin).
  destruct (kind_of strtod x); cbn in Hin; try contradiction.
  destruct Hin as [<-|[]]. exact Hx.
Qed.

Lemma multiple_code_ok (base : Z) (vals : list (list byte)) :
  forall i a s, Forall instr_ok (multiple_code strtod base vals i a s).
Proof.
  induction vals as [|v vals IH]; intros i a s; cbn [multiple_code]; constructor.
  - unfold load_instr. destruct (kind_of strtod v); instr_ok_tac.
  - destruct (kind_of strtod v); apply IH.
Qed.

Lemma kinds_partition (values : list (list byte)) :
  size (number_values strtod values) + size (boolean_values strtod values)
  + size (string_values strtod values) = size values.
Proof.
  unfold number_values, boolean_values, string_values, size.
  induction values as [|v values IH]; [reflexivity|].
  cbn [flat_map]. rewrite !length_app. cbn [length].
  destruct (kind_of strtod v); cbn [length]; lia.
Qed.

Lemma multiple_module_ok (values : list (list byte)) :
  size values < 2 ^ 32 -> Forall (fun v => size v < 2 ^ 32) values ->
  module_ok (multiple_module strtod values).
Proof.
  intros Hn Hv. destruct values as [|v vs]; [apply nil_module_ok|].
  unfold multiple_module. set (values := v :: vs) in *.
  pose proof (size_nonneg values) as Hnn.
  pose proof (kinds_partition values) as Hp.
  pose proof (size_multiple_constants strtod values) as Hc.
  apply builder_module_ok.
  - lia.
  - unfold multiple_constants. rewrite !Forall_app. repeat split.
    + apply Forall_map, Forall_forall. intros n _. cbn.
      apply Z.mod_pos_bound. lia.
    + apply Forall_map, Forall_forall. intros b _. exact I.
    + apply Forall_map, Forall_forall. intros x Hx. cbn.
      apply string_values_incl in Hx.
      rewrite Forall_forall in Hv. now apply Hv.
  - apply builder_proto_ok; try (unfold is_u32; lia).
    + now rewrite size_multiple_code.
    + apply multiple_code_ok.
Qed.

Lemma module_of_ok (c : BuilderCall) :
  call_fits c -> module_ok (module_of strtod c).
Proof.
  destruct c; cbn [call_fits module_of]; intros Hc.
  - apply nil_module_ok.
  - apply boolean_module_ok.
  - apply number_module_ok.
  - now apply string_module_ok.
  - apply table_module_ok.
  - now apply array_module_ok.
  - now apply multiple_module_ok.
Qed.

(** Reading back what a builder wrote gives the module it encodes. *)
Theorem read_build (c : BuilderCall) :
  call_fits c ->
  read_module (build strtod c)
  = Some (header_of_bytes (build strtod c), module_of strtod c).
Proof.
  intros Hc. rewrite build_serialises, module_buffer_patched.
  apply read_module_layout, module_of_ok, Hc.
Qed.

End MultipleWellFormed.

(** ** Every produced buffer is a patched header and a payload *)

Lemma Compile_is_build (strtod : list byte -> Z * nat) (source : list byte) :
  exists c, Compile strtod source = build strtod c.
Proof.
  unfold Compile.
  destruct (starts_with _ source); [|now exists PushNil].
  destruct (bytes_eqb _ (text "nil"%string)); [now exists PushNil|].
  destruct (bytes_eqb _ (text "true"%string)); [now exists (PushBoolean true)|].
  destruct (bytes_eqb _ (text "false"%string)); [now exists (PushBoolean false)|].
  destruct (parse_number strtod _) as [num|]; [now exists (PushNumber num)|].
  match goal with |- context [if ?c then _ else _] => destruct c end.
  - now exists (PushString (substr (skipn 7 source) 1 (length (skipn 7 source) - 2))).
  - now exists PushNil.
Qed.

Lemma Compiler_compile_patched (self : Compiler.t) :
  exists payload,
    fst (Compiler.compile self) = header_bytes (patched_header payload) ++ payload.
Proof.
  unfold Compiler.compile. cbv zeta. cbn [fst].
  rewrite ?seq_nil by auto 20 with appends.
  change (insert_end ?bs []) with bs. rewrite <- ?app_assoc.
  rewrite update_header_app. eexists. reflexivity.
Qed.

Lemma produced_patched (strtod : list byte -> Z * nat) (b : list byte) :
  produced strtod b ->
  exists payload, b = header_bytes (patched_header payload) ++ payload.
Proof.
  intros [c|source|x y|x y z|self].
  - eexists. rewrite build_serialises. apply module_buffer_patched.
  - destruct (Compile_is_build strtod source) as [c ->].
    eexists. rewrite build_serialises. apply module_buffer_patched.
  - eexists. unfold CreatePushVector2.
    rewrite CreatePushTable_serialises. apply module_buffer_patched.
  - eexists. unfold CreatePushVector3.
    rewrite CreatePushTable_serialises. apply module_buffer_patched.
  - apply Compiler_compile_patched.
Qed.

Lemma patched_size (payload : list byte) :
  size (header_bytes (patched_header payload) ++ payload) - sizeof_header
  = size payload.
Proof.
  rewrite size_app. replace (size (header_bytes _)) with 12 by reflexivity.
  unfold sizeof_header. lia.
Qed.

Lemma u32_small (z : Z) : 0 <= z < 2 ^ 32 -> u32 z = z.
Proof. apply Z.mod_small. Qed.

(** ** The header of a produced buffer *)

(** C1 (as the code has it). In every produced buffer whose payload length fits
    32 bits, the first twelve bytes are version 2, flags 0, typesize 8,
    numbersize 8, then the checksum of the payload at offsets 4-7, then the
    payload length at offsets 8-11, both little-endian, and the payload starts
    right after, at offset 12. *)
Theorem header_layout (strtod : list byte -> Z * nat) (b : list byte) :
  produced strtod b -> size b - sizeof_header < 2 ^ 32 ->
  b = [x02; x00; x08; x08]
      ++ le_split 4 (hashBytecode (skipn 12 b))
      ++ le_split 4 (size b - sizeof_header)
      ++ skipn 12 b.
Proof.
  intros Hp Hsz. destruct (produced_patched strtod b Hp) as [payload ->].
  rewrite patched_size in *. rewrite skipn_header.
  pose proof (size_nonneg payload).
  unfold patched_header. rewrite u32_small, firstn_size by lia.
  reflexivity.
Qed.

(** C5. In every produced buffer whose payload length fits 32 bits, the
    header's size field is the buffer length minus the header size and its
    hash field is the checksum of the payload; the checksum starts at
    2166136261 and, byte by byte, XORs the byte in and multiplies by 16777619
    modulo 2^32. *)
Theorem header_size_and_hash (strtod : list byte -> Z * nat) (b : list byte) :
  produced strtod b -> size b - sizeof_header < 2 ^ 32 ->
  hsize (header_of_bytes b) = size b - sizeof_header
  /\ hash (header_of_bytes b) = hashBytecode (skipn 12 b)
  /\ hashBytecode [] = 2166136261
  /\ (forall data x,
        hashBytecode (data ++ [x])
        = (Z.lxor (hashBytecode data) (byte.unsigned x) * 16777619) mod 2 ^ 32).
Proof.
  intros Hp Hsz. destruct (produced_patched strtod b Hp) as [payload ->].
  rewrite patched_size in *. rewrite skipn_header, header_of_header_bytes.
  pose proof (size_nonneg payload).
  cbn [hsize hash patched_header]. rewrite u32_small, firstn_size by lia.
  repeat split.
  - apply Z.mod_small. lia.
  - apply Z.mod_small, hashBytecode_range.
  - intros data x. unfold hashBytecode. now rewrite fold_left_app.
Qed.

Lemma header_layout_witness :
  CreatePushNumber 0x400921F9F01B866E
  = [x02; x00; x08; x08]
    ++ le_split 4 (hashBytecode (skipn 12 (CreatePushNumber 0x400921F9F01B866E)))
    ++ le_split 4 (size (CreatePushNumber 0x400921F9F01B866E) - sizeof_header)
    ++ skipn 12 (CreatePushNumber 0x400921F9F01B866E).
Proof.
  apply (header_layout strtod_decimal).
  - exact (produced_build strtod_decimal (PushNumber 0x400921F9F01B866E)).
  - vm_compute. reflexivity.
Defined.

(** C1 as the spec words it fails on [CreatePushNil()]: bytes 4-7 do not hold
    the payload length (15) and bytes 8-11 do not hold the checksum. *)
Lemma header_size_before_hash_fails :
  ~ (firstn 4 (skipn 4 CreatePushNil) = le_split 4 (size (skipn 12 CreatePushNil))
     /\ firstn 4 (skipn 8 CreatePushNil)
        = le_split 4 (hashBytecode (skipn 12 CreatePushNil))).
Proof. intros [H _]. vm_compute in H. discriminate H. Qed.

Lemma header_size_and_hash_witness :
  hsize (header_of_bytes (CreatePushString (text "Hello World"%string)))
  = size (CreatePushString (text "Hello World"%string)) - sizeof_header
  /\ hash (header_of_bytes (CreatePushString (text "Hello World"%string)))
     = hashBytecode (skipn 12 (CreatePushString (text "Hello World"%string)))
  /\ hashBytecode [] = 2166136261
  /\ (forall data x,
        hashBytecode (data ++ [x])
        = (Z.lxor (hashBytecode data) (byte.unsigned x) * 16777619) mod 2 ^ 32).
Proof.
  apply (header_size_and_hash strtod_decimal).
  - exact (produced_build strtod_decimal (PushString (text "Hello World"%string))).
  - vm_compute. reflexivity.
Defined.

(** ** Payloads beyond the 32-bit size field *)

Lemma size_cons {A} (x : A) (l : list A) : size (x :: l) = 1 + size l.
Proof. unfold size. cbn [length]. lia. Qed.

Lemma size_four_GiB_string : size four_GiB_string = 2 ^ 32.
Proof.
  unfold size, four_GiB_string. rewrite repeat_length. apply Z2Nat.id. lia.
Qed.

(** When the payload length does not fit 32 bits, the size field holds its
    low 32 bits only, and the buffer does not validate. *)
Lemma oversize_patched (payload : list byte) :
  2 ^ 32 <= size payload ->
  hsize (header_of_bytes (header_bytes (patched_header payload) ++ payload))
  <> size (header_bytes (patched_header payload) ++ payload) - sizeof_header
  /\ ValidateBytecode (header_bytes (patched_header payload) ++ payload) = false.
Proof.
  intros Hbig.
  assert (Hne : hsize (header_of_bytes (header_bytes (patched_header payload) ++ payload))
                <> size (header_bytes (patched_header payload) ++ payload)
                   - sizeof_header).
  { rewrite patched_size, header_of_header_bytes. cbn [hsize patched_header].
    unfold u32. rewrite Z.mod_mod by lia.
    pose proof (Z.mod_pos_bound (size payload) (2 ^ 32) ltac:(lia)). lia. }
  split; [exact Hne|].
  unfold ValidateBytecode.
  replace (size (header_bytes (patched_header payload) ++ payload) <? sizeof_header)
    with false
    by (symmetry; apply Z.ltb_ge; rewrite size_app;
        replace (size (header_bytes (patched_header payload))) with 12 by reflexivity;
        unfold sizeof_header; lia).
  apply Z.eqb_neq in Hne. rewrite Hne.
  rewrite header_of_header_bytes. cbn [version patched_header].
  reflexivity.
Qed.

Lemma string_payload_size (value : list byte) :
  size value <= size (payload_bytes (string_module value)).
Proof.
  unfold string_module. unfold_layout.
  rewrite !size_app, !size_cons, !size_app.
  repeat match goal with
         | |- context [size ?x] =>
             lazymatch goal with
             | H : 0 <= size x |- _ => fail
             | _ => pose proof (size_nonneg x)
             end
         end.
  lia.
Qed.

Lemma CreatePushString_oversize (value : list byte) :
  2 ^ 32 <= size value ->
  hsize (header_of_bytes (CreatePushString value))
  <> size (CreatePushString value) - sizeof_header
  /\ ValidateBytecode (CreatePushString value) = false.
Proof.
  intros Hbig. rewrite CreatePushString_serialises, module_buffer_patched.
  apply oversize_patched. pose proof (string_payload_size value). lia.
Qed.

(** ** Validation of built buffers *)

(** Every produced buffer whose payload length fits 32 bits validates. *)
Lemma ValidateBytecode_produced (strtod : list byte -> Z * nat) (b : list byte) :
  produced strtod b -> size b - sizeof_header < 2 ^ 32 ->
  ValidateBytecode b = true.
Proof.
  intros Hp Hsz. destruct (produced_patched strtod b Hp) as [payload ->].
  rewrite patched_size in Hsz. now apply ValidateBytecode_patched.
Qed.

Lemma size_CreatePushNumber (value : Z) : size (CreatePushNumber value) = 37.
Proof. reflexivity. Qed.

(** C4. The buffers of [CreatePushNil], [CreatePushBoolean], [CreatePushNumber]
    and [CreatePushString] pass [ValidateBytecode], for every boolean, every
    double (any 64-bit pattern) and every string whose buffer keeps the
    payload length within the 32-bit size field. *)
Theorem literal_builders_validate :
  ValidateBytecode CreatePushNil = true
  /\ (forall value : bool, ValidateBytecode (CreatePushBoolean value) = true)
  /\ (forall value : Z, ValidateBytecode (CreatePushNumber value) = true)
  /\ (forall value : list byte,
        size (CreatePushString value) - sizeof_header < 2 ^ 32 ->
        ValidateBytecode (CreatePushString value) = true).
Proof.
  repeat split.
  - intros [|]; reflexivity.
  - intros value.
    apply (ValidateBytecode_produced strtod_decimal).
    + exact (produced_build strtod_decimal (PushNumber value)).
    + rewrite size_CreatePushNumber. reflexivity.
  - intros value Hsz.
    apply (ValidateBytecode_produced strtod_decimal); [|exact Hsz].
    exact (produced_build strtod_decimal (PushString value)).
Qed.

Lemma literal_builders_validate_witness :
  ValidateBytecode (CreatePushString (text "Hello World"%string)) = true.
Proof.
  apply (proj2 (proj2 (proj2 literal_builders_validate))).
  vm_compute. reflexivity.
Defined.

(** ** Stack size and registers *)

(** C3. The proto [CreatePushNil()] encodes declares [maxstacksize] 0 while its
    only instruction, LOADNIL, writes register 0: one register is needed and
    none is declared. *)
Theorem CreatePushNil_stack_too_small :
  exists p,
    read_module CreatePushNil
    = Some (header_of_bytes CreatePushNil, builder_module [] p)
    /\ code p = [instr LOP_LOADNIL [x00]]
    /\ registers (instr LOP_LOADNIL [x00]) = [0]
    /\ registers_needed (code p) = 1
    /\ maxstacksize p = 0
    /\ ~ (maxstacksize p >= registers_needed (code p)).
Proof.
  exists (builder_proto 0 1 [instr LOP_LOADNIL [x00]] 0).
  repeat split. vm_compute. intros H. now apply H.
Qed.

Lemma registers_needed_le (ins : list Instr) (bound : Z) :
  0 <= bound ->
  (forall r, In r (flat_map registers ins) -> r + 1 <= bound) ->
  registers_needed ins <= bound.
Proof.
  intros Hb. unfold registers_needed.
  induction (flat_map registers ins) as [|r rs IH]; intros H; cbn [map fold_right].
  - exact Hb.
  - apply Z.max_lub.
    + apply H. now left.
    + apply IH. intros r' Hr'. apply H. now right.
Qed.

Lemma unsigned_u8_le (z : Z) : 0 <= z -> byte.unsigned (u8 z) <= z.
Proof. intros Hz. rewrite unsigned_u8. apply Z.mod_le; lia. Qed.

Lemma multiple_code_registers (strtod : list byte -> Z * nat) (base : Z)
      (vals : list (list byte)) :
  forall i a s r, 0 <= i ->
    In r (flat_map registers (multiple_code strtod base vals i a s)) ->
    r + 1 <= i + size vals.
Proof.
  induction vals as [|v vals IH]; intros i a s r Hi Hr; [contradiction|].
  cbn [multiple_code flat_map] in Hr. apply in_app_or in Hr.
  replace (size (v :: vals)) with (size vals + 1)
    by (unfold size; cbn [length]; lia).
  pose proof (size_nonneg vals).
  destruct Hr as [Hr|Hr].
  - unfold load_instr in Hr. pose proof (unsigned_u8_le i Hi).
    destruct (kind_of strtod v); cbn in Hr; destruct Hr as [<-|[]];
      fold (u8 i); lia.
  - assert (r + 1 <= (i + 1) + size vals); [|lia].
    destruct (kind_of strtod v); eapply IH; try eassumption; lia.
Qed.

(** Apart from the buffer of [CreatePushNil()] (which [CreatePushMultiple]
    also returns for an empty list), every builder declares at least the
    registers its instructions use. *)
Theorem stack_covers_registers (strtod : list byte -> Z * nat) (c : BuilderCall) :
  c <> PushNil -> c <> PushMultiple [] -> call_fits c ->
  exists p,
    read_module (build strtod c)
    = Some (header_of_bytes (build strtod c), module_of strtod c)
    /\ protos (module_of strtod c) = [p]
    /\ maxstacksize p >= registers_needed (code p).
Proof.
  intros Hnil Hempty Hfits.
  destruct c as [|value|value|value|a h|values|values]; try contradiction.
  - eexists. split; [now apply read_build|]. split; [reflexivity|].
    destruct value; vm_compute; discriminate.
  - eexists. split; [now apply read_build|]. split; [reflexivity|].
    vm_compute. discriminate.
  - eexists. split; [now apply read_build|]. split; [reflexivity|].
    vm_compute. discriminate.
  - eexists. split; [now apply read_build|]. split; [reflexivity|].
    cbn [table_module builder_module protos]. apply Z.le_ge.
    apply registers_needed_le; [cbn; lia|].
    cbn [builder_proto code flat_map registers instr opcode operands app nth].
    intros r Hr. change (LOP_NEWTABLE =? LOP_MOVE) with false in Hr.
    change (LOP_NEWTABLE =? LOP_SETTABLE) with false in Hr.
    cbn [In] in Hr. destruct Hr as [<-|[]]. cbn. lia.
  - destruct values as [|v vs].
    { eexists. split; [now apply read_build|]. split; [reflexivity|].
      vm_compute. discriminate. }
    eexists. split; [now apply read_build|]. split; [reflexivity|].
    set (values := v :: vs) in *. pose proof (size_nonneg values) as Hnn.
    cbn [builder_proto maxstacksize code]. apply Z.le_ge.
    apply registers_needed_le; [lia|].
    intros r Hr. cbn [flat_map] in Hr. rewrite flat_map_app in Hr.
    apply in_app_or in Hr. destruct Hr as [Hr|Hr];
      [|apply in_app_or in Hr; destruct Hr as [Hr|Hr]].
    + cbn in Hr. destruct Hr as [<-|[]]. cbn. lia.
    + apply in_flat_map in Hr. destruct Hr as (ins & Hins & Hr).
      apply in_map_iff in Hins. destruct Hins as (i & <- & Hi).
      apply in_map_iff in Hi. destruct Hi as (k & <- & Hk).
      apply in_seq in Hk. cbn in Hr. destruct Hr as [<-|[]].
      pose proof (unsigned_u8_le (Z.of_nat k + 1) ltac:(lia)).
      fold (u8 (Z.of_nat k + 1)). unfold size. lia.
    + cbn in Hr. destruct Hr as [<-|[]]. cbn. lia.
  - destruct values as [|v vs]; [contradiction|].
    eexists. split; [now apply read_build|]. split; [reflexivity|].
    set (values := v :: vs) in *. pose proof (size_nonneg values) as Hnn.
    cbn [builder_proto maxstacksize code]. apply Z.le_ge.
    apply registers_needed_le; [lia|].
    intros r Hr. apply multiple_code_registers in Hr; lia.
Qed.

(** ** The scenario [CreatePushNumber(3.14159)] *)

(** C8. The double nearest to 3.14159 has the pattern 0x400921F9F01B866E.  The
    buffer [CreatePushNumber] returns for it has header version 2; its pool
    holds exactly one constant, Number-tagged, whose eight raw bytes are that
    pattern least significant byte first; its instruction stream is one LOADN
    into register 0 referring to constant 0; and the buffer validates. *)
Theorem CreatePushNumber_pi :
  let bits := 0x400921F9F01B866E in
  nearest_normal_double bits 314159 100000
  /\ strtod_decimal (text "3.14159"%string) = (bits, 7%nat)
  /\ exists h m p,
       read_module (CreatePushNumber bits) = Some (h, m)
       /\ version h = 2
       /\ constants m = [KNumber bits]
       /\ constant_bytes (KNumber bits)
          = [x02; x6e; x86; x1b; xf0; xf9; x21; x09; x40]
       /\ protos m = [p]
       /\ code p = [instr LOP_LOADN [x00; x00]]
       /\ map constant_ref (code p) = [Some 0]
       /\ ValidateBytecode (CreatePushNumber bits) = true.
Proof.
  cbv zeta. split; [|split].
  - unfold nearest_normal_double. vm_compute. repeat split; discriminate.
  - vm_compute. reflexivity.
  - exists (header_of_bytes (CreatePushNumber 0x400921F9F01B866E)),
           (number_module 0x400921F9F01B866E),
           (builder_proto 1 0 [instr LOP_LOADN [x00; x00]] 1).
    split; [exact (read_build strtod_decimal (PushNumber 0x400921F9F01B866E) I)|].
    repeat split.
Qed.

(** ** [CreatePushMultiple]: constants and load instructions *)

Section MultipleSpec.

Variable strtod : list byte -> Z * nat.

Lemma flat_map_cons_app {A B} (f : A -> list B) (x : A) (l : list A) :
  flat_map f (x :: l) = f x ++ flat_map f l.
Proof. reflexivity. Qed.

(** The instruction of the element that follows [pre]. *)
Lemma multiple_code_nth (base : Z) (v : list byte) (suf : list (list byte)) :
  forall pre i a s,
    nth_error (multiple_code strtod base (pre ++ v :: suf) i a s) (length pre)
    = Some (load_instr strtod base v (i + size pre)
              (a + size (number_values strtod pre))
              (s + size (string_values strtod pre))).
Proof.
  induction pre as [|x pre IH]; intros i a s.
  - cbn [app length multiple_code nth_error].
    change (size (@nil (list byte))) with 0.
    change (size (number_values strtod [])) with 0.
    change (size (string_values strtod [])) with 0.
    now rewrite !Z.add_0_r.
  - cbn [app length multiple_code nth_error].
    unfold number_values, string_values. rewrite !flat_map_cons_app, !size_app.
    fold (number_values strtod pre) (string_values strtod pre).
    replace (size (x :: pre)) with (1 + size pre)
      by (unfold size; cbn [length]; lia).
    destruct (kind_of strtod x); rewrite IH;
      change (size (@nil Z)) with 0; change (size (@nil (list byte))) with 0;
      change (size [?y]) with 1; f_equal; f_equal; lia.
Qed.

Lemma nth_error_firstn_split {A} (l : list A) (j : nat) (v : A) :
  nth_error l j = Some v ->
  exists suf, l = firstn j l ++ v :: suf /\ length (firstn j l) = j.
Proof.
  intros H. destruct (nth_error_split l j H) as (l1 & l2 & -> & <-).
  exists l2. rewrite firstn_app, Nat.sub_diag, firstn_all, firstn_O, app_nil_r.
  split; reflexivity.
Qed.

(** The instruction at position [j] is the load of element [j]. *)
Lemma multiple_code_at (base : Z) (values : list (list byte)) (j : nat)
      (v : list byte) :
  nth_error values j = Some v ->
  nth_error (multiple_code strtod base values 0 0 0) j
  = Some (load_instr strtod base v (Z.of_nat j)
            (size (number_values strtod (firstn j values)))
            (size (string_values strtod (firstn j values)))).
Proof.
  intros H. destruct (nth_error_firstn_split values j v H) as (suf & Hs & Hl).
  revert Hs Hl. generalize (firstn j values) as pre. intros pre Hs Hl.
  subst values j. rewrite multiple_code_nth. reflexivity.
Qed.

Lemma strings_before (values : list (list byte)) (j : nat) (v : list byte) :
  nth_error values j = Some v -> kind_of strtod v = IsString ->
  size (string_values strtod (firstn j values)) < size (string_values strtod values)
  /\ nth_error (string_values strtod values)
       (length (string_values strtod (firstn j values))) = Some v.
Proof.
  intros H Hk. destruct (nth_error_firstn_split values j v H) as (suf & Hs & _).
  revert Hs. generalize (firstn j values) as pre. intros pre ->.
  assert (E : string_values strtod (pre ++ v :: suf)
              = string_values strtod pre ++ v :: string_values strtod suf).
  { unfold string_values. now rewrite flat_map_app, flat_map_cons_app, Hk. }
  rewrite E. split.
  - rewrite size_app. unfold size. cbn [length]. lia.
  - rewrite nth_error_app2, Nat.sub_diag by lia. reflexivity.
Qed.

Lemma numbers_before (values : list (list byte)) (j : nat) (v : list byte) (n : Z) :
  nth_error values j = Some v -> kind_of strtod v = IsNumber n ->
  size (number_values strtod (firstn j values)) < size (number_values strtod values).
Proof.
  intros H Hk. destruct (nth_error_firstn_split values j v H) as (suf & Hs & _).
  revert Hs. generalize (firstn j values) as pre. intros pre ->.
  assert (E : number_values strtod (pre ++ v :: suf)
              = number_values strtod pre ++ n :: number_values strtod suf).
  { unfold number_values. now rewrite flat_map_app, flat_map_cons_app, Hk. }
  rewrite E, size_app. unfold size. cbn [length]. lia.
Qed.

Lemma constants_number_at (values : list (list byte)) (k : Z) :
  0 <= k < size (number_values strtod values) ->
  exists c, nth_error (multiple_constants strtod values) (Z.to_nat k) = Some c
            /\ is_boolean_constant c = false.
Proof.
  intros Hk. unfold multiple_constants.
  assert (Hlt : (Z.to_nat k < length (number_values strtod values))%nat)
    by (unfold size in Hk; lia).
  rewrite nth_error_app1 by (now rewrite length_map).
  rewrite nth_error_map.
  destruct (nth_error (number_values strtod values) (Z.to_nat k)) as [n|] eqn:E.
  - eexists. split; reflexivity.
  - apply nth_error_None in E. lia.
Qed.

Lemma constants_string_at (values : list (list byte)) (k : nat) (v : list byte) :
  nth_error (string_values strtod values) k = Some v ->
  nth_error (multiple_constants strtod values)
    (Z.to_nat (size (number_values strtod values)
               + size (boolean_values strtod values) + Z.of_nat k))
  = Some (KString v).
Proof.
  intros H. unfold multiple_constants, size.
  replace (Z.to_nat (Z.of_nat (length (number_values strtod values))
                     + Z.of_nat (length (boolean_values strtod values))
                     + Z.of_nat k))
    with (length (map (fun n => KNumber (n mod 2 ^ 64)) (number_values strtod values))
          + (length (map KBoolean (boolean_values strtod values)) + k))%nat
    by (rewrite !length_map; lia).
  rewrite nth_error_app2, Nat.add_comm, Nat.add_sub by lia.
  rewrite nth_error_app2, Nat.add_comm, Nat.add_sub by lia.
  now rewrite nth_error_map, H.
Qed.

Lemma filter_boolean_constants (values : list (list byte)) :
  filter is_boolean_constant (multiple_constants strtod values)
  = map KBoolean (boolean_values strtod values).
Proof.
  unfold multiple_constants. rewrite !filter_app.
  assert (H1 : forall l, filter is_boolean_constant
                           (map (fun n => KNumber (n mod 2 ^ 64)) l) = [])
    by (induction l; [reflexivity|assumption]).
  assert (H2 : forall l, filter is_boolean_constant (map KBoolean l) = map KBoolean l)
    by (induction l as [|b l IH]; [reflexivity|cbn; now rewrite IH]).
  assert (H3 : forall l, filter is_boolean_constant (map KString l) = [])
    by (induction l; [reflexivity|assumption]).
  now rewrite H1, H2, H3, app_nil_r.
Qed.

End MultipleSpec.

Lemma constant_ref_load (op : Z) (a b : byte) :
  op = LOP_LOADN \/ op = LOP_LOADK ->
  constant_ref (instr op [a; b]) = Some (byte.unsigned b).
Proof. intros [-> | ->]; reflexivity. Qed.

(** C9 (within the operand width). For every non-empty list of at most 256
    elements, the buffer of [CreatePushMultiple] declares as many constants as
    there are elements; its pool holds one
    Boolean-tagged entry per boolean element, whose LOADB carries the value
    inline; no instruction refers to a Boolean entry; and the LOADK of a string
    element refers to index (numbers + booleans + position among the strings),
    where that string is stored. *)
Theorem CreatePushMultiple_spec (strtod : list byte -> Z * nat)
        (values : list (list byte)) :
  values <> [] -> (length values <= 256)%nat ->
  multiple_spec strtod values.
Proof.
  intros Hne Hlen.
  destruct values as [|v0 vs]; [contradiction|].
  set (values := v0 :: vs) in *.
  pose proof (kinds_partition strtod values) as Hpart.
  pose proof (size_multiple_constants strtod values) as Hsz.
  pose proof (size_nonneg (number_values strtod values)) as HN.
  pose proof (size_nonneg (boolean_values strtod values)) as HB.
  pose proof (size_nonneg (string_values strtod values)) as HS.
  assert (Hn : size values <= 256) by (unfold size; lia).
  set (base := size (number_values strtod values)
               + size (boolean_values strtod values)) in *.
  exists (multiple_module strtod values),
         (builder_proto (size values) 0 (multiple_code strtod base values 0 0 0)
            (size (multiple_constants strtod values))).
  split; [apply CreatePushMultiple_serialises|].
  split; [intros Hfit; apply (read_build strtod (PushMultiple values));
          split; [lia|exact Hfit]|].
  split; [reflexivity|].
  cbn [multiple_module values builder_module constantCount constants
       builder_proto code].
  fold values.
  split; [lia|]. split; [lia|].
  split; [apply filter_boolean_constants|].
  split; [|split].
  - (* boolean elements *)
    intros j v b Hj Hk. eexists. split; [apply multiple_code_at, Hj|].
    unfold load_instr. rewrite Hk. repeat split.
  - (* no reference to a Boolean entry *)
    intros ins k Hin Hc. apply In_nth_error in Hin as [j Hj].
    assert (Hjlt : (j < length values)%nat).
    { pose proof (size_multiple_code strtod base values 0 0 0) as Hcl.
      unfold size in Hcl. apply Nat2Z.inj in Hcl. rewrite <- Hcl.
      apply nth_error_Some. congruence. }
    destruct (nth_error values j) as [v|] eqn:Hv;
      [|apply nth_error_None in Hv; lia].
    rewrite (multiple_code_at strtod base values j v Hv) in Hj.
    injection Hj as <-. unfold load_instr in Hc.
    destruct (kind_of strtod v) as [b|n|] eqn:Hk.
    + discriminate Hc.
    + pose proof (numbers_before strtod values j v n Hv Hk) as Hlt.
      pose proof (size_nonneg (number_values strtod (firstn j values))).
      rewrite constant_ref_load in Hc by now left.
      rewrite unsigned_u8_small in Hc by lia. injection Hc as <-.
      apply constants_number_at. lia.
    + destruct (strings_before strtod values j v Hv Hk) as [Hlt Hnth].
      pose proof (size_nonneg (string_values strtod (firstn j values))).
      rewrite constant_ref_load in Hc by now right.
      rewrite unsigned_u8_small in Hc by lia. injection Hc as <-.
      exists (KString v). split; [|reflexivity].
      apply (constants_string_at strtod values _ v Hnth).
  - (* string elements *)
    intros j v Hj Hk. cbv zeta.
    destruct (strings_before strtod values j v Hj Hk) as [Hlt Hnth].
    pose proof (size_nonneg (string_values strtod (firstn j values))).
    eexists. split; [apply multiple_code_at, Hj|].
    unfold load_instr. rewrite Hk. split; [reflexivity|]. split.
    + rewrite constant_ref_load by now right.
      now rewrite unsigned_u8_small by lia.
    + apply (constants_string_at strtod values _ v Hnth).
Qed.

Lemma CreatePushMultiple_spec_witness :
  multiple_spec strtod_decimal
    [text "player1"%string; text "100"%string; text "true"%string;
     text "3.14"%string].
Proof.
  apply CreatePushMultiple_spec.
  - discriminate.
  - vm_compute. repeat constructor.
Defined.

Lemma multiple_module_cons (strtod : list byte -> Z * nat) (v : list byte)
      (vs : list (list byte)) :
  protos (multiple_module strtod (v :: vs))
  = [builder_proto (size (v :: vs)) 0
       (multiple_code strtod
          (size (number_values strtod (v :: vs))
           + size (boolean_values strtod (v :: vs))) (v :: vs) 0 0 0)
       (size (multiple_constants strtod (v :: vs)))].
Proof. reflexivity. Qed.

(** C9 as stated fails on a list of 257 elements, ["true"] followed by 256
    times ["a"]: the LOADK of the last string should refer to constant
    0 + 1 + 255 = 256, but its operand byte holds 0, the index of the Boolean
    entry. *)
Lemma CreatePushMultiple_index_wraps :
  ~ multiple_spec strtod_decimal (text "true"%string :: repeat (text "a"%string) 256).
Proof.
  intros (m & p & _ & Hread & Hp & _ & _ & _ & _ & _ & Hstr).
  assert (Hfits : call_fits (PushMultiple (text "true"%string :: repeat (text "a"%string) 256))).
  { split; [vm_compute; reflexivity|].
    apply Forall_forall. intros v [<-|Hv]; [vm_compute; reflexivity|].
    apply repeat_spec in Hv. subst v. vm_compute. reflexivity. }
  specialize (Hread (proj2 Hfits)).
  pose proof (read_build strtod_decimal _ Hfits) as Hrb.
  cbn [build module_of] in Hrb.
  assert (Hm : m = multiple_module strtod_decimal
                     (text "true"%string :: repeat (text "a"%string) 256))
    by congruence.
  subst m. rewrite multiple_module_cons in Hp.
  assert (Hpe : p = builder_proto
                      (size (text "true"%string :: repeat (text "a"%string) 256)) 0
       (multiple_code strtod_decimal
          (size (number_values strtod_decimal (text "true"%string :: repeat (text "a"%string) 256))
           + size (boolean_values strtod_decimal (text "true"%string :: repeat (text "a"%string) 256))) (text "true"%string :: repeat (text "a"%string) 256) 0 0 0)
       (size (multiple_constants strtod_decimal (text "true"%string :: repeat (text "a"%string) 256))))
    by congruence.
  subst p. clear Hread Hrb Hp.
  specialize (Hstr 256%nat (text "a"%string)).
  destruct Hstr as (ins & Hins & _ & Href & _).
  - vm_compute. reflexivity.
  - vm_compute. reflexivity.
  - cbn [builder_proto code] in Hins.
    vm_compute in Hins. injection Hins as <-.
    vm_compute in Href. discriminate Href.
Qed.

(** ** [Compile] *)

Lemma bytes_eqb_eq (a b : list byte) : bytes_eqb a b = true <-> a = b.
Proof.
  revert b. induction a as [|x a IH]; intros [|y b]; cbn [bytes_eqb];
    try (split; [discriminate|discriminate]); [split; reflexivity|].
  rewrite andb_true_iff, byte_eqb_eq, IH. split.
  - now intros [-> ->].
  - intros H. injection H as -> ->. now split.
Qed.

Lemma starts_with_split (p s : list byte) :
  starts_with p s = true -> s = p ++ skipn (length p) s.
Proof.
  revert s. induction p as [|a p IH]; intros s H; [reflexivity|].
  destruct s as [|b s]; [discriminate H|].
  cbn [starts_with] in H. apply andb_true_iff in H as [Hab Hp].
  apply byte_eqb_eq in Hab. subst b. cbn [length skipn app]. f_equal. now apply IH.
Qed.

(** A string without NUL is its own C string, and none of its characters is
    the terminator. *)
Lemma c_string_fixed_nth (s : list byte) (k : nat) :
  c_string s = s -> (k < length s)%nat -> nth k s x00 <> x00.
Proof.
  revert k. induction s as [|b s IH]; intros k Hc Hk; cbn [length] in Hk; [lia|].
  cbn [c_string] in Hc. destruct (Byte.eqb b x00) eqn:Hb; [discriminate Hc|].
  injection Hc as Hc. destruct k as [|k]; cbn [nth].
  - intros ->. now rewrite byte_eqb_refl in Hb.
  - apply IH; [exact Hc|lia].
Qed.

Lemma quoted_shape (value : list byte) :
  2 <= size value -> nth 0 value x00 = x22 -> last value x00 = x22 ->
  double_quoted value.
Proof.
  intros Hsz Hfirst Hlast. unfold size in Hsz.
  destruct value as [|a rest]; cbn [length] in Hsz; [lia|].
  cbn [nth] in Hfirst. subst a.
  destruct (exists_last (l := rest)) as (body & z & ->).
  { intros ->. cbn [length] in Hsz. lia. }
  change (x22 :: body ++ [z]) with ((x22 :: body) ++ [z]) in Hlast.
  rewrite last_last in Hlast. subst z. now exists body.
Qed.

(** On an input without NUL that is not of the recognised form, [Compile]
    falls back to [CreatePushNil()], for every [strtod] whose end pointer
    stays within its argument. *)
Lemma Compile_fallback (strtod : list byte -> Z * nat) (source : list byte) :
  (forall s, (snd (strtod s) <= length s)%nat) ->
  c_string source = source ->
  ~ return_literal strtod source ->
  Compile strtod source = CreatePushNil.
Proof.
  intros Hend Hnul Hnot. unfold Compile.
  destruct (starts_with _ source) eqn:Hpre; [|reflexivity].
  apply starts_with_split in Hpre. change (length (text "return "%string)) with 7%nat in Hpre.
  set (value := skipn 7 source) in *.
  assert (Hlit : forall lit_ok : Prop,
             (lit_ok -> (value = text "nil"%string \/ value = text "true"%string
                         \/ value = text "false"%string
                         \/ fully_parsed strtod value \/ double_quoted value)) ->
             ~ lit_ok).
  { intros lit_ok H Hok. apply Hnot. exists value. split; [exact Hpre|now apply H]. }
  destruct (bytes_eqb value (text "nil"%string)) eqn:E1; [reflexivity|].
  destruct (bytes_eqb value (text "true"%string)) eqn:E2.
  { exfalso. apply bytes_eqb_eq in E2. apply (Hlit True); auto. }
  destruct (bytes_eqb value (text "false"%string)) eqn:E3.
  { exfalso. apply bytes_eqb_eq in E3. apply (Hlit True); auto. }
  assert (Hvnul : c_string value = value).
  { rewrite Hpre in Hnul. clearbody value. clear -Hnul.
    cbn in Hnul. repeat (injection Hnul as Hnul). exact Hnul. }
  destruct (parse_number strtod value) as [num|] eqn:E4.
  { exfalso. unfold parse_number in E4. rewrite Hvnul in E4.
    destruct (strtod value) as [n consumed] eqn:Es.
    destruct (negb (consumed =? 0)%nat) eqn:Ec; [|discriminate E4].
    destruct (Byte.eqb (nth consumed (c_str value) x00) x00) eqn:Ez; [|discriminate E4].
    apply byte_eqb_eq in Ez. apply negb_true_iff, Nat.eqb_neq in Ec.
    pose proof (Hend value) as Hle. rewrite Es in Hle. cbn [snd] in Hle.
    apply (Hlit True); [|exact I]. intros _. right. right. right. left.
    unfold fully_parsed. rewrite Es. cbn [snd]. repeat split; [exact Hvnul|exact Ec|].
    destruct (Nat.eq_dec consumed (length value)) as [|Hne]; [assumption|].
    exfalso. apply (c_string_fixed_nth value consumed Hvnul); [lia|].
    unfold c_str in Ez. rewrite app_nth1 in Ez by lia. exact Ez. }
  match goal with |- (if ?c then _ else _) = _ => destruct c eqn:E5 end;
    [|reflexivity].
  exfalso. apply andb_true_iff in E5 as [E5 Hl]. apply andb_true_iff in E5 as [Hs Hf].
  apply Z.leb_le in Hs. apply byte_eqb_eq in Hf, Hl.
  apply (Hlit True); [|exact I]. intros _. right. right. right. right.
  now apply quoted_shape.
Qed.

(** The literals [Compile] recognises go to the matching builder. *)
Lemma Compile_keywords (strtod : list byte -> Z * nat) :
  Compile strtod (text "return nil"%string) = CreatePushNil
  /\ Compile strtod (text "return true"%string) = CreatePushBoolean true
  /\ Compile strtod (text "return false"%string) = CreatePushBoolean false.
Proof. repeat split. Qed.

Lemma CreatePushNumber_not_nil (value : Z) : CreatePushNumber value <> CreatePushNil.
Proof.
  intros H. apply (f_equal (@size byte)) in H.
  rewrite size_CreatePushNumber in H. vm_compute in H. discriminate H.
Qed.

(** C6. The input [return 1], a NUL, [x] is not of the recognised form, yet
    [Compile] answers with the buffer of [CreatePushNumber(1.0)], not with that
    of [CreatePushNil()]: [strtod] stops at the embedded NUL, where
    [*end == 0] holds.  Stated for every [strtod] that converts the text [1] in
    full. *)
Theorem Compile_embedded_nul (strtod : list byte -> Z * nat) (one : Z) :
  strtod (text "1"%string) = (one, 1%nat) ->
  let source := text "return 1"%string ++ [x00] ++ text "x"%string in
  ~ return_literal strtod source
  /\ Compile strtod source = CreatePushNumber one
  /\ Compile strtod source <> CreatePushNil.
Proof.
  intros Hone source.
  assert (Hc : Compile strtod source = CreatePushNumber one).
  { unfold Compile, source. cbn [text String.list_byte_of_string app].
    change (starts_with _ _) with true. cbv iota.
    change (skipn 7 _) with ["1"%byte; x00; "x"%byte].
    change (bytes_eqb _ (text "nil"%string)) with false.
    change (bytes_eqb _ (text "true"%string)) with false.
    change (bytes_eqb _ (text "false"%string)) with false.
    cbv iota. unfold parse_number.
    change (c_string ["1"%byte; x00; "x"%byte]) with (text "1"%string).
    rewrite Hone. reflexivity. }
  split; [|split; [exact Hc|rewrite Hc; apply CreatePushNumber_not_nil]].
  intros (lit & Hsrc & Hlit).
  assert (Hl : lit = ["1"%byte; x00; "x"%byte]).
  { unfold source in Hsrc.
    change (text "return 1"%string ++ [x00] ++ text "x"%string)
      with (text "return "%string ++ ["1"%byte; x00; "x"%byte]) in Hsrc.
    apply app_inv_head in Hsrc. now symmetry. }
  subst lit.
  destruct Hlit as [H|[H|[H|[H|H]]]]; try discriminate H.
  - destruct H as [H _]. discriminate H.
  - destruct H as [body H]. injection H as H.
    destruct body as [|b0 [|b1 [|b2 body]]]; discriminate H.
Qed.

Lemma Compile_embedded_nul_witness :
  ~ return_literal strtod_decimal (text "return 1"%string ++ [x00] ++ text "x"%string)
  /\ Compile strtod_decimal (text "return 1"%string ++ [x00] ++ text "x"%string)
     = CreatePushNumber 0x3FF0000000000000
  /\ Compile strtod_decimal (text "return 1"%string ++ [x00] ++ text "x"%string)
     <> CreatePushNil.
Proof.
  apply (Compile_embedded_nul strtod_decimal 0x3FF0000000000000).
  vm_compute. reflexivity.
Defined.

(** C4 as stated fails on a string of 2^32 characters: the size field holds the
    payload length modulo 2^32, which [ValidateBytecode] compares with the full
    length, so the buffer [CreatePushString] returns for it is rejected. *)
Lemma CreatePushString_four_GiB_rejected :
  ValidateBytecode (CreatePushString four_GiB_string) = false.
Proof.
  apply CreatePushString_oversize. rewrite size_four_GiB_string. lia.
Qed.

(** C5 as stated fails on the same string: the header's size field differs
    from the buffer length minus the header size. *)
Lemma CreatePushString_four_GiB_size_field :
  hsize (header_of_bytes (CreatePushString four_GiB_string))
  <> size (CreatePushString four_GiB_string) - sizeof_header.
Proof.
  apply CreatePushString_oversize. rewrite size_four_GiB_string. lia.
Qed.

(** ** Size hints of [CreatePushTable]: what reaches the buffer *)

Lemma CreatePushTable_hint_bytes (arraySize hashSize : Z) :
  nth 21 (CreatePushTable arraySize hashSize) x00 = u8 (Z.land arraySize 0xFF)
  /\ nth 22 (CreatePushTable arraySize hashSize) x00 = u8 (Z.land hashSize 0xFF).
Proof.
  rewrite CreatePushTable_serialises, module_buffer_patched.
  split; reflexivity.
Qed.

Lemma unsigned_u8_land (z : Z) : byte.unsigned (u8 (Z.land z 0xFF)) = z mod 256.
Proof. rewrite unsigned_u8, land_0xFF. apply Z.mod_mod. lia. Qed.

(** C10. [CreatePushTable] encodes the low eight bits of each size hint, and
    only those.  The buffer is 29 bytes long; its bytes 21 and 22, the second
    and third operand of the NEWTABLE instruction that the buffer reads back
    to, hold [arraySize mod 256] and [hashSize mod 256].  Two calls return the
    same buffer exactly when their hints agree modulo 256; so reducing either
    hint modulo 256 (with the mathematical remainder or with the truncating
    remainder of C++) leaves the buffer unchanged, and
    [CreatePushTable(256, 0)] equals [CreatePushTable(0, 0)]. *)
Theorem CreatePushTable_low_bits (arraySize hashSize : Z) :
  CreatePushTable arraySize hashSize
    = CreatePushTable (arraySize mod 256) (hashSize mod 256)
  /\ CreatePushTable arraySize hashSize
    = CreatePushTable (Z.rem arraySize 256) (Z.rem hashSize 256)
  /\ CreatePushTable 256 0 = CreatePushTable 0 0
  /\ size (CreatePushTable arraySize hashSize) = 29
  /\ byte.unsigned (nth 21 (CreatePushTable arraySize hashSize) x00)
     = arraySize mod 256
  /\ byte.unsigned (nth 22 (CreatePushTable arraySize hashSize) x00)
     = hashSize mod 256
  /\ (exists p,
        read_module (CreatePushTable arraySize hashSize)
        = Some (header_of_bytes (CreatePushTable arraySize hashSize),
                builder_module [] p)
        /\ code p
           = [instr LOP_NEWTABLE
                [x00; nth 21 (CreatePushTable arraySize hashSize) x00;
                 nth 22 (CreatePushTable arraySize hashSize) x00]])
  /\ (forall arraySize' hashSize',
        CreatePushTable arraySize hashSize = CreatePushTable arraySize' hashSize'
        <-> arraySize mod 256 = arraySize' mod 256
            /\ hashSize mod 256 = hashSize' mod 256).
Proof.
  assert (Hmod : forall a h,
             CreatePushTable a h = CreatePushTable (a mod 256) (h mod 256)).
  { intros a h. unfold CreatePushTable. now rewrite !land_0xFF_mod. }
  destruct (CreatePushTable_hint_bytes arraySize hashSize) as [Ha Hh].
  split; [apply Hmod|].
  split; [unfold CreatePushTable; now rewrite !land_0xFF_rem|].
  split; [reflexivity|]. split; [reflexivity|].
  split; [rewrite Ha; apply unsigned_u8_land|].
  split; [rewrite Hh; apply unsigned_u8_land|].
  split.
  - eexists. split.
    + exact (read_build strtod_decimal (PushTable arraySize hashSize) I).
    + rewrite Ha, Hh. reflexivity.
  - intros a' h'. split.
    + intros E. destruct (CreatePushTable_hint_bytes a' h') as [Ha' Hh'].
      rewrite E in Ha, Hh. rewrite Ha' in Ha. rewrite Hh' in Hh.
      apply (f_equal byte.unsigned) in Ha, Hh.
      rewrite !unsigned_u8_land in Ha, Hh. now split.
    + intros [E1 E2]. rewrite (Hmod arraySize hashSize), (Hmod a' h').
      now rewrite E1, E2.
Qed.

(** * Further properties of the program *)

(** ** The varint writer *)

Lemma writeVarInt_loop_shape (fuel : nat) :
  forall v, 0 <= v < 2 ^ (7 * Z.of_nat (S fuel)) ->
    exists bs last,
      writeVarInt_loop (S fuel) v [] = bs ++ [last]
      /\ (length bs <= fuel)%nat
      /\ Forall (fun b => 128 <= byte.unsigned b) bs
      /\ byte.unsigned last < 128
      /\ v < 2 ^ (7 * (size bs + 1))
      /\ (bs <> [] -> 2 ^ (7 * size bs) <= v).
Proof.
  induction fuel as [|fuel IH]; intros v Hv; rewrite writeVarInt_loop_step.
  - change (2 ^ (7 * Z.of_nat 1)) with 128 in Hv.
    rewrite Z.div_small, Z.mod_small by lia. cbn [Z.eqb].
    exists [], (u8 v). rewrite unsigned_u8_small by lia.
    repeat split; auto; try (cbn; lia). intros H. now elim H.
  - pose proof (Z.mod_pos_bound v 128 ltac:(lia)) as Hm.
    pose proof (Z.div_mod v 128 ltac:(lia)) as Hdm.
    destruct (v / 128 =? 0) eqn:Hq.
    + apply Z.eqb_eq in Hq. exists [], (u8 (v mod 128)).
      rewrite unsigned_u8_small by lia.
      repeat split; auto; try (cbn; lia). intros H. now elim H.
    + apply Z.eqb_neq in Hq.
      assert (Hr : 0 <= v / 128 < 2 ^ (7 * Z.of_nat (S fuel))).
      { split; [apply Z.div_pos; lia|].
        apply Z.div_lt_upper_bound; [lia|].
        replace (7 * Z.of_nat (S (S fuel))) with (7 + 7 * Z.of_nat (S fuel)) in Hv by lia.
        rewrite Z.pow_add_r in Hv by lia. exact (proj2 Hv). }
      destruct (IH (v / 128) Hr) as (bs & last & Hw & Hlen & Hall & Hlast & Hup & Hlow).
      exists (u8 (v mod 128 + 128) :: bs), last. rewrite Hw.
      pose proof (size_nonneg bs) as Hnn.
      replace (size (u8 (v mod 128 + 128) :: bs)) with (size bs + 1)
        by (unfold size; cbn [length]; lia).
      repeat split.
      * cbn [length]. lia.
      * constructor; [|exact Hall]. rewrite unsigned_u8_small; lia.
      * exact Hlast.
      * replace (7 * (size bs + 1 + 1)) with (7 + 7 * (size bs + 1)) by lia.
        rewrite Z.pow_add_r by lia. change (2 ^ 7) with 128. lia.
      * intros _. replace (7 * (size bs + 1)) with (7 + 7 * size bs) by lia.
        rewrite Z.pow_add_r by lia. change (2 ^ 7) with 128.
        destruct bs as [|b bs'].
        -- change (size []) with 0. change (2 ^ (7 * 0)) with 1. lia.
        -- assert (2 ^ (7 * size (b :: bs')) <= v / 128) by (apply Hlow; discriminate).
           lia.
Qed.

(** [writeVarInt] leaves the vector it is given in place and appends between
    one and five bytes: continuation bytes with bit 7 set, then one final
    byte with bit 7 clear.  The encoding is the shortest one: the value, as a
    [uint32_t], needs exactly that many groups of seven bits. *)
Theorem writeVarInt_shape (value : Z) (out : list byte) :
  exists bs last,
    writeVarInt value out = out ++ bs ++ [last]
    /\ (length bs <= 4)%nat
    /\ Forall (fun b => 128 <= byte.unsigned b) bs
    /\ byte.unsigned last < 128
    /\ u32 value < 2 ^ (7 * (size bs + 1))
    /\ (bs <> [] -> 2 ^ (7 * size bs) <= u32 value).
Proof.
  assert (Hv : 0 <= u32 value < 2 ^ (7 * Z.of_nat 5)).
  { unfold u32. pose proof (Z.mod_pos_bound value (2 ^ 32) ltac:(lia)).
    change (2 ^ (7 * Z.of_nat 5)) with (2 ^ 35). lia. }
  destruct (writeVarInt_loop_shape 4 (u32 value) Hv)
    as (bs & last & Hw & Hlen & Hall & Hlast & Hup & Hlow).
  exists bs, last. split; [|now repeat split].
  rewrite appends_writeVarInt. unfold writeVarInt. now rewrite Hw.
Qed.

(** The encoding is self-delimiting: when two written varints, each followed
    by arbitrary bytes, give the same byte sequence, the values agree as
    [uint32_t] and so do the bytes that follow. *)
Theorem writeVarInt_prefix_free (a b : Z) (rest_a rest_b : list byte) :
  writeVarInt a [] ++ rest_a = writeVarInt b [] ++ rest_b ->
  u32 a = u32 b /\ rest_a = rest_b.
Proof.
  intros H. apply (f_equal read_varint) in H.
  change (writeVarInt a []) with (varint a) in H.
  change (writeVarInt b []) with (varint b) in H.
  rewrite !read_varint_varint in H. injection H as Hv Hr. now split.
Qed.

Lemma writeVarInt_prefix_free_witness :
  u32 300 = u32 (300 + 2 ^ 32) /\ [x07] = [x07].
Proof.
  apply (writeVarInt_prefix_free 300 (300 + 2 ^ 32) [x07] [x07]).
  reflexivity.
Defined.

(** ** The checksum *)

Lemma lxor_range (a b : Z) :
  0 <= a < 2 ^ 32 -> 0 <= b < 2 ^ 32 -> 0 <= Z.lxor a b < 2 ^ 32.
Proof.
  intros Ha Hb. split; [apply Z.lxor_nonneg; lia|].
  destruct (Z.eq_dec (Z.lxor a b) 0) as [->|Hne]; [lia|].
  assert (Hpos : 0 < Z.lxor a b).
  { assert (0 <= Z.lxor a b) by (apply Z.lxor_nonneg; lia). lia. }
  apply Z.log2_lt_pow2; [exact Hpos|].
  pose proof (Z.log2_lxor a b ltac:(lia) ltac:(lia)) as Hl.
  assert (Hla : Z.log2 a < 32).
  { destruct (Z.eq_dec a 0) as [->|]; [cbn; lia|]. apply Z.log2_lt_pow2; lia. }
  assert (Hlb : Z.log2 b < 32).
  { destruct (Z.eq_dec b 0) as [->|]; [cbn; lia|]. apply Z.log2_lt_pow2; lia. }
  lia.
Qed.

Lemma lxor_cancel_l (a b c : Z) : Z.lxor a b = Z.lxor a c -> b = c.
Proof.
  intros H. apply (f_equal (Z.lxor a)) in H.
  now rewrite <- !Z.lxor_assoc, Z.lxor_nilpotent, !Z.lxor_0_l in H.
Qed.

Lemma lxor_cancel_r (a b c : Z) : Z.lxor a c = Z.lxor b c -> a = b.
Proof. rewrite !(Z.lxor_comm _ c). apply lxor_cancel_l. Qed.

(** Multiplication by the FNV prime is invertible modulo 2^32. *)
Lemma mul_prime_inj (a b : Z) :
  0 <= a < 2 ^ 32 -> 0 <= b < 2 ^ 32 ->
  u32 (a * 16777619) = u32 (b * 16777619) -> a = b.
Proof.
  intros Ha Hb H. unfold u32 in H.
  assert (Hinv : forall x, 0 <= x < 2 ^ 32 ->
                   ((x * 16777619) mod 2 ^ 32 * 899433627) mod 2 ^ 32 = x).
  { intros x Hx. rewrite Z.mul_mod_idemp_l by lia.
    replace (x * 16777619 * 899433627) with (x + x * 3513497 * 2 ^ 32) by lia.
    rewrite Z.mod_add by lia. apply Z.mod_small. exact Hx. }
  rewrite <- (Hinv a Ha), <- (Hinv b Hb). now rewrite H.
Qed.

Lemma byte_unsigned_range32 (b : byte) : 0 <= byte.unsigned b < 2 ^ 32.
Proof. pose proof (byte.unsigned_range b). lia. Qed.

Lemma hash_step_inj_acc (h h' : Z) (b : byte) :
  0 <= h < 2 ^ 32 -> 0 <= h' < 2 ^ 32 ->
  hash_step h b = hash_step h' b -> h = h'.
Proof.
  intros Hh Hh' H. unfold hash_step in H.
  apply mul_prime_inj in H; try (apply lxor_range; auto using byte_unsigned_range32).
  now apply lxor_cancel_r in H.
Qed.

Lemma hash_step_inj_byte (h : Z) (x y : byte) :
  0 <= h < 2 ^ 32 -> hash_step h x = hash_step h y -> x = y.
Proof.
  intros Hh H. unfold hash_step in H.
  apply mul_prime_inj in H; try (apply lxor_range; auto using byte_unsigned_range32).
  apply lxor_cancel_l in H. now apply byte.unsigned_inj.
Qed.

Lemma fold_hash_range (data : list byte) :
  forall acc, 0 <= acc < 2 ^ 32 -> 0 <= fold_left hash_step data acc < 2 ^ 32.
Proof.
  induction data as [|b data IH]; intros acc Hacc; cbn [fold_left]; [assumption|].
  apply IH, hash_step_range.
Qed.

Lemma fold_hash_inj (data : list byte) :
  forall h h', 0 <= h < 2 ^ 32 -> 0 <= h' < 2 ^ 32 ->
    fold_left hash_step data h = fold_left hash_step data h' -> h = h'.
Proof.
  induction data as [|b data IH]; intros h h' Hh Hh' H; cbn [fold_left] in H;
    [assumption|].
  apply IH in H; try apply hash_step_range.
  now apply hash_step_inj_acc in H.
Qed.

Lemma hashBytecode_inj_at (pre post : list byte) (x y : byte) :
  hashBytecode (pre ++ x :: post) = hashBytecode (pre ++ y :: post) -> x = y.
Proof.
  intros H. unfold hashBytecode in H.
  rewrite !fold_left_app in H. cbn [fold_left] in H.
  assert (Hr : 0 <= fold_left hash_step pre 2166136261 < 2 ^ 32)
    by (apply fold_hash_range; lia).
  apply fold_hash_inj in H; try apply hash_step_range.
  now apply hash_step_inj_byte in H.
Qed.

(** The checksum tells apart any two byte sequences that differ in exactly
    one position: each round is a bijection of the 32-bit state (an XOR with
    the byte, then a multiplication by an odd constant), and an injection of
    the byte. *)
Theorem hashBytecode_single_byte (pre post : list byte) (x y : byte) :
  x <> y -> hashBytecode (pre ++ x :: post) <> hashBytecode (pre ++ y :: post).
Proof.
  intros Hxy H. apply Hxy. revert H. apply hashBytecode_inj_at.
Qed.

Lemma hashBytecode_single_byte_witness :
  hashBytecode (text "ab"%string ++ "c"%byte :: text "de"%string)
  <> hashBytecode (text "ab"%string ++ "x"%byte :: text "de"%string).
Proof.
  apply hashBytecode_single_byte. discriminate.
Defined.

(** ** What [ValidateBytecode] accepts *)

Lemma byte_unsigned_2 (b : byte) : byte.unsigned b = 2 <-> b = x02.
Proof.
  split; [|now intros ->].
  intros H. apply byte.unsigned_inj. now rewrite H.
Qed.

(** The three tests of [ValidateBytecode], on the fields of the buffer. *)
Lemma ValidateBytecode_fields (b : list byte) :
  ValidateBytecode b = true <->
  12 <= size b
  /\ nth 0 b x00 = x02
  /\ le_combine (firstn 4 (skipn 8 b)) = size b - 12
  /\ le_combine (firstn 4 (skipn 4 b)) = hashBytecode (skipn 12 b).
Proof.
  unfold ValidateBytecode, sizeof_header. cbn [header_of_bytes version hsize hash].
  destruct (size b <? 12) eqn:Hsz.
  { apply Z.ltb_lt in Hsz. split; [discriminate|]. intros [H _]. lia. }
  apply Z.ltb_ge in Hsz.
  destruct (byte.unsigned (nth 0 b x00) =? 2) eqn:Hv; cbn [negb].
  2:{ apply Z.eqb_neq in Hv. split; [discriminate|].
      intros (_ & H & _). apply byte_unsigned_2 in H. contradiction. }
  apply Z.eqb_eq, byte_unsigned_2 in Hv.
  destruct (le_combine (firstn 4 (skipn 8 b)) =? size b - 12) eqn:Hs; cbn [negb].
  2:{ apply Z.eqb_neq in Hs. split; [discriminate|]. intros (_ & _ & H & _).
      contradiction. }
  apply Z.eqb_eq in Hs. rewrite Hs.
  assert (Hp : firstn (Z.to_nat (size b - 12)) (skipn 12 b) = skipn 12 b).
  { apply firstn_all2. rewrite length_skipn. unfold size. lia. }
  rewrite Hp. rewrite Z.eqb_eq. intuition.
Qed.

(** [ValidateBytecode] accepts exactly the buffers made of the version byte
    2, three bytes of any value (flags, typesize, numbersize), the checksum
    of the rest and the length of the rest, both as 32-bit little-endian
    fields, and a rest of fewer than 2^32 bytes. *)
Theorem ValidateBytecode_accepts (b : list byte) :
  ValidateBytecode b = true <->
  exists fl ts ns payload,
    size payload < 2 ^ 32
    /\ b = [x02; fl; ts; ns] ++ le_split 4 (hashBytecode payload)
           ++ le_split 4 (size payload) ++ payload.
Proof.
  rewrite ValidateBytecode_fields. split.
  - intros (Hsz & Hv & Hs & Hh).
    destruct b as [|b0 [|b1 [|b2 [|b3 [|b4 [|b5 [|b6 [|b7 [|b8 [|b9 [|b10 [|b11 payload]]]]]]]]]]]];
      try (unfold size in Hsz; cbn [length] in Hsz; lia).
    cbn [nth] in Hv. subst b0.
    cbn [skipn firstn] in Hs, Hh.
    exists b1, b2, b3, payload.
    pose proof (le_combine_bound [b8; b9; b10; b11]) as Hb. rewrite Hs in Hb.
    change (2 ^ (8 * Z.of_nat (length [b8; b9; b10; b11]))) with (2 ^ 32) in Hb.
    replace (size (x02 :: b1 :: b2 :: b3 :: b4 :: b5 :: b6 :: b7 :: b8 :: b9
                   :: b10 :: b11 :: payload) - 12)
      with (size payload) in * by (unfold size; cbn [length]; lia).
    split; [lia|].
    rewrite <- Hs, <- Hh.
    rewrite (split_le_combine' [b4; b5; b6; b7] 4 eq_refl).
    rewrite (split_le_combine' [b8; b9; b10; b11] 4 eq_refl).
    reflexivity.
  - intros (fl & ts & ns & payload & Hsz & ->).
    pose proof (size_nonneg payload) as Hnn.
    assert (Hlen : size ([x02; fl; ts; ns] ++ le_split 4 (hashBytecode payload)
                         ++ le_split 4 (size payload) ++ payload)
                   = 12 + size payload).
    { rewrite !size_app. unfold size at 1 2 3. rewrite !length_le_split.
      cbn [length]. lia. }
    rewrite Hlen.
    change (skipn 12 ([x02; fl; ts; ns] ++ le_split 4 (hashBytecode payload)
                      ++ le_split 4 (size payload) ++ payload)) with payload.
    change (firstn 4 (skipn 8 ([x02; fl; ts; ns] ++ le_split 4 (hashBytecode payload)
                      ++ le_split 4 (size payload) ++ payload)))
      with (le_split 4 (size payload)).
    change (firstn 4 (skipn 4 ([x02; fl; ts; ns] ++ le_split 4 (hashBytecode payload)
                      ++ le_split 4 (size payload) ++ payload)))
      with (le_split 4 (hashBytecode payload)).
    rewrite !le_combine_split. change (2 ^ (Z.of_nat 4 * 8)) with (2 ^ 32).
    pose proof (hashBytecode_range payload).
    rewrite !Z.mod_small by lia.
    repeat split; lia.
Qed.

(** Two buffers that differ in the one byte at position [length pre]. *)
Lemma skipn_past_change (pre post : list byte) (x y : byte) (n : nat) :
  (length pre < n)%nat ->
  skipn n (pre ++ x :: post) = skipn n (pre ++ y :: post).
Proof.
  intros Hn. rewrite !skipn_app.
  destruct (n - length pre)%nat as [|j] eqn:Hj; [lia|]. reflexivity.
Qed.

Lemma window_before_change (pre post : list byte) (x y : byte) (n m : nat) :
  (n + m <= length pre)%nat ->
  firstn m (skipn n (pre ++ x :: post)) = firstn m (skipn n (pre ++ y :: post)).
Proof.
  intros Hn. rewrite !skipn_app, !firstn_app, !length_skipn.
  replace (m - (length pre - n))%nat with 0%nat by lia. reflexivity.
Qed.

Lemma window_at_change (pre post : list byte) (x : byte) (n m : nat) :
  (n <= length pre < n + m)%nat ->
  nth (length pre - n) (firstn m (skipn n (pre ++ x :: post))) x00 = x.
Proof.
  intros Hn. rewrite nth_firstn.
  replace (length pre - n <? m)%nat with true by (symmetry; apply Nat.ltb_lt; lia).
  rewrite nth_skipn. replace (n + (length pre - n))%nat with (length pre) by lia.
  apply nth_middle.
Qed.

Lemma size_change (pre post : list byte) (x y : byte) :
  size (pre ++ x :: post) = size (pre ++ y :: post).
Proof. unfold size. rewrite !length_app. reflexivity. Qed.

Lemma window_length (b : list byte) (n : nat) :
  12 <= size b -> (n <= 8)%nat -> length (firstn 4 (skipn n b)) = 4%nat.
Proof.
  intros Hb Hn. unfold size in Hb. rewrite length_firstn, length_skipn. lia.
Qed.

(** A buffer that [ValidateBytecode] accepts is rejected after any change of
    one byte other than the flags, typesize and numbersize bytes: a changed
    version byte fails the version test, a changed size field the length
    test, and a changed checksum field or payload byte the checksum test. *)
Theorem ValidateBytecode_detects_change (pre post : list byte) (x y : byte) :
  ValidateBytecode (pre ++ x :: post) = true -> x <> y ->
  (length pre = 0 \/ 4 <= length pre)%nat ->
  ValidateBytecode (pre ++ y :: post) = false.
Proof.
  intros Hx Hxy Hpos.
  destruct (ValidateBytecode (pre ++ y :: post)) eqn:Hy; [exfalso|reflexivity].
  apply ValidateBytecode_fields in Hx, Hy.
  destruct Hx as (Hsx & Hvx & Hlx & Hhx). destruct Hy as (Hsy & Hvy & Hly & Hhy).
  set (k := length pre) in *.
  assert (Hwin : forall n,
            (n <= k < n + 4)%nat -> (n <= 8)%nat ->
            le_combine (firstn 4 (skipn n (pre ++ x :: post)))
            = le_combine (firstn 4 (skipn n (pre ++ y :: post))) -> x = y).
  { intros n Hk Hn8 H. apply le_combine_inj in H.
    - rewrite <- (window_at_change pre post x n 4 Hk).
      rewrite <- (window_at_change pre post y n 4 Hk). now rewrite H.
    - now rewrite !window_length. }
  destruct Hpos as [H0|H4].
  - destruct pre; [|discriminate H0]. cbn [app nth] in Hvx, Hvy. congruence.
  - destruct (Nat.lt_ge_cases k 8) as [H8|H8];
      [|destruct (Nat.lt_ge_cases k 12) as [H12|H12]].
    + apply Hxy, (Hwin 4%nat); [lia|lia|].
      rewrite Hhx, Hhy. f_equal. apply skipn_past_change. fold k. lia.
    + apply Hxy, (Hwin 8%nat); [lia|lia|].
      rewrite Hlx, Hly. f_equal. apply size_change.
    + rewrite (window_before_change pre post x y 4 4) in Hhx by (fold k; lia).
      rewrite Hhy in Hhx. rewrite !skipn_app in Hhx.
      replace (12 - length pre)%nat with 0%nat in Hhx by (fold k; lia).
      cbn [skipn] in Hhx. symmetry in Hhx.
      now apply hashBytecode_inj_at in Hhx.
Qed.

Lemma ValidateBytecode_detects_change_witness :
  ValidateBytecode
    (firstn 13 CreatePushNil ++ x05 :: skipn 14 CreatePushNil) = false.
Proof.
  apply (ValidateBytecode_detects_change
           (firstn 13 CreatePushNil) (skipn 14 CreatePushNil) x01 x05).
  - vm_compute. reflexivity.
  - discriminate.
  - right. vm_compute. lia.
Defined.

(** The flags, typesize and numbersize bytes are never looked at: changing
    one of them does not change the verdict. *)
Theorem ValidateBytecode_ignores_flags (pre post : list byte) (x y : byte) :
  (1 <= length pre <= 3)%nat ->
  ValidateBytecode (pre ++ y :: post) = ValidateBytecode (pre ++ x :: post).
Proof.
  intros Hk. apply eq_true_iff_eq. rewrite !ValidateBytecode_fields.
  rewrite !(skipn_past_change pre post y x) by lia.
  rewrite (size_change pre post y x).
  rewrite !(app_nth1 pre) by lia. reflexivity.
Qed.

Lemma ValidateBytecode_ignores_flags_witness :
  ValidateBytecode ([x02] ++ xff :: skipn 2 CreatePushNil)
  = ValidateBytecode ([x02] ++ x00 :: skipn 2 CreatePushNil).
Proof.
  apply ValidateBytecode_ignores_flags. cbn. lia.
Defined.

(** ** [Decompress]: a start that is not the magic, and examples *)

Lemma Decompress_version_2 (rest : list byte) :
  Decompress (x02 :: rest) = Returns (x02 :: rest).
Proof.
  unfold Decompress. cbn [nth]. change (Byte.eqb x02 "R"%byte) with false.
  now rewrite andb_false_r.
Qed.

Lemma Decompress_strips_witness :
  Decompress (text "RBX2"%string ++ repeat xff 16 ++ CreatePushNil)
  = Returns CreatePushNil.
Proof.
  apply (Decompress_strips (text "RBX2"%string ++ repeat xff 16 ++ CreatePushNil)).
  - reflexivity.
  - vm_compute. lia.
Defined.

Lemma Decompress_identity_witness :
  Decompress (text "RBX1"%string ++ repeat xff 16 ++ CreatePushNil)
  = Returns (text "RBX1"%string ++ repeat xff 16 ++ CreatePushNil).
Proof.
  apply Decompress_identity. left. vm_compute. discriminate.
Defined.

(** ** The cache *)

Section UnorderedMapFacts.

Context {K V : Type}.
Variable key_eq : K -> K -> bool.

Lemma find_some (m : list (K * V)) (k : K) (v : V) :
  BytecodeCache.find key_eq m k = Some v ->
  exists k', In (k', v) m /\ key_eq k' k = true.
Proof.
  induction m as [|[k' v'] m IH]; cbn [BytecodeCache.find]; [discriminate|].
  destruct (key_eq k' k) eqn:E.
  - intros H. injection H as ->. exists k'. split; [now left|exact E].
  - intros H. destruct (IH H) as (k2 & Hin & Hk). exists k2. split; [now right|exact Hk].
Qed.

Lemma assign_fresh (m : list (K * V)) (k : K) (v : V) :
  BytecodeCache.find key_eq m k = None ->
  BytecodeCache.assign key_eq m k v = m ++ [(k, v)].
Proof.
  induction m as [|[k' v'] m IH]; cbn [BytecodeCache.find BytecodeCache.assign app];
    [reflexivity|].
  destruct (key_eq k' k); [discriminate|]. intros H. now rewrite IH.
Qed.

Lemma find_assigned (m : list (K * V)) (k : K) (v : V) :
  key_eq k k = true ->
  BytecodeCache.find key_eq m k = None ->
  BytecodeCache.find key_eq (BytecodeCache.assign key_eq m k v) k = Some v.
Proof.
  intros Hr. induction m as [|[k' v'] m IH];
    cbn [BytecodeCache.find BytecodeCache.assign].
  - now rewrite Hr.
  - destruct (key_eq k' k) eqn:E; [discriminate|]. intros H.
    cbn [BytecodeCache.find]. rewrite E. now apply IH.
Qed.

End UnorderedMapFacts.

Lemma in_snoc {A} (l : list A) (x y : A) : In y (l ++ [x]) -> In y l \/ y = x.
Proof.
  intros H. apply in_app_or in H. destruct H as [H|[H|[]]]; [now left|now right].
Qed.

Lemma cache_ok_run (c : BytecodeCache.call) (self : BytecodeCache.t) :
  cache_ok self -> cache_ok (BytecodeCache.run c self).
Proof.
  intros (Hb & Hn & Hs & Hi).
  destruct c as [value|value|value|value|]; cbn [BytecodeCache.run].
  - unfold BytecodeCache.getBoolean.
    destruct (BytecodeCache.find _ _ value) eqn:E; cbn [snd]; [now repeat split|].
    repeat split; auto.
    intros k v. cbn [BytecodeCache.boolCache BytecodeCache.numberCache
                     BytecodeCache.stringCache BytecodeCache.integerCache].
    rewrite (assign_fresh _ _ _ _ E). intros H.
    apply in_snoc in H. destruct H as [H|H]; [auto|]. now injection H as -> ->.
  - unfold BytecodeCache.getNumber.
    destruct (BytecodeCache.find _ _ value) eqn:E; cbn [snd]; [now repeat split|].
    repeat split; auto.
    intros k v. cbn [BytecodeCache.boolCache BytecodeCache.numberCache
                     BytecodeCache.stringCache BytecodeCache.integerCache].
    rewrite (assign_fresh _ _ _ _ E). intros H.
    apply in_snoc in H. destruct H as [H|H]; [auto|]. now injection H as -> ->.
  - unfold BytecodeCache.getString.
    destruct (BytecodeCache.find _ _ value) eqn:E; cbn [snd]; [now repeat split|].
    repeat split; auto.
    intros k v. cbn [BytecodeCache.boolCache BytecodeCache.numberCache
                     BytecodeCache.stringCache BytecodeCache.integerCache].
    rewrite (assign_fresh _ _ _ _ E). intros H.
    apply in_snoc in H. destruct H as [H|H]; [auto|]. now injection H as -> ->.
  - unfold BytecodeCache.getInteger.
    destruct (BytecodeCache.find _ _ value) eqn:E; cbn [snd]; [now repeat split|].
    repeat split; auto.
    intros k v. cbn [BytecodeCache.boolCache BytecodeCache.numberCache
                     BytecodeCache.stringCache BytecodeCache.integerCache].
    rewrite (assign_fresh _ _ _ _ E). intros H.
    apply in_snoc in H. destruct H as [H|H]; [auto|]. now injection H as -> ->.
  - repeat split; intros k v [].
Qed.

Lemma cache_ok_after (calls : list BytecodeCache.call) :
  cache_ok (BytecodeCache.after calls).
Proof.
  unfold BytecodeCache.after.
  assert (H : forall c, cache_ok c ->
                cache_ok (fold_left (fun self c => BytecodeCache.run c self) calls c)).
  { induction calls as [|c calls IH]; intros c0 Hc; cbn [fold_left]; [exact Hc|].
    apply IH, cache_ok_run, Hc. }
  apply H. repeat split; intros k v [].
Qed.

Lemma bool_eqb_eq (a b : bool) : Bool.eqb a b = true -> a = b.
Proof. apply Bool.eqb_prop. Qed.

Lemma getBoolean_ok (c : BytecodeCache.t) (value : bool) :
  cache_ok c -> fst (BytecodeCache.getBoolean value c) = CreatePushBoolean value.
Proof.
  intros (Hb & _). unfold BytecodeCache.getBoolean.
  destruct (BytecodeCache.find _ _ value) as [v|] eqn:E; [|reflexivity].
  apply find_some in E. destruct E as (k & Hin & Hk).
  apply bool_eqb_eq in Hk. subst k. cbn [fst]. now apply Hb.
Qed.

Lemma getString_ok (c : BytecodeCache.t) (value : list byte) :
  cache_ok c -> fst (BytecodeCache.getString value c) = CreatePushString value.
Proof.
  intros (_ & _ & Hs & _). unfold BytecodeCache.getString.
  destruct (BytecodeCache.find _ _ value) as [v|] eqn:E; [|reflexivity].
  apply find_some in E. destruct E as (k & Hin & Hk).
  apply bytes_eqb_eq in Hk. subst k. cbn [fst]. now apply Hs.
Qed.

Lemma getInteger_ok (c : BytecodeCache.t) (value : Z) :
  cache_ok c ->
  fst (BytecodeCache.getInteger value c)
  = CreatePushNumber (BytecodeCache.double_of_int value).
Proof.
  intros (_ & _ & _ & Hi). unfold BytecodeCache.getInteger.
  destruct (BytecodeCache.find _ _ value) as [v|] eqn:E; [|reflexivity].
  apply find_some in E. destruct E as (k & Hin & Hk).
  apply Z.eqb_eq in Hk. subst k. cbn [fst]. now apply Hi.
Qed.

(** The cache is transparent for booleans, strings and integers: after any
    sequence of calls on a new cache, each of these getters returns exactly
    what the builder returns for its argument. *)
Theorem BytecodeCache_transparent (calls : list BytecodeCache.call) :
  (forall value : bool,
      fst (BytecodeCache.getBoolean value (BytecodeCache.after calls))
      = CreatePushBoolean value)
  /\ (forall value : list byte,
        fst (BytecodeCache.getString value (BytecodeCache.after calls))
        = CreatePushString value)
  /\ (forall value : Z,
        fst (BytecodeCache.getInteger value (BytecodeCache.after calls))
        = CreatePushNumber (BytecodeCache.double_of_int value)).
Proof.
  pose proof (cache_ok_after calls) as Hok.
  repeat split; intros value.
  - now apply getBoolean_ok.
  - now apply getString_ok.
  - now apply getInteger_ok.
Qed.

Lemma double_eq_true (a b : Z) :
  BytecodeCache.double_eq a b = true ->
  BytecodeCache.is_nan a = false /\ BytecodeCache.is_nan b = false
  /\ (a = b \/ (BytecodeCache.is_zero a = true /\ BytecodeCache.is_zero b = true)).
Proof.
  unfold BytecodeCache.double_eq. intros H.
  apply andb_true_iff in H as [H Hv]. apply andb_true_iff in H as [Ha Hb].
  apply negb_true_iff in Ha, Hb. repeat split; [exact Ha|exact Hb|].
  apply orb_true_iff in Hv as [Hv|Hv].
  - left. now apply Z.eqb_eq.
  - right. now apply andb_true_iff.
Qed.

Lemma getNumber_ok (c : BytecodeCache.t) (value : Z) :
  cache_ok c ->
  exists stored,
    fst (BytecodeCache.getNumber value c) = CreatePushNumber stored
    /\ (stored = value
        \/ (BytecodeCache.is_zero stored = true
            /\ BytecodeCache.is_zero value = true)).
Proof.
  intros (_ & Hn & _). unfold BytecodeCache.getNumber.
  destruct (BytecodeCache.find _ _ value) as [v|] eqn:E.
  - apply find_some in E. destruct E as (k & Hin & Hk).
    exists k. cbn [fst]. split; [now apply Hn|].
    apply double_eq_true in Hk. tauto.
  - exists value. split; [reflexivity|now left].
Qed.

(** For numbers the keys are compared with [==] on [double]: the buffer
    returned is the builder's buffer for the argument or, when the argument
    is a zero, possibly for the zero of the other sign. *)
Theorem BytecodeCache_getNumber (calls : list BytecodeCache.call) (value : Z) :
  exists stored,
    fst (BytecodeCache.getNumber value (BytecodeCache.after calls))
    = CreatePushNumber stored
    /\ (stored = value
        \/ (BytecodeCache.is_zero stored = true
            /\ BytecodeCache.is_zero value = true)).
Proof. apply getNumber_ok, cache_ok_after. Qed.

Lemma double_eq_same_class (a b : Z) :
  BytecodeCache.double_eq a b = true ->
  forall k, BytecodeCache.double_eq k a = BytecodeCache.double_eq k b.
Proof.
  intros H k. apply double_eq_true in H. destruct H as (Ha & Hb & H).
  unfold BytecodeCache.double_eq. rewrite Ha, Hb. cbn [negb]. f_equal.
  destruct H as [->|[Hza Hzb]]; [reflexivity|].
  rewrite Hza, Hzb, !andb_true_r.
  destruct (BytecodeCache.is_zero k) eqn:Hzk; [now rewrite !orb_true_r|].
  rewrite !orb_false_r.
  destruct (k =? a) eqn:E1; [apply Z.eqb_eq in E1; congruence|].
  destruct (k =? b) eqn:E2; [apply Z.eqb_eq in E2; congruence|]. reflexivity.
Qed.

Lemma find_same_class {V} (a b : Z) (m : list (Z * V)) :
  BytecodeCache.double_eq a b = true ->
  BytecodeCache.find BytecodeCache.double_eq m b
  = BytecodeCache.find BytecodeCache.double_eq m a.
Proof.
  intros H. induction m as [|[k v] m IH]; cbn [BytecodeCache.find]; [reflexivity|].
  now rewrite (double_eq_same_class a b H k), IH.
Qed.

(** Two numbers that compare equal share one element of the cache: after a
    call for one of them, a call for the other returns the buffer of the
    first call.  The two zeros compare equal, so a call for -0.0 that
    follows one for +0.0 returns the buffer of +0.0. *)
Theorem BytecodeCache_equal_numbers (a b : Z) (c : BytecodeCache.t) :
  BytecodeCache.double_eq a b = true ->
  fst (BytecodeCache.getNumber b (snd (BytecodeCache.getNumber a c)))
  = fst (BytecodeCache.getNumber a c).
Proof.
  intros H. unfold BytecodeCache.getNumber at 2 3.
  destruct (BytecodeCache.find _ (BytecodeCache.numberCache c) a) as [v|] eqn:E;
    cbn [fst snd]; unfold BytecodeCache.getNumber.
  - now rewrite (find_same_class a b _ H), E.
  - cbn [BytecodeCache.numberCache].
    rewrite (find_same_class a b _ H).
    rewrite find_assigned; [reflexivity| |exact E].
    rewrite (double_eq_same_class a b H a). exact H.
Qed.

Lemma BytecodeCache_equal_numbers_witness :
  fst (BytecodeCache.getNumber (2 ^ 63)
         (snd (BytecodeCache.getNumber 0 BytecodeCache.empty)))
  = CreatePushNumber 0
  /\ CreatePushNumber 0 <> CreatePushNumber (2 ^ 63).
Proof.
  split.
  - apply (BytecodeCache_equal_numbers 0 (2 ^ 63) BytecodeCache.empty).
    reflexivity.
  - intros H. vm_compute in H. discriminate H.
Defined.

Lemma find_nan {V} (value : Z) (m : list (Z * V)) :
  BytecodeCache.is_nan value = true ->
  BytecodeCache.find BytecodeCache.double_eq m value = None.
Proof.
  intros H. induction m as [|[k v] m IH]; cbn [BytecodeCache.find]; [reflexivity|].
  unfold BytecodeCache.double_eq at 1. rewrite H. cbn [negb].
  now rewrite andb_false_r.
Qed.

(** A NaN never hits the cache: every call with a NaN builds the buffer anew
    and adds one more element to the map. *)
Theorem BytecodeCache_nan (value : Z) (c : BytecodeCache.t) :
  BytecodeCache.is_nan value = true ->
  fst (BytecodeCache.getNumber value c) = CreatePushNumber value
  /\ BytecodeCache.numberCache (snd (BytecodeCache.getNumber value c))
     = BytecodeCache.numberCache c ++ [(value, CreatePushNumber value)].
Proof.
  intros H. unfold BytecodeCache.getNumber.
  rewrite (find_nan value _ H). cbn [fst snd BytecodeCache.numberCache].
  split; [reflexivity|]. apply assign_fresh, find_nan, H.
Qed.

Lemma BytecodeCache_nan_witness :
  fst (BytecodeCache.getNumber 0x7FF8000000000000 BytecodeCache.empty)
  = CreatePushNumber 0x7FF8000000000000
  /\ BytecodeCache.numberCache
       (snd (BytecodeCache.getNumber 0x7FF8000000000000 BytecodeCache.empty))
     = BytecodeCache.numberCache BytecodeCache.empty
       ++ [(0x7FF8000000000000, CreatePushNumber 0x7FF8000000000000)].
Proof.
  apply BytecodeCache_nan. reflexivity.
Defined.

Lemma bytes_eqb_refl (a : list byte) : bytes_eqb a a = true.
Proof. now apply bytes_eqb_eq. Qed.

(** A call repeated at once is a hit: it returns the same buffer and leaves
    the cache as the first call left it.  For numbers this needs an argument
    that is not a NaN. *)
Theorem BytecodeCache_repeated_call (c : BytecodeCache.t) :
  (forall value,
      BytecodeCache.getBoolean value (snd (BytecodeCache.getBoolean value c))
      = (fst (BytecodeCache.getBoolean value c),
         snd (BytecodeCache.getBoolean value c)))
  /\ (forall value,
        BytecodeCache.getString value (snd (BytecodeCache.getString value c))
        = (fst (BytecodeCache.getString value c),
           snd (BytecodeCache.getString value c)))
  /\ (forall value,
        BytecodeCache.getInteger value (snd (BytecodeCache.getInteger value c))
        = (fst (BytecodeCache.getInteger value c),
           snd (BytecodeCache.getInteger value c)))
  /\ (forall value,
        BytecodeCache.is_nan value = false ->
        BytecodeCache.getNumber value (snd (BytecodeCache.getNumber value c))
        = (fst (BytecodeCache.getNumber value c),
           snd (BytecodeCache.getNumber value c))).
Proof.
  repeat split; intros value.
  - unfold BytecodeCache.getBoolean at 2 3 4.
    destruct (BytecodeCache.find _ (BytecodeCache.boolCache c) value) eqn:E;
      cbn [fst snd]; unfold BytecodeCache.getBoolean.
    + now rewrite E.
    + cbn [BytecodeCache.boolCache].
      rewrite find_assigned; [reflexivity|apply Bool.eqb_reflx|exact E].
  - unfold BytecodeCache.getString at 2 3 4.
    destruct (BytecodeCache.find _ (BytecodeCache.stringCache c) value) eqn:E;
      cbn [fst snd]; unfold BytecodeCache.getString.
    + now rewrite E.
    + cbn [BytecodeCache.stringCache].
      rewrite find_assigned; [reflexivity|apply bytes_eqb_refl|exact E].
  - unfold BytecodeCache.getInteger at 2 3 4.
    destruct (BytecodeCache.find _ (BytecodeCache.integerCache c) value) eqn:E;
      cbn [fst snd]; unfold BytecodeCache.getInteger.
    + now rewrite E.
    + cbn [BytecodeCache.integerCache].
      rewrite find_assigned; [reflexivity|apply Z.eqb_refl|exact E].
  - intros Hnan. unfold BytecodeCache.getNumber at 2 3 4.
    destruct (BytecodeCache.find _ (BytecodeCache.numberCache c) value) eqn:E;
      cbn [fst snd]; unfold BytecodeCache.getNumber.
    + now rewrite E.
    + cbn [BytecodeCache.numberCache].
      rewrite find_assigned; [reflexivity| |exact E].
      unfold BytecodeCache.double_eq. rewrite Hnan, Z.eqb_refl. reflexivity.
Qed.

(** ** The callers: what reaches the loader *)

Section BytecodePusherFacts.

Variable lua_State : Type.
Variable luau_load : lua_State -> list byte -> list byte -> Z -> Z * lua_State.
Variable pcall_impl : lua_State -> Z -> Z -> Z -> Z * lua_State.
Variable strtod : list byte -> Z * nat.

Lemma produced_cons (b : list byte) :
  produced strtod b -> exists rest, b = x02 :: rest.
Proof.
  intros Hp. destruct (produced_patched strtod b Hp) as [payload ->].
  eexists. reflexivity.
Qed.

Lemma executeBytecode_version_2 (L : lua_State) (rest chunkname : list byte) :
  executeBytecode lua_State luau_load pcall_impl L (x02 :: rest) chunkname
  = Returns (load_and_call lua_State luau_load pcall_impl L (x02 :: rest) chunkname).
Proof. unfold executeBytecode. now rewrite Decompress_version_2. Qed.

Lemma load_produced (L : lua_State) (b chunkname : list byte) :
  produced strtod b ->
  executeBytecode lua_State luau_load pcall_impl L b chunkname
  = Returns (load_and_call lua_State luau_load pcall_impl L b chunkname).
Proof.
  intros Hp. destruct (produced_cons b Hp) as [rest ->].
  apply executeBytecode_version_2.
Qed.

(** [executeBytecode] hands every buffer of the encoder to the loader as it
    is, and returns: the signature test of [Decompress] never applies to
    such a buffer, and the buffer is never empty. *)
Theorem executeBytecode_produced (L : lua_State) (b chunkname : list byte) :
  produced strtod b ->
  b <> []
  /\ Decompress b = Returns b
  /\ executeBytecode lua_State luau_load pcall_impl L b chunkname
     = Returns (load_and_call lua_State luau_load pcall_impl L b chunkname).
Proof.
  intros Hp. destruct (produced_cons b Hp) as [rest ->].
  split; [discriminate|]. split; [apply Decompress_version_2|].
  apply executeBytecode_version_2.
Qed.

(** [pushCustom] (and [BytecodeVM::executeSource], which has the same body)
    always reaches the loader, with exactly the buffer of [Compile]: the
    test for an empty buffer never holds, since [Compile] returns at least
    a header. *)
Theorem pushCustom_loads_Compile (luaCode : list byte) (L : lua_State) :
  pushCustom lua_State luau_load pcall_impl strtod luaCode L
  = Returns (load_and_call lua_State luau_load pcall_impl L
               (Compile strtod luaCode) default_chunkname).
Proof.
  unfold pushCustom.
  destruct (produced_cons _ (produced_Compile strtod luaCode)) as [rest ->].
  apply executeBytecode_version_2.
Qed.

(** The cached pushes load what the builders return: for a cache in any
    state reached from a new one, [pushboolean], [pushstring] and
    [pushinteger] hand the loader the buffer of [CreatePushBoolean],
    [CreatePushString] and [CreatePushNumber] for their argument. *)
Theorem cached_pushes_load_builders (calls : list BytecodeCache.call)
        (L : lua_State) :
  let cache := BytecodeCache.after calls in
  (forall value,
      fst (pushboolean lua_State luau_load pcall_impl value L cache)
      = Returns (load_and_call lua_State luau_load pcall_impl L
                   (CreatePushBoolean value) default_chunkname))
  /\ (forall value,
        fst (pushstring lua_State luau_load pcall_impl value L cache)
        = Returns (load_and_call lua_State luau_load pcall_impl L
                     (CreatePushString value) default_chunkname))
  /\ (forall value,
        fst (pushinteger lua_State luau_load pcall_impl value L cache)
        = Returns (load_and_call lua_State luau_load pcall_impl L
                     (CreatePushNumber (BytecodeCache.double_of_int value))
                     default_chunkname)).
Proof.
  intros cache. pose proof (cache_ok_after calls) as Hok. fold cache in Hok.
  repeat split; intros value.
  - unfold pushboolean. pose proof (getBoolean_ok cache value Hok) as Hb.
    destruct (BytecodeCache.getBoolean value cache) as [bytecode cache'].
    cbn [fst] in *. subst bytecode.
    apply load_produced. exact (produced_build strtod (PushBoolean value)).
  - unfold pushstring. pose proof (getString_ok cache value Hok) as Hs.
    destruct (BytecodeCache.getString value cache) as [bytecode cache'].
    cbn [fst] in *. subst bytecode.
    apply load_produced. exact (produced_build strtod (PushString value)).
  - unfold pushinteger. pose proof (getInteger_ok cache value Hok) as Hi.
    destruct (BytecodeCache.getInteger value cache) as [bytecode cache'].
    cbn [fst] in *. subst bytecode.
    apply load_produced.
    exact (produced_build strtod (PushNumber (BytecodeCache.double_of_int value))).
Qed.

(** On a buffer that starts with the magic and holds at least sixteen
    bytes, [executeBytecode] throws below twenty bytes, loads the signed
    buffer itself at exactly twenty (nothing is left after the signature,
    and the empty result is replaced by the input), and loads what follows
    the signature above twenty. *)
Theorem executeBytecode_signed (L : lua_State) (b chunkname : list byte) :
  has_magic b -> (16 <= length b)%nat ->
  executeBytecode lua_State luau_load pcall_impl L b chunkname
  = if (length b <? 20)%nat then Throws_out_of_range
    else if (length b =? 20)%nat
         then Returns (load_and_call lua_State luau_load pcall_impl L b chunkname)
         else Returns (load_and_call lua_State luau_load pcall_impl L
                         (skipn 20 b) chunkname).
Proof.
  intros Hm Hlen. unfold executeBytecode.
  rewrite Decompress_signed by assumption.
  unfold substr_from, sizeof_RobloxSignature.
  destruct (length b <? 20)%nat eqn:H20; [reflexivity|].
  apply Nat.ltb_ge in H20.
  destruct (length b =? 20)%nat eqn:E.
  - apply Nat.eqb_eq in E.
    replace (skipn 20 b) with (@nil byte); [reflexivity|].
    symmetry. apply skipn_all2. lia.
  - apply Nat.eqb_neq in E.
    destruct (skipn 20 b) as [|x rest] eqn:Hs; [|reflexivity].
    exfalso. apply (f_equal (@length byte)) in Hs. rewrite length_skipn in Hs.
    cbn [length] in Hs. lia.
Qed.

End BytecodePusherFacts.

Lemma executeBytecode_produced_witness :
  CreatePushTable 5 3 <> []
  /\ Decompress (CreatePushTable 5 3) = Returns (CreatePushTable 5 3)
  /\ executeBytecode unit (fun L _ _ _ => (0, L)) (fun L _ _ _ => (0, L)) tt
       (CreatePushTable 5 3) default_chunkname
     = Returns (true, tt).
Proof.
  apply (executeBytecode_produced unit (fun L _ _ _ => (0, L))
           (fun L _ _ _ => (0, L)) strtod_decimal tt (CreatePushTable 5 3)).
  exact (produced_build strtod_decimal (PushTable 5 3)).
Defined.

Lemma executeBytecode_signed_witness :
  executeBytecode unit (fun L _ _ _ => (0, L)) (fun L _ _ _ => (0, L)) tt
    (text "RBX2"%string ++ repeat x00 16) default_chunkname
  = Returns (true, tt).
Proof.
  apply (executeBytecode_signed unit (fun L _ _ _ => (0, L))
           (fun L _ _ _ => (0, L)) tt (text "RBX2"%string ++ repeat x00 16)).
  - reflexivity.
  - vm_compute. lia.
Defined.

(** ** The [Compiler] class *)

Lemma on_bytecode_appends (s : stmt) (self : Compiler.t) :
  appends s ->
  Compiler.bytecode (Compiler.on_bytecode s self) = Compiler.bytecode self ++ s [].
Proof. intros H. cbn [Compiler.on_bytecode Compiler.bytecode]. apply H. Qed.

(** [Compiler::compile()] returns a patched header followed by one tag byte
    per number constant, a tag and a value byte per boolean constant, and a
    tag and the characters per string constant.  The constant count, the
    eight bytes of each number and the length of each string are not in the
    returned buffer: they are appended to the member vector, which
    [getBytecode()] returns.  The constant vectors are left as they are. *)
Theorem Compiler_compile_layout (self : Compiler.t) :
  let numbers := Compiler.numberConstants self in
  let bools := Compiler.boolConstants self in
  let strings := Compiler.constants self in
  let payload :=
    flat_map (fun _ : Z => [u8 LBC_CONSTANT_NUMBER]) numbers
    ++ flat_map (fun b : bool =>
                   [u8 LBC_CONSTANT_BOOLEAN; u8 (if b then 0x01 else 0x00)]) bools
    ++ flat_map (fun s : list byte => u8 LBC_CONSTANT_STRING :: s) strings in
  fst (Compiler.compile self) = header_bytes (patched_header payload) ++ payload
  /\ Compiler.getBytecode (snd (Compiler.compile self))
     = Compiler.getBytecode self
       ++ varint (size strings + size numbers + size bools)
       ++ flat_map (le_split 8) numbers
       ++ flat_map (fun s : list byte => varint (size s)) strings
  /\ Compiler.constants (snd (Compiler.compile self)) = strings
  /\ Compiler.numberConstants (snd (Compiler.compile self)) = numbers
  /\ Compiler.boolConstants (snd (Compiler.compile self)) = bools.
Proof.
  cbv zeta. unfold Compiler.compile, Compiler.getBytecode. cbv zeta.
  cbn [fst snd Compiler.on_bytecode Compiler.bytecode Compiler.constants
       Compiler.numberConstants Compiler.boolConstants].
  repeat split.
  - flatten_stmts. rewrite update_header_app.
    rewrite !for_each_flat by (intros; auto 20 with appends). cbn [app].
    assert (E : forall xs : list (list byte),
               flat_map (fun x => (push_back (u8 LBC_CONSTANT_STRING) ;; insert_end x) []) xs
               = flat_map (fun s => u8 LBC_CONSTANT_STRING :: s) xs).
    { intros xs. apply flat_map_ext. intros x. reflexivity. }
    rewrite E. reflexivity.
  - match goal with
    | |- ?s ?out = _ =>
        assert (Ha : appends s) by auto 20 with appends; rewrite (Ha out)
    end.
    f_equal. flatten_stmts.
    rewrite !for_each_flat by (intros; auto 20 with appends). cbn [app].
    f_equal. f_equal.
    apply flat_map_ext. intros x. apply write_double_nil.
Qed.

Lemma flat_map_map_compose {A B C} (f : B -> list C) (g : A -> B) (l : list A) :
  flat_map f (map g l) = flat_map (fun x => f (g x)) l.
Proof. induction l as [|x l IH]; cbn [map flat_map]; [reflexivity|now rewrite IH]. Qed.

Lemma pushArray_fold (values : list (list byte)) (n : nat) :
  forall (a : nat) (self : Compiler.t),
    let self' := fold_left (Compiler.pushArray_step values) (List.seq a n) self in
    Compiler.bytecode self'
    = Compiler.bytecode self
      ++ flat_map (fun j => [u8 (encodeOpcode LOP_LOADK);
                             u8 (Z.of_nat (a + j) + 1);
                             u8 (size (Compiler.constants self) + Z.of_nat j)])
           (List.seq 0 n)
    /\ Compiler.constants self'
       = Compiler.constants self ++ map (fun i => nth i values []) (List.seq a n)
    /\ Compiler.numberConstants self' = Compiler.numberConstants self
    /\ Compiler.boolConstants self' = Compiler.boolConstants self.
Proof.
  induction n as [|n IH]; intros a self; cbv zeta.
  - cbn [List.seq fold_left flat_map map]. now rewrite !app_nil_r.
  - cbn [List.seq fold_left].
    specialize (IH (S a) (Compiler.pushArray_step values self a)). cbv zeta in IH.
    destruct IH as (Hb & Hc & Hn & Hbo). rewrite Hb, Hc, Hn, Hbo.
    unfold Compiler.pushArray_step, Compiler.addConstant.
    cbn [Compiler.on_bytecode Compiler.bytecode Compiler.constants
         Compiler.numberConstants Compiler.boolConstants].
    repeat split.
    + unfold seq, push_back. rewrite <- !app_assoc. f_equal.
      cbn [flat_map map app]. rewrite <- seq_shift, flat_map_map_compose.
      rewrite size_snoc.
      replace (Z.of_nat (a + 0) + 1) with (Z.of_nat a + 1) by lia.
      replace (size (Compiler.constants self) + 1 - 1)
        with (size (Compiler.constants self) + Z.of_nat 0) by lia.
      do 3 f_equal.
      apply flat_map_ext. intros j.
      replace (Z.of_nat (S a + j) + 1) with (Z.of_nat (a + S j) + 1) by lia.
      replace (size (Compiler.constants self) + 1 + Z.of_nat j)
        with (size (Compiler.constants self) + Z.of_nat (S j)) by lia.
      reflexivity.
    + cbn [map]. now rewrite <- app_assoc.
Qed.

Lemma pushArray_nonempty (v : list byte) (vs : list (list byte))
      (self : Compiler.t) :
  Compiler.pushArray (v :: vs) self
  = Compiler.on_bytecode
      (push_back (u8 (encodeOpcode LOP_SETLIST))
       ;; push_back (u8 0x00)
       ;; push_back (u8 (size (v :: vs)))
       ;; push_back (u8 0x00))
      (fold_left (Compiler.pushArray_step (v :: vs))
         (List.seq 0 (length (v :: vs)))
         (Compiler.pushTable (size (v :: vs)) 0 self)).
Proof. reflexivity. Qed.

(** [Compiler::pushArray] appends NEWTABLE, one LOADK per value and SETLIST to
    the member vector and the values to the string constants; the constant
    index of a LOADK counts from the number of string constants stored
    before the call.  On a new [Compiler] the bytes appended are the
    instruction bytes of the buffer of [CreatePushArray]. *)
Theorem Compiler_pushArray (v : list byte) (vs : list (list byte))
        (self : Compiler.t) :
  let values := v :: vs in
  let k := size (Compiler.constants self) in
  Compiler.constants (Compiler.pushArray values self)
  = Compiler.constants self ++ values
  /\ Compiler.getBytecode (Compiler.pushArray values self)
     = Compiler.getBytecode self
       ++ flat_map instr_bytes
            (instr LOP_NEWTABLE [u8 0; u8 (size values); u8 0]
             :: map (fun i => instr LOP_LOADK [u8 (i + 1); u8 (k + i)])
                  (map Z.of_nat (List.seq 0 (length values)))
             ++ [instr LOP_SETLIST [u8 0; u8 (size values); u8 0]])
  /\ (exists p,
        CreatePushArray values = module_buffer (builder_module (map KString values) p)
        /\ Compiler.getBytecode (Compiler.pushArray values Compiler.create)
           = header_bytes initial_header ++ flat_map instr_bytes (code p)).
Proof.
  cbv zeta. set (values := v :: vs).
  assert (Hmain :
    forall self,
      Compiler.constants (Compiler.pushArray values self)
      = Compiler.constants self ++ values
      /\ Compiler.getBytecode (Compiler.pushArray values self)
         = Compiler.getBytecode self
           ++ flat_map instr_bytes
                (instr LOP_NEWTABLE [u8 0; u8 (size values); u8 0]
                 :: map (fun i => instr LOP_LOADK
                                    [u8 (i + 1); u8 (size (Compiler.constants self) + i)])
                      (map Z.of_nat (List.seq 0 (length values)))
                 ++ [instr LOP_SETLIST [u8 0; u8 (size values); u8 0]])).
  { intros s. unfold Compiler.getBytecode, values.
    rewrite pushArray_nonempty. fold values.
    destruct (pushArray_fold values (length values) 0
                (Compiler.pushTable (size values) 0 s)) as (Hb & Hc & _).
    cbv zeta in Hb, Hc.
    cbn [Compiler.on_bytecode Compiler.bytecode Compiler.constants].
    rewrite Hb, Hc. unfold Compiler.pushTable.
    cbn [Compiler.on_bytecode Compiler.bytecode Compiler.constants].
    split.
    - f_equal. clear. induction values as [|x xs IH]; [reflexivity|].
      cbn [length List.seq map]. f_equal.
      rewrite <- seq_shift, map_map. exact IH.
    - unfold seq, push_back. rewrite <- !app_assoc. f_equal.
      cbn [flat_map instr_bytes instr opcode operands app].
      do 4 f_equal. rewrite flat_map_app. cbn [flat_map app instr_bytes opcode operands].
      f_equal. rewrite map_map, flat_map_map_compose.
      apply flat_map_ext. intros j. cbn [instr_bytes instr opcode operands app].
      reflexivity. }
  destruct (Hmain self) as [Hc Hb]. split; [exact Hc|]. split; [exact Hb|].
  eexists. split.
  - rewrite CreatePushArray_serialises. unfold array_module, values. reflexivity.
  - destruct (Hmain Compiler.create) as [_ Hb0]. rewrite Hb0.
    cbn [builder_proto code]. reflexivity.
Qed.

(** Every public member function other than [clear] only appends to the
    member vector. *)
Lemma Compiler_run_appends (c : Compiler.call) (self : Compiler.t) :
  c <> Compiler.call_clear ->
  exists extra,
    Compiler.bytecode (Compiler.run c self) = Compiler.bytecode self ++ extra.
Proof.
  intros Hc.
  destruct c as [| | | | | | | | | | | | | |values| |];
    try contradiction; cbn [Compiler.run];
    try (eexists; apply on_bytecode_appends; solve [auto 20 with appends]).
  - (* pushNumber *)
    unfold Compiler.pushNumber, Compiler.addNumberConstant.
    eexists. rewrite on_bytecode_appends by auto 20 with appends. reflexivity.
  - (* pushString *)
    unfold Compiler.pushString, Compiler.addConstant.
    eexists. rewrite on_bytecode_appends by auto 20 with appends. reflexivity.
  - (* pushArray *)
    destruct values as [|v vs].
    + eexists. apply on_bytecode_appends. auto 20 with appends.
    + rewrite pushArray_nonempty. set (values := v :: vs).
      destruct (pushArray_fold values (length values) 0
                  (Compiler.pushTable (size values) 0 self)) as (Hb & _).
      cbv zeta in Hb.
      rewrite on_bytecode_appends, Hb by auto 20 with appends.
      unfold Compiler.pushTable.
      rewrite on_bytecode_appends by auto 20 with appends.
      rewrite <- !app_assoc. eexists. reflexivity.
Qed.

Lemma Compiler_after_header (calls : list Compiler.call) :
  exists rest,
    Compiler.bytecode (Compiler.after calls) = header_bytes initial_header ++ rest.
Proof.
  unfold Compiler.after.
  assert (H : forall self,
             (exists rest, Compiler.bytecode self = header_bytes initial_header ++ rest) ->
             exists rest,
               Compiler.bytecode (fold_left (fun s c => Compiler.run c s) calls self)
               = header_bytes initial_header ++ rest).
  { induction calls as [|c calls IH]; intros self Hs; cbn [fold_left]; [exact Hs|].
    apply IH. destruct Hs as [rest Hs].
    assert (Hcase : c = Compiler.call_clear \/ c <> Compiler.call_clear)
      by (destruct c; (now left) || (right; discriminate)).
    destruct Hcase as [->|Hne].
    - exists []. reflexivity.
    - destruct (Compiler_run_appends c self Hne) as [extra He].
      exists (rest ++ extra). now rewrite He, Hs, app_assoc. }
  apply H. exists []. reflexivity.
Qed.

(** No public member function stores a boolean constant ([addBoolConstant]
    is private and never called). *)
Lemma Compiler_run_bools (c : Compiler.call) (self : Compiler.t) :
  Compiler.boolConstants self = [] ->
  Compiler.boolConstants (Compiler.run c self) = [].
Proof.
  intros H.
  destruct c as [| | | | | | | | | | | | | |values| |]; cbn [Compiler.run];
    try exact H; try reflexivity.
  destruct values as [|v vs]; [exact H|].
  rewrite pushArray_nonempty. set (values := v :: vs).
  destruct (pushArray_fold values (length values) 0
              (Compiler.pushTable (size values) 0 self)) as (_ & _ & _ & Hb).
  cbv zeta in Hb. cbn [Compiler.on_bytecode Compiler.boolConstants].
  rewrite Hb. exact H.
Qed.

Lemma Compiler_after_bools (calls : list Compiler.call) :
  Compiler.boolConstants (Compiler.after calls) = [].
Proof.
  unfold Compiler.after.
  assert (H : forall self,
             Compiler.boolConstants self = [] ->
             Compiler.boolConstants
               (fold_left (fun s c => Compiler.run c s) calls self) = []).
  { induction calls as [|c calls IH]; intros self Hs; cbn [fold_left]; [exact Hs|].
    apply IH, Compiler_run_bools, Hs. }
  apply H. reflexivity.
Qed.

(** The member vector always starts with the placeholder header, whose size
    and checksum fields are zero, so what [getBytecode()] returns never
    passes [ValidateBytecode], whatever member functions were called:
    without further bytes the checksum field differs from the checksum of
    the empty payload, and with further bytes the size field is wrong.
    The vector of boolean constants stays empty: [pushBoolean] and
    [addLoadBool] carry the value in the instruction, and nothing else
    stores one. *)
Theorem Compiler_getBytecode_never_validates (calls : list Compiler.call) :
  (exists rest,
      Compiler.getBytecode (Compiler.after calls)
      = header_bytes initial_header ++ rest)
  /\ ValidateBytecode (Compiler.getBytecode (Compiler.after calls)) = false
  /\ Compiler.boolConstants (Compiler.after calls) = [].
Proof.
  unfold Compiler.getBytecode.
  destruct (Compiler_after_header calls) as [rest Hr].
  split; [now exists rest|]. split; [|apply Compiler_after_bools]. rewrite Hr.
  destruct (ValidateBytecode (header_bytes initial_header ++ rest)) eqn:E;
    [exfalso|reflexivity].
  apply ValidateBytecode_fields in E. destruct E as (_ & _ & Hs & Hh).
  rewrite size_app in Hs. change (size (header_bytes initial_header)) with 12 in Hs.
  change (le_combine (firstn 4 (skipn 8 (header_bytes initial_header ++ rest))))
    with 0 in Hs.
  change (le_combine (firstn 4 (skipn 4 (header_bytes initial_header ++ rest))))
    with 0 in Hh.
  change (skipn 12 (header_bytes initial_header ++ rest)) with rest in Hh.
  destruct rest as [|b rest].
  - vm_compute in Hh. discriminate Hh.
  - unfold size in Hs. cbn [length] in Hs. lia.
Qed.

(** ** [HexDump] *)

(** The mask makes the signedness of [char] immaterial. *)
Lemma char_mask (c : byte) : Z.land (char_to_int c) 0xFF = byte.unsigned c.
Proof.
  rewrite land_0xFF. unfold char_to_int.
  pose proof (byte.unsigned_range c) as Hr. change (2 ^ 8) with 256 in Hr.
  destruct (byte.unsigned c <? 128) eqn:E.
  - apply Z.mod_small. lia.
  - replace (byte.unsigned c - 256) with (byte.unsigned c + (-1) * 256) by lia.
    rewrite Z.mod_add by lia. apply Z.mod_small. lia.
Qed.

Lemma skipn_cons_nth {A} (l : list A) (a : nat) (d : A) :
  (a < length l)%nat -> skipn a l = nth a l d :: skipn (S a) l.
Proof.
  revert a. induction l as [|x l IH]; intros a Ha; cbn [length] in Ha; [lia|].
  destruct a as [|a]; [reflexivity|]. cbn [skipn nth]. apply IH. lia.
Qed.

Lemma HexDump_fold (data : list byte) (n : nat) :
  forall (a : nat) (out : list byte),
    (a + n <= length data)%nat ->
    fold_left (HexDump_step data) (List.seq a n) out
    = out ++ hex_rows a (firstn n (skipn a data)).
Proof.
  induction n as [|n IH]; intros a out Ha; cbn [List.seq fold_left firstn hex_rows].
  - now rewrite app_nil_r.
  - rewrite IH by lia.
    rewrite (skipn_cons_nth data a x00) by lia. cbn [firstn hex_rows].
    unfold HexDump_step, put_hex, seq, push_back, insert_end. rewrite char_mask.
    destruct ((Z.of_nat a + 1) mod 16 =? 0); rewrite <- !app_assoc; reflexivity.
Qed.

Lemma HexDump_rows (data : list byte) (maxBytes : nat) :
  let n := Nat.min (length data) maxBytes in
  HexDump data maxBytes
  = hex_rows 0 (firstn maxBytes data)
    ++ (if negb (Z.of_nat n mod 16 =? 0) then [x0a] else []).
Proof.
  cbv zeta. unfold HexDump. cbv zeta.
  rewrite HexDump_fold by lia. cbn [app skipn].
  assert (E : firstn (Nat.min (length data) maxBytes) data = firstn maxBytes data).
  { destruct (Nat.le_ge_cases (length data) maxBytes) as [H|H].
    - rewrite Nat.min_l by exact H. now rewrite !firstn_all2 by lia.
    - now rewrite Nat.min_r by exact H. }
  rewrite E. unfold insert_end.
  destruct (negb _); [reflexivity|now rewrite app_nil_r].
Qed.

Lemma div16_succ (i : Z) :
  0 <= i -> (i + 1) / 16 = i / 16 + (if (i + 1) mod 16 =? 0 then 1 else 0).
Proof.
  intros Hi.
  pose proof (Z.div_mod i 16 ltac:(lia)). pose proof (Z.div_mod (i + 1) 16 ltac:(lia)).
  pose proof (Z.mod_pos_bound i 16 ltac:(lia)).
  pose proof (Z.mod_pos_bound (i + 1) 16 ltac:(lia)).
  destruct ((i + 1) mod 16 =? 0) eqn:E; [apply Z.eqb_eq in E|apply Z.eqb_neq in E]; lia.
Qed.

Lemma size_hex_rows (l : list byte) :
  forall i, size (hex_rows i l)
            = 3 * size l + ((Z.of_nat i + size l) / 16 - Z.of_nat i / 16).
Proof.
  induction l as [|b l IH]; intros i; cbn [hex_rows].
  - change (size (@nil byte)) with 0. rewrite Z.add_0_r. lia.
  - rewrite !size_cons, size_app, IH.
    replace (Z.of_nat (S i)) with (Z.of_nat i + 1) by lia.
    replace (Z.of_nat i + (1 + size l)) with (Z.of_nat i + 1 + size l) by lia.
    rewrite (div16_succ (Z.of_nat i)) by lia.
    destruct ((Z.of_nat i + 1) mod 16 =? 0);
      [change (size [x0a]) with 1|change (size (@nil byte)) with 0]; lia.
Qed.

(** [HexDump] shows the first [maxBytes] bytes of the string, or all of it
    when it is shorter: three characters per byte shown and one line end per
    row of sixteen, the last row included when it is not full.  Nothing is
    written for an empty string or for [maxBytes = 0]. *)
Theorem HexDump_size (data : list byte) (maxBytes : nat) :
  let n := Z.of_nat (Nat.min (length data) maxBytes) in
  size (HexDump data maxBytes) = 3 * n + (n + 15) / 16.
Proof.
  cbv zeta. rewrite HexDump_rows. cbv zeta. rewrite size_app, size_hex_rows.
  assert (E : size (firstn maxBytes data) = Z.of_nat (Nat.min (length data) maxBytes)).
  { unfold size. rewrite length_firstn. lia. }
  rewrite E. set (n := Z.of_nat (Nat.min (length data) maxBytes)).
  assert (Hn : 0 <= n) by (unfold n; lia).
  change (Z.of_nat 0) with 0. rewrite Z.add_0_l. change (0 / 16) with 0.
  pose proof (Z.div_mod n 16 ltac:(lia)). pose proof (Z.mod_pos_bound n 16 ltac:(lia)).
  pose proof (Z.div_mod (n + 15) 16 ltac:(lia)).
  pose proof (Z.mod_pos_bound (n + 15) 16 ltac:(lia)).
  destruct (n mod 16 =? 0) eqn:Em; cbn [negb];
    [apply Z.eqb_eq in Em; change (size (@nil byte)) with 0
    |apply Z.eqb_neq in Em; change (size [x0a]) with 1]; lia.
Qed.

Lemma hex_digit_facts (d : Z) :
  0 <= d < 16 ->
  Byte.eqb (hex_digit d) x0a = false /\ hex_value (hex_digit d) = d.
Proof.
  intros Hd.
  assert (H : d = 0 \/ d = 1 \/ d = 2 \/ d = 3 \/ d = 4 \/ d = 5 \/ d = 6 \/ d = 7
              \/ d = 8 \/ d = 9 \/ d = 10 \/ d = 11 \/ d = 12 \/ d = 13
              \/ d = 14 \/ d = 15) by lia.
  repeat (destruct H as [->|H]; [split; reflexivity|]). subst d. split; reflexivity.
Qed.

Lemma read_dump_rows (l : list byte) :
  forall i tail,
    read_dump (hex_rows i l ++ tail) = l ++ read_dump tail.
Proof.
  induction l as [|b l IH]; intros i tail; [reflexivity|].
  cbn [hex_rows app].
  pose proof (byte.unsigned_range b) as Hr. change (2 ^ 8) with 256 in Hr.
  assert (Hq : 0 <= byte.unsigned b / 16 < 16).
  { split; [apply Z.div_pos; lia|apply Z.div_lt_upper_bound; lia]. }
  pose proof (Z.mod_pos_bound (byte.unsigned b) 16 ltac:(lia)) as Hm.
  destruct (hex_digit_facts _ Hq) as [Hn1 Hv1].
  destruct (hex_digit_facts _ Hm) as [_ Hv2].
  cbn [read_dump]. rewrite Hn1, Hv1, Hv2.
  rewrite <- Z.div_mod by lia. rewrite byte.of_Z_unsigned. f_equal.
  destruct ((Z.of_nat i + 1) mod 16 =? 0); cbn [app].
  - cbn [read_dump]. change (Byte.eqb x0a x0a) with true. cbv iota. apply IH.
  - apply IH.
Qed.

(** A dump can be read back: its entries give exactly the bytes shown, the
    first [maxBytes] bytes of the string. *)
Theorem HexDump_read_back (data : list byte) (maxBytes : nat) :
  read_dump (HexDump data maxBytes) = firstn maxBytes data.
Proof.
  rewrite HexDump_rows. cbv zeta. rewrite read_dump_rows.
  destruct (negb _); cbn; now rewrite app_nil_r.
Qed.

(** ** Validation of every buffer of the encoder *)

(** A buffer of the encoder (of any builder, of [Compile], of
    [Compiler::compile]) passes [ValidateBytecode] exactly when its payload
    is shorter than 2^32 bytes, the range of the header's size field. *)
Theorem produced_validates_iff (strtod : list byte -> Z * nat) (b : list byte) :
  produced strtod b ->
  (ValidateBytecode b = true <-> size b - sizeof_header < 2 ^ 32).
Proof.
  intros Hp. destruct (produced_patched strtod b Hp) as [payload ->].
  rewrite patched_size. split.
  - intros Hv. destruct (Z.lt_ge_cases (size payload) (2 ^ 32)) as [H|H]; [exact H|].
    destruct (oversize_patched payload H) as [_ Hf]. congruence.
  - apply ValidateBytecode_patched.
Qed.

Lemma produced_validates_iff_witness :
  ValidateBytecode (CreatePushArray [text "sword"%string; text "shield"%string]) = true
  <-> size (CreatePushArray [text "sword"%string; text "shield"%string])
      - sizeof_header < 2 ^ 32.
Proof.
  apply (produced_validates_iff strtod_decimal).
  exact (produced_build strtod_decimal
           (PushArray [text "sword"%string; text "shield"%string])).
Defined.

(** ** [Compile]: quoted strings, and the reference [strtod] *)

(** [Compile] takes what stands between the outer quotes as it is: no escape
    sequence is processed and inner quotes are kept.  Stated for every
    [strtod] that converts nothing from a text that starts with a quote. *)
Theorem Compile_quoted (strtod : list byte -> Z * nat) (body : list byte) :
  let lit := x22 :: body ++ [x22] in
  snd (strtod (c_string lit)) = 0%nat ->
  Compile strtod (text "return "%string ++ lit) = CreatePushString body.
Proof.
  intros lit Hs. unfold Compile.
  change (starts_with (text "return "%string) (text "return "%string ++ lit))
    with true. cbv iota.
  change (skipn 7 (text "return "%string ++ lit)) with lit.
  change (bytes_eqb lit (text "nil"%string)) with false.
  change (bytes_eqb lit (text "true"%string)) with false.
  change (bytes_eqb lit (text "false"%string)) with false. cbv iota.
  unfold parse_number. destruct (strtod (c_string lit)) as [num consumed].
  cbn [snd] in Hs. subst consumed. cbn [Nat.eqb negb andb]. cbv iota.
  assert (Hlen : length lit = S (S (length body))).
  { unfold lit. cbn [length]. rewrite length_app. cbn [length]. lia. }
  replace (2 <=? size lit) with true
    by (symmetry; apply Z.leb_le; unfold size; lia).
  change (nth 0 lit x00) with x22.
  replace (last lit x00) with x22
    by (unfold lit; change (x22 :: body ++ [x22]) with ((x22 :: body) ++ [x22]);
        now rewrite last_last).
  cbn [Byte.eqb andb]. change (Byte.eqb x22 x22) with true. cbv iota. cbn [andb].
  f_equal. unfold substr. rewrite Hlen.
  replace (S (S (length body)) - 2)%nat with (length body) by lia.
  unfold lit. cbn [skipn]. rewrite firstn_app, firstn_all, Nat.sub_diag.
  cbn [firstn]. apply app_nil_r.
Qed.

Lemma Compile_quoted_witness :
  Compile strtod_decimal
    (text "return "%string ++ x22 :: (text "a\"%string ++ x22 :: text "b"%string) ++ [x22])
  = CreatePushString (text "a\"%string ++ x22 :: text "b"%string).
Proof.
  apply (Compile_quoted strtod_decimal (text "a\"%string ++ x22 :: text "b"%string)).
  vm_compute. reflexivity.
Defined.

Lemma skip_spaces_length (s : list byte) :
  length s = (fst (skip_spaces s) + length (snd (skip_spaces s)))%nat.
Proof.
  induction s as [|b s IH]; cbn [skip_spaces]; [reflexivity|].
  destruct (is_space b); [|reflexivity].
  destruct (skip_spaces s) as [n r]. cbn [fst snd length] in *. lia.
Qed.

Lemma read_sign_length (s : list byte) :
  length s = (snd (fst (read_sign s)) + length (snd (read_sign s)))%nat.
Proof.
  destruct s as [|b s]; cbn [read_sign]; [reflexivity|].
  destruct (Byte.eqb b "-"%byte); [reflexivity|].
  destruct (Byte.eqb b "+"%byte); reflexivity.
Qed.

Lemma read_digits_length (s : list byte) :
  forall acc,
    length s = (snd (fst (read_digits acc s)) + length (snd (read_digits acc s)))%nat.
Proof.
  induction s as [|b s IH]; intros acc; cbn [read_digits]; [reflexivity|].
  destruct (digit_of b) as [d|]; [|reflexivity].
  specialize (IH (10 * acc + d)).
  destruct (read_digits (10 * acc + d) s) as [[v n] r]. cbn [fst snd length] in *. lia.
Qed.

Lemma read_exponent_length (s : list byte) : (snd (read_exponent s) <= length s)%nat.
Proof.
  destruct s as [|b s]; cbn [read_exponent]; [cbn; lia|].
  destruct (Byte.eqb b "e"%byte || Byte.eqb b "E"%byte); [|cbn; lia].
  pose proof (read_sign_length s) as Hs.
  destruct (read_sign s) as [[neg ns] s1]. cbn [fst snd] in Hs.
  pose proof (read_digits_length s1 0) as Hd.
  destruct (read_digits 0 s1) as [[v nd] r]. cbn [fst snd] in Hd.
  destruct (nd =? 0)%nat; cbn [snd length]; lia.
Qed.

(** The end pointer of the reference [strtod] stays within its argument. *)
Lemma strtod_decimal_end (s : list byte) : (snd (strtod_decimal s) <= length s)%nat.
Proof.
  unfold strtod_decimal.
  pose proof (skip_spaces_length s) as H0.
  destruct (skip_spaces s) as [nsp s0]. cbn [fst snd] in H0.
  pose proof (read_sign_length s0) as H1.
  destruct (read_sign s0) as [[neg nsg] s1]. cbn [fst snd] in H1.
  pose proof (read_digits_length s1 0) as H2.
  destruct (read_digits 0 s1) as [[ip ni] s2]. cbn [fst snd] in H2.
  assert (H3 : forall (mant : Z) nf ndot s3,
             (length s2 = ndot + nf + length s3)%nat ->
             (snd (if ((ni + nf)%nat =? 0)%nat then (0%Z, 0%nat)
                   else
                     let '(ex, ne) := read_exponent s3 in
                     let p := (ex - Z.of_nat nf)%Z in
                     let bits := if (0 <=? p)%Z
                                 then round_to_double neg (mant * 10 ^ p)%Z 1%Z
                                 else round_to_double neg mant (10 ^ (- p))%Z in
                     (bits, (nsp + nsg + ni + ndot + nf + ne)%nat))
              <= length s)%nat).
  { intros mant nf ndot s3 Hl.
    destruct ((ni + nf)%nat =? 0)%nat; [cbn; lia|].
    pose proof (read_exponent_length s3) as He.
    destruct (read_exponent s3) as [ex ne]. cbn [snd] in *. lia. }
  destruct s2 as [|b s2'].
  - apply H3. reflexivity.
  - destruct (Byte.eqb b "."%byte).
    + pose proof (read_digits_length s2' ip) as H4.
      destruct (read_digits ip s2') as [[v n] r]. cbn [fst snd] in H4.
      apply H3. cbn [length]. lia.
    + apply H3. reflexivity.
Qed.

Lemma Compile_fallback_witness :
  Compile strtod_decimal (text "return abc"%string) = CreatePushNil.
Proof.
  apply Compile_fallback.
  - exact strtod_decimal_end.
  - reflexivity.
  - intros (lit & Hsrc & Hlit).
    change (text "return abc"%string)
      with (text "return "%string ++ text "abc"%string) in Hsrc.
    apply app_inv_head in Hsrc. subst lit.
    destruct Hlit as [H|[H|[H|[H|H]]]]; try discriminate H.
    + destruct H as (_ & H & _). apply H. reflexivity.
    + destruct H as [body H]. discriminate H.
Defined.

Lemma stack_covers_registers_witness :
  exists p,
    read_module (CreatePushArray [text "a"%string; text "b"%string])
    = Some (header_of_bytes (CreatePushArray [text "a"%string; text "b"%string]),
            array_module [text "a"%string; text "b"%string])
    /\ protos (array_module [text "a"%string; text "b"%string]) = [p]
    /\ maxstacksize p >= registers_needed (code p).
Proof.
  apply (stack_covers_registers strtod_decimal
           (PushArray [text "a"%string; text "b"%string])).
  - discriminate.
  - discriminate.
  - split; [reflexivity|]. repeat constructor.
Defined.

(** ** [CreatePushArray]: constants and instructions *)

(** For a non-empty list of at most 255 strings, the buffer of
    [CreatePushArray] holds the strings as its constants, in order, and the
    instructions NEWTABLE (array size: the number of strings), one LOADK per
    string (string [j] from constant [j] into register [j + 1]) and SETLIST
    (count: the number of strings); it declares one register more than there
    are strings. *)
Theorem CreatePushArray_spec (values : list (list byte)) :
  values <> [] -> (length values <= 255)%nat ->
  exists m p,
    CreatePushArray values = module_buffer m
    /\ (Forall (fun v => size v < 2 ^ 32) values ->
        read_module (CreatePushArray values)
        = Some (header_of_bytes (CreatePushArray values), m))
    /\ protos m = [p]
    /\ constants m = map KString values
    /\ maxstacksize p = size values + 1
    /\ size (code p) = size values + 2
    /\ nth_error (code p) 0
       = Some (instr LOP_NEWTABLE [x00; u8 (size values); x00])
    /\ byte.unsigned (u8 (size values)) = size values
    /\ (forall j v,
          nth_error values j = Some v ->
          exists ins,
            nth_error (code p) (S j) = Some ins
            /\ opcode ins = LOP_LOADK
            /\ registers ins = [Z.of_nat j + 1]
            /\ constant_ref ins = Some (Z.of_nat j)
            /\ nth_error (constants m) j = Some (KString v))
    /\ nth_error (code p) (S (length values))
       = Some (instr LOP_SETLIST [x00; u8 (size values); x00]).
Proof.
  intros Hne Hlen. destruct values as [|v0 vs]; [contradiction|].
  set (values := v0 :: vs) in *.
  set (loads := map (fun i => instr LOP_LOADK [u8 (i + 1); u8 i])
                  (map Z.of_nat (List.seq 0 (length values)))).
  assert (Hloads : length loads = length values)
    by (unfold loads; now rewrite !length_map, length_seq).
  exists (array_module values).
  exists (builder_proto (1 + size values) 0
            (instr LOP_NEWTABLE [u8 0; u8 (size values); u8 0]
             :: loads ++ [instr LOP_SETLIST [u8 0; u8 (size values); u8 0]])
            (size values)).
  split; [apply CreatePushArray_serialises|].
  split.
  { intros Hfit. apply (read_build strtod_decimal (PushArray values)).
    split; [unfold size; lia|exact Hfit]. }
  split; [reflexivity|]. split; [reflexivity|].
  split; [cbn [builder_proto maxstacksize]; lia|].
  split.
  { cbn [builder_proto code]. unfold size. cbn [length].
    rewrite length_app, Hloads. cbn [length]. lia. }
  split; [reflexivity|].
  split; [apply unsigned_u8_small; unfold size; lia|].
  split.
  - intros j v Hj.
    assert (Hjl : (j < length values)%nat) by (apply nth_error_Some; congruence).
    exists (instr LOP_LOADK [u8 (Z.of_nat j + 1); u8 (Z.of_nat j)]).
    split.
    { cbn [builder_proto code nth_error].
      rewrite nth_error_app1 by lia. unfold loads.
      rewrite !nth_error_map, nth_error_seq.
      replace (j <? length values)%nat with true by (symmetry; apply Nat.ltb_lt; lia).
      reflexivity. }
    split; [reflexivity|].
    split.
    { unfold registers. cbn [instr opcode operands nth].
      change (LOP_LOADK =? LOP_MOVE) with false.
      change (LOP_LOADK =? LOP_SETTABLE) with false. cbv iota.
      now rewrite unsigned_u8_small by lia. }
    split.
    { rewrite constant_ref_load by now right. now rewrite unsigned_u8_small by lia. }
    unfold values in Hj |- *. cbn [array_module builder_module constants].
    now rewrite nth_error_map, Hj.
  - cbn [builder_proto code nth_error].
    rewrite nth_error_app2 by lia. rewrite Hloads, Nat.sub_diag. reflexivity.
Qed.

Lemma CreatePushArray_spec_witness :
  exists m p,
    CreatePushArray [text "sword"%string; text "shield"%string; text "potion"%string]
    = module_buffer m
    /\ (Forall (fun v => size v < 2 ^ 32)
          [text "sword"%string; text "shield"%string; text "potion"%string] ->
        read_module (CreatePushArray
                       [text "sword"%string; text "shield"%string; text "potion"%string])
        = Some (header_of_bytes
                  (CreatePushArray
                     [text "sword"%string; text "shield"%string; text "potion"%string]),
                m))
    /\ protos m = [p]
    /\ constants m
       = map KString [text "sword"%string; text "shield"%string; text "potion"%string]
    /\ maxstacksize p = 3 + 1
    /\ size (code p) = 3 + 2
    /\ nth_error (code p) 0 = Some (instr LOP_NEWTABLE [x00; x03; x00])
    /\ byte.unsigned x03 = 3
    /\ (forall j v,
          nth_error [text "sword"%string; text "shield"%string; text "potion"%string] j
          = Some v ->
          exists ins,
            nth_error (code p) (S j) = Some ins
            /\ opcode ins = LOP_LOADK
            /\ registers ins = [Z.of_nat j + 1]
            /\ constant_ref ins = Some (Z.of_nat j)
            /\ nth_error (constants m) j = Some (KString v))
    /\ nth_error (code p) 4 = Some (instr LOP_SETLIST [x00; x03; x00]).
Proof.
  apply (CreatePushArray_spec
           [text "sword"%string; text "shield"%string; text "potion"%string]).
  - discriminate.
  - cbn. lia.
Defined.

(** ** [CreatePushMultiple]: registers and numeric elements *)

Lemma number_values_split (strtod : list byte -> Z * nat)
      (pre suf : list (list byte)) (v : list byte) (n : Z) :
  kind_of strtod v = IsNumber n ->
  number_values strtod (pre ++ v :: suf)
  = number_values strtod pre ++ n :: number_values strtod suf.
Proof.
  intros Hk. unfold number_values. now rewrite flat_map_app, flat_map_cons_app, Hk.
Qed.

(** For a non-empty list of at most 256 elements, the instruction of element
    [j] loads into register [j], and as many registers are declared as there
    are elements.  An element that parses as a number is loaded by a LOADN
    whose constant index is its position among the numeric elements, where
    the pool holds the parsed number. *)
Theorem CreatePushMultiple_numbers (strtod : list byte -> Z * nat)
        (values : list (list byte)) :
  values <> [] -> (length values <= 256)%nat ->
  exists m p,
    CreatePushMultiple strtod values = module_buffer m
    /\ protos m = [p]
    /\ maxstacksize p = size values
    /\ (forall j v,
          nth_error values j = Some v ->
          exists ins,
            nth_error (code p) j = Some ins
            /\ registers ins = [Z.of_nat j]
            /\ (forall n,
                  kind_of strtod v = IsNumber n ->
                  let k := size (number_values strtod (firstn j values)) in
                  opcode ins = LOP_LOADN
                  /\ constant_ref ins = Some k
                  /\ nth_error (constants m) (Z.to_nat k)
                     = Some (KNumber (n mod 2 ^ 64)))).
Proof.
  intros Hne Hlen. destruct values as [|v0 vs]; [contradiction|].
  set (values := v0 :: vs) in *.
  set (base := size (number_values strtod values)
               + size (boolean_values strtod values)).
  exists (multiple_module strtod values).
  exists (builder_proto (size values) 0 (multiple_code strtod base values 0 0 0)
            (size (multiple_constants strtod values))).
  split; [apply CreatePushMultiple_serialises|].
  split; [reflexivity|]. split; [reflexivity|].
  intros j v Hj.
  assert (Hjl : (j < length values)%nat) by (apply nth_error_Some; congruence).
  exists (load_instr strtod base v (Z.of_nat j)
            (size (number_values strtod (firstn j values)))
            (size (string_values strtod (firstn j values)))).
  split; [cbn [builder_proto code]; now apply multiple_code_at|].
  split.
  { unfold load_instr, registers.
    destruct (kind_of strtod v); cbn [instr opcode operands nth];
      now rewrite unsigned_u8_small by lia. }
  intros n Hk. cbv zeta.
  destruct (nth_error_firstn_split values j v Hj) as (suf & Hs & Hl).
  pose proof (numbers_before strtod values j v n Hj Hk) as Hlt.
  pose proof (size_nonneg (number_values strtod (firstn j values))) as Hnn.
  assert (Hnum : size (number_values strtod values) <= 256).
  { pose proof (kinds_partition strtod values) as Hp.
    pose proof (size_nonneg (boolean_values strtod values)).
    pose proof (size_nonneg (string_values strtod values)).
    unfold size in *. lia. }
  unfold load_instr. rewrite Hk.
  split; [reflexivity|].
  split.
  { rewrite constant_ref_load by now left. now rewrite unsigned_u8_small by lia. }
  assert (Ec : constants (multiple_module strtod values)
               = multiple_constants strtod values) by reflexivity.
  assert (En : number_values strtod values
               = number_values strtod (firstn j values)
                 ++ n :: number_values strtod suf).
  { transitivity (number_values strtod (firstn j values ++ v :: suf));
      [now rewrite <- Hs|now apply number_values_split]. }
  rewrite Ec. unfold multiple_constants.
  rewrite nth_error_app1
    by (rewrite length_map; unfold size in *; lia).
  rewrite nth_error_map, En.
  unfold size. rewrite Nat2Z.id.
  rewrite nth_error_app2, Nat.sub_diag by lia. reflexivity.
Qed.

Lemma CreatePushMultiple_numbers_witness :
  exists m p,
    CreatePushMultiple strtod_decimal
      [text "player1"%string; text "100"%string; text "true"%string; text "3.14"%string]
    = module_buffer m
    /\ protos m = [p]
    /\ maxstacksize p = 4
    /\ (forall j v,
          nth_error [text "player1"%string; text "100"%string; text "true"%string;
                     text "3.14"%string] j = Some v ->
          exists ins,
            nth_error (code p) j = Some ins
            /\ registers ins = [Z.of_nat j]
            /\ (forall n,
                  kind_of strtod_decimal v = IsNumber n ->
                  let k := size (number_values strtod_decimal
                                   (firstn j [text "player1"%string; text "100"%string;
                                              text "true"%string; text "3.14"%string])) in
                  opcode ins = LOP_LOADN
                  /\ constant_ref ins = Some k
                  /\ nth_error (constants m) (Z.to_nat k)
                     = Some (KNumber (n mod 2 ^ 64)))).
Proof.
  apply (CreatePushMultiple_numbers strtod_decimal
           [text "player1"%string; text "100"%string; text "true"%string;
            text "3.14"%string]).
  - discriminate.
  - cbn. lia.
Defined.

(** ** The size of a string buffer *)

(** The buffer of [CreatePushString] is 30 to 34 bytes longer than the
    string: 29 bytes that do not depend on it and the varint of its
    length, which is one byte for a string shorter than 128 bytes. *)
Theorem CreatePushString_size (value : list byte) :
  size (CreatePushString value)
  = 29 + size (writeVarInt (size value) []) + size value
  /\ 30 + size value <= size (CreatePushString value) <= 34 + size value
  /\ (size value < 128 -> size (CreatePushString value) = 30 + size value).
Proof.
  assert (E : size (CreatePushString value)
              = 29 + size (writeVarInt (size value) []) + size value).
  { rewrite CreatePushString_serialises, module_buffer_patched.
    rewrite size_app. change (size (header_bytes _)) with 12.
    unfold string_module. unfold_layout.
    rewrite !size_app, !size_cons, !size_app.
    change (varint (size value)) with (writeVarInt (size value) []).
    repeat match goal with
           | |- context [size ?l] =>
               lazymatch l with
               | context [value] => fail
               | _ => let n := eval vm_compute in (size l) in
                      change (size l) with n
               end
           end.
    lia. }
  assert (Hr : 0 <= u32 (size value) < 2 ^ (7 * Z.of_nat 5)).
  { unfold u32. pose proof (Z.mod_pos_bound (size value) (2 ^ 32) ltac:(lia)).
    change (2 ^ (7 * Z.of_nat 5)) with (2 ^ 35). lia. }
  destruct (writeVarInt_loop_shape 4 (u32 (size value)) Hr)
    as (bs & last & Hw & Hlen & _ & _ & Hup & Hlow).
  split; [exact E|].
  unfold writeVarInt in E. rewrite E, Hw, size_app. change (size [last]) with 1.
  pose proof (size_nonneg bs) as Hb. pose proof (size_nonneg value) as Hv.
  split; [unfold size in *; lia|].
  intros Hsmall. destruct bs as [|b bs']; [change (size (@nil byte)) with 0; lia|].
  exfalso. assert (Hl : 2 ^ (7 * size (b :: bs')) <= u32 (size value))
    by (apply Hlow; discriminate).
  unfold u32 in Hl. rewrite Z.mod_small in Hl by lia.
  assert (2 ^ 7 <= 2 ^ (7 * size (b :: bs'))).
  { apply Z.pow_le_mono_r; [lia|]. rewrite size_cons. pose proof (size_nonneg bs'). lia. }
  change (2 ^ 7) with 128 in *. lia.
Qed.

(** ** What [VMState::pushVMValueToLua] loads *)

Section PushEngineFacts.

Variable lua_State : Type.
Variable luau_load : lua_State -> list byte -> list byte -> Z -> Z * lua_State.
Variable pcall_impl : lua_State -> Z -> Z -> Z -> Z * lua_State.
Variable checkTValueSafe : lua_State -> bool.
Variable pushnil_tvalue : lua_State -> lua_State.
Variable pushboolean_tvalue : bool -> lua_State -> lua_State.
Variable pushnumber_tvalue : Z -> lua_State -> lua_State.
Variable pushstring_tvalue : list byte -> lua_State -> lua_State.

(** The buffer [pushVMValueToLua] hands to the loader, by the type of the
    value: nil for nil, functions, tables and userdata; the boolean, the
    number (a zero possibly with the other sign, see the cache) or the string
    for those; and for a light userdata the string [lightuserdata], not the
    pointer.  The direct [TValue] writes are never used, and the call always
    returns.  Stated for a cache in any state reached from a new one. *)
Theorem pushVMValueToLua_loads (calls : list BytecodeCache.call)
        (value : VMValue) (L : lua_State) :
  exists buffer,
    fst (pushVMValueToLua lua_State luau_load pcall_impl checkTValueSafe
           pushnil_tvalue pushboolean_tvalue pushnumber_tvalue pushstring_tvalue
           value L (BytecodeCache.after calls))
    = Returns (load_and_call lua_State luau_load pcall_impl L buffer
                 default_chunkname)
    /\ match vm_type value with
       | BOOLEAN => buffer = CreatePushBoolean (vm_boolean value)
       | NUMBER =>
           exists stored,
             buffer = CreatePushNumber stored
             /\ (stored = vm_number value
                 \/ (BytecodeCache.is_zero stored = true
                     /\ BytecodeCache.is_zero (vm_number value) = true))
       | STRING => buffer = CreatePushString (vm_string value)
       | LIGHTUSERDATA => buffer = CreatePushString (text "lightuserdata"%string)
       | _ => buffer = CreatePushNil
       end.
Proof.
  pose proof (cache_ok_after calls) as Hok.
  set (cache := BytecodeCache.after calls) in *.
  assert (Hnil :
    fst (engine_pushnil lua_State luau_load pcall_impl checkTValueSafe
           pushnil_tvalue MODE_BYTECODE L cache)
    = Returns (load_and_call lua_State luau_load pcall_impl L CreatePushNil
                 default_chunkname)).
  { unfold engine_pushnil, pushnil. cbn [tvalue_path fst].
    apply (load_produced _ _ _ strtod_decimal).
    exact (produced_build strtod_decimal PushNil). }
  unfold pushVMValueToLua.
  destruct (vm_type value); try (exists CreatePushNil; split; [exact Hnil|reflexivity]).
  - (* BOOLEAN *)
    exists (CreatePushBoolean (vm_boolean value)). split; [|reflexivity].
    unfold engine_pushboolean, pushboolean. cbn [tvalue_path].
    pose proof (getBoolean_ok cache (vm_boolean value) Hok) as Hb.
    destruct (BytecodeCache.getBoolean (vm_boolean value) cache) as [bytecode cache'].
    cbn [fst] in *. subst bytecode.
    apply (load_produced _ _ _ strtod_decimal).
    exact (produced_build strtod_decimal (PushBoolean (vm_boolean value))).
  - (* NUMBER *)
    destruct (getNumber_ok cache (vm_number value) Hok) as (stored & Hn & Hst).
    exists (CreatePushNumber stored). split; [|now exists stored].
    unfold engine_pushnumber, pushnumber. cbn [tvalue_path].
    destruct (BytecodeCache.getNumber (vm_number value) cache) as [bytecode cache'].
    cbn [fst] in *. subst bytecode.
    apply (load_produced _ _ _ strtod_decimal).
    exact (produced_build strtod_decimal (PushNumber stored)).
  - (* STRING *)
    exists (CreatePushString (vm_string value)). split; [|reflexivity].
    unfold engine_pushstring, pushstring. cbn [tvalue_path].
    pose proof (getString_ok cache (vm_string value) Hok) as Hs.
    destruct (BytecodeCache.getString (vm_string value) cache) as [bytecode cache'].
    cbn [fst] in *. subst bytecode.
    apply (load_produced _ _ _ strtod_decimal).
    exact (produced_build strtod_decimal (PushString (vm_string value))).
  - (* LIGHTUSERDATA *)
    exists (CreatePushString (text "lightuserdata"%string)). split; [|reflexivity].
    cbn [fst]. apply (load_produced _ _ _ strtod_decimal).
    exact (produced_build strtod_decimal (PushString (text "lightuserdata"%string))).
Qed.

End PushEngineFacts.
